(** * TAhoCorasick: a lazily resolved Aho-Corasick automaton (main.cpp)

    Shallow embedding of class [TAhoCorasick] and of its query surface.

    - [ssize_t] and [size_t] values are integers of [Z]; the sentinel "absent"
      is [-1] as in the source.  Vector sizes are bounded by the address space,
      so 64-bit size arithmetic is written without reduction; the three 32-bit
      loop counters of the source ([wordIdx] and [chPos] in [Reset], [i] in
      [SearchIn], all declared [auto x = 0u]) have their reduction modulo 2^32
      written out.
    - [std::vector] is a list read and written by an integer index.  A read
      outside the list yields the value of a fresh element; the invariants
      [RowsInv] and [Shape] place every row inside [Ways] and every node
      index inside [Tree].
    - The members [Tree] and [Ways] are [mutable] and are written by the
      [const] resolvers; every resolver therefore takes the automaton and
      returns the automaton it leaves behind.
    - [GetLink] and [SwitchStateCode] call one another; they carry a fuel
      argument, and the theorems show that a fuel of twice the depth of the
      node (plus two) is always enough.
    - A symbol is a value of the C++ type [char].  [CodeMap[c]] converts it to
      [size_t]; a lookup outside the 256 entries has no defined result and is
      [None] here. *)

From Stdlib Require Import String Ascii ZArith List Bool Lia Sorted.
Import ListNotations.
Local Open Scope Z_scope.

(** ** Vectors indexed by integers *)

Section Vectors.
Context {A : Type}.

Definition vsize (l : list A) : Z := Z.of_nat (length l).

Definition vget (d : A) (l : list A) (i : Z) : A :=
  if i <? 0 then d else nth (Z.to_nat i) l d.

Fixpoint set_nth (l : list A) (n : nat) (x : A) : list A :=
  match l, n with
  | [], _ => []
  | _ :: t, O => x :: t
  | h :: t, S m => h :: set_nth t m x
  end.

Definition vset (l : list A) (i : Z) (x : A) : list A :=
  if i <? 0 then l else set_nth l (Z.to_nat i) x.
End Vectors.

(** ** The option monad of the fallible steps *)

Definition bind {A B : Type} (m : option A) (f : A -> option B) : option B :=
  match m with
  | Some x => f x
  | None => None
  end.

Notation "x <- m ;; k" := (bind m (fun x => k))
  (at level 61, m at next level, right associativity).
Notation "' p <- m ;; k" := (bind m (fun p => k))
  (at level 61, p pattern, m at next level, right associativity).

Fixpoint foldM {S X : Type} (f : S -> X -> option S) (s : S) (l : list X)
  : option S :=
  match l with
  | [] => Some s
  | x :: l' => s' <- f s x ;; foldM f s' l'
  end.

(** ** Machine integers *)

Definition wrap32 (z : Z) : Z := z mod 2 ^ 32.
Definition wrap64 (z : Z) : Z := z mod 2 ^ 64.

(** A [char] holds a byte; whether the byte values 128..255 read as negative
    numbers is fixed by the platform ([char_is_signed]). *)
Abbreviation char := Z (only parsing).

Definition char_of_byte (char_is_signed : bool) (b : Z) : char :=
  if char_is_signed && (128 <=? b) then b - 256 else b.

(** [CodeMap[c]]: [std::array::operator[]] takes a [size_t]. *)
Definition index_of_char (c : char) : Z := wrap64 c.

Definition chars_of_string (s : string) : list char :=
  map (fun a => Z.of_N (N_of_ascii a)) (list_ascii_of_string s).

(** ** Data *)

Module TNode.
Record t : Type := mk {
  Next : Z;
  Go : Z;
  IsLeaf : Z;
  ParentCode : Z;
  Parent : Z;
  SuffLink : Z;
  Depth : Z
}.

(** [TNode()] *)
Definition default : t := mk (-1) (-1) (-1) 0 (-1) (-1) 0.

Definition with_Next (n : t) (x : Z) : t :=
  mk x (Go n) (IsLeaf n) (ParentCode n) (Parent n) (SuffLink n) (Depth n).
Definition with_Go (n : t) (x : Z) : t :=
  mk (Next n) x (IsLeaf n) (ParentCode n) (Parent n) (SuffLink n) (Depth n).
Definition with_IsLeaf (n : t) (x : Z) : t :=
  mk (Next n) (Go n) x (ParentCode n) (Parent n) (SuffLink n) (Depth n).
Definition with_SuffLink (n : t) (x : Z) : t :=
  mk (Next n) (Go n) (IsLeaf n) (ParentCode n) (Parent n) x (Depth n).
End TNode.

Module TState.
Record t : Type := mk {
  Idx : Z;
  Depth : Z;
  Leaf : Z
}.

(** [TState()] *)
Definition default : t := mk 0 0 (-1).

(** [TState(idx)], the implicit conversion used by [GetLink(node.Parent)] *)
Definition of_idx (idx : Z) : t := mk idx 0 (-1).

Definition IsRoot (s : t) : bool := Idx s =? 0.
Definition IsNextTo (s s0 : t) : bool := Depth s =? wrap64 (Depth s0 + 1).
Definition IsLeaf (s : t) : bool := 0 <=? Leaf s.
(** Guarded by [assert(IsLeaf())]; every caller tests [IsLeaf] first. *)
Definition GetWordIdx (s : t) : Z := Leaf s.
End TState.

Record TAhoCorasick : Type := mkAC {
  CodeSize : Z;
  CodeMap : list Z;
  Tree : list TNode.t;
  Ways : list Z
}.

Definition node (a : TAhoCorasick) (i : Z) : TNode.t :=
  vget TNode.default (Tree a) i.

Definition way (a : TAhoCorasick) (i : Z) : Z := vget (-1) (Ways a) i.

Definition set_node (a : TAhoCorasick) (i : Z) (n : TNode.t) : TAhoCorasick :=
  mkAC (CodeSize a) (CodeMap a) (vset (Tree a) i n) (Ways a).

Definition set_way (a : TAhoCorasick) (i : Z) (x : Z) : TAhoCorasick :=
  mkAC (CodeSize a) (CodeMap a) (Tree a) (vset (Ways a) i x).

(** [Ways.insert(Ways.end(), CodeSize, -1)] *)
Definition grow_ways (a : TAhoCorasick) : TAhoCorasick :=
  mkAC (CodeSize a) (CodeMap a) (Tree a)
       (Ways a ++ repeat (-1) (Z.to_nat (CodeSize a))).

(** Lines 85-87: [Tree[i].Next = Ways.size()] and a new row of [Ways]. *)
Definition alloc_Next (a : TAhoCorasick) (i : Z) : TAhoCorasick :=
  grow_ways (set_node a i (TNode.with_Next (node a i) (vsize (Ways a)))).

(** Lines 179-180: [Tree[i].Go = Ways.size()] and a new row of [Ways]. *)
Definition alloc_Go (a : TAhoCorasick) (i : Z) : TAhoCorasick :=
  grow_ways (set_node a i (TNode.with_Go (node a i) (vsize (Ways a)))).

(** [Tree.emplace_back()] followed by the writes to the new node. *)
Definition push_node (a : TAhoCorasick) (n : TNode.t) : TAhoCorasick :=
  mkAC (CodeSize a) (CodeMap a) (Tree a ++ [n]) (Ways a).

(** [CodeMap[c]] *)
Definition CodeMap_at (cm : list Z) (c : char) : option Z :=
  let i := index_of_char c in
  if i <? vsize cm then Some (vget (-1) cm i) else None.

(** ** Reset *)

(** Lines 69-76: the body of the inner loop that hands out codes. *)
Definition assign_code (st : Z * list Z) (c : char) : option (Z * list Z) :=
  let '(cs, cm) := st in
  code <- CodeMap_at cm c ;;
  if code =? -1 then Some (cs + 1, vset cm (index_of_char c) cs)
  else Some (cs, cm).

Definition assign_codes (st : Z * list Z) (words : list (list char))
  : option (Z * list Z) :=
  foldM (foldM assign_code) st words.

(** Lines 82-99: one round of the inner loop of the trie builder.  The state
    is the automaton, [curPos] and [chPos]. *)
Definition insert_char (st : TAhoCorasick * Z * Z) (c : char)
  : option (TAhoCorasick * Z * Z) :=
  let '(a, curPos, chPos) := st in
  code <- CodeMap_at (CodeMap a) c ;;
  let a1 :=
    if TNode.Next (node a curPos) =? -1 then alloc_Next a curPos else a in
  let off := TNode.Next (node a1 curPos) + code in
  if way a1 off =? -1 then
    let n := vsize (Tree a1) in
    let newNode :=
      TNode.mk (-1) (-1) (-1) code curPos (-1) (wrap32 (chPos + 1)) in
    Some (push_node (set_way a1 off n) newNode, n, wrap32 (chPos + 1))
  else Some (a1, way a1 off, wrap32 (chPos + 1)).

(** Lines 78-102: one round of the outer loop.  The state is the automaton and
    [wordIdx]. *)
Definition insert_word (st : TAhoCorasick * Z) (w : list char)
  : option (TAhoCorasick * Z) :=
  let '(a, wordIdx) := st in
  '(a1, curPos, _) <- foldM insert_char (a, 0, 0) w ;;
  Some (set_node a1 curPos (TNode.with_IsLeaf (node a1 curPos) wordIdx),
        wrap32 (wordIdx + 1)).

Definition Reset (words : list (list char)) : option TAhoCorasick :=
  '(cs, cm) <- assign_codes (0, repeat (-1) 256%nat) words ;;
  '(a, _) <- foldM insert_word (mkAC cs cm [TNode.default] [], 0) words ;;
  Some a.

(** ** The two resolvers *)

Fixpoint SwitchStateCode_fuel (fuel : nat) (a : TAhoCorasick) (code : Z)
  (v : TState.t) {struct fuel} : option (TAhoCorasick * TState.t) :=
  match fuel with
  | O => None
  | S f =>
    let i := TState.Idx v in
    let a1 := if TNode.Go (node a i) =? -1 then alloc_Go a i else a in
    let goOffset := TNode.Go (node a1 i) + code in
    let nextOffset := TNode.Next (node a1 i) + code in
    a2 <- (if way a1 goOffset =? -1 then
             if (TNode.Next (node a1 i) =? -1) || (way a1 nextOffset =? -1) then
               if TState.IsRoot v then Some (set_way a1 goOffset 0)
               else
                 '(a', l) <- GetLink_fuel f a1 v ;;
                 '(a'', r) <- SwitchStateCode_fuel f a' code l ;;
                 Some (set_way a'' goOffset (TState.Idx r))
             else Some (set_way a1 goOffset (way a1 nextOffset))
           else Some a1) ;;
    let nextNode := way a2 goOffset in
    Some (a2, TState.mk nextNode (TNode.Depth (node a2 nextNode))
                        (TNode.IsLeaf (node a2 nextNode)))
  end

with GetLink_fuel (fuel : nat) (a : TAhoCorasick) (s : TState.t)
  {struct fuel} : option (TAhoCorasick * TState.t) :=
  match fuel with
  | O => None
  | S f =>
    let v := TState.Idx s in
    a1 <- (if TNode.SuffLink (node a v) =? -1 then
             if (v =? 0) || (TNode.Parent (node a v) =? 0) then
               Some (set_node a v (TNode.with_SuffLink (node a v) 0))
             else
               '(a', l) <- GetLink_fuel f a (TState.of_idx (TNode.Parent (node a v))) ;;
               '(a'', r) <- SwitchStateCode_fuel f a' (TNode.ParentCode (node a v)) l ;;
               Some (set_node a'' v (TNode.with_SuffLink (node a'' v) (TState.Idx r)))
           else Some a) ;;
    let n := node a1 v in
    Some (a1, TState.mk (TNode.SuffLink n) (TNode.Depth n)
                        (TNode.IsLeaf (node a1 (TNode.SuffLink n))))
  end.

(** No node lies deeper than the number of nodes, so this fuel is enough for
    every request. *)
Definition resolver_fuel (a : TAhoCorasick) : nat :=
  (2 * length (Tree a) + 2)%nat.

Definition SwitchStateCode (a : TAhoCorasick) (code : Z) (v : TState.t)
  : option (TAhoCorasick * TState.t) :=
  SwitchStateCode_fuel (resolver_fuel a) a code v.

Definition GetLink (a : TAhoCorasick) (s : TState.t)
  : option (TAhoCorasick * TState.t) :=
  GetLink_fuel (resolver_fuel a) a s.

(** ** Query surface *)

Definition SwitchState (a : TAhoCorasick) (c : char) (v : TState.t)
  : option (TAhoCorasick * TState.t) :=
  code <- CodeMap_at (CodeMap a) c ;;
  if code =? -1 then Some (a, TState.default)
  else SwitchStateCode a code v.

Definition GetState (a : TAhoCorasick) (c : char)
  : option (TAhoCorasick * TState.t) :=
  SwitchState a c TState.default.

(** The loop shared by [HasString] and [HasPrefix]: [inr] is the early
    [return false], [inl] the state after the last symbol. *)
Fixpoint walk (a : TAhoCorasick) (state : TState.t) (s : list char)
  : option (TAhoCorasick * (TState.t + unit)) :=
  match s with
  | [] => Some (a, inl state)
  | c :: s' =>
    '(a', newState) <- SwitchState a c state ;;
    if negb (TState.IsNextTo newState state) then Some (a', inr tt)
    else walk a' newState s'
  end.

Definition HasString (a : TAhoCorasick) (s : list char)
  : option (TAhoCorasick * bool) :=
  '(a', r) <- walk a TState.default s ;;
  match r with
  | inl state => Some (a', TState.IsLeaf state)
  | inr _ => Some (a', false)
  end.

Definition HasPrefix (a : TAhoCorasick) (s : list char)
  : option (TAhoCorasick * bool) :=
  '(a', r) <- walk a TState.default s ;;
  match r with
  | inl _ => Some (a', true)
  | inr _ => Some (a', false)
  end.

(** The loop of [SearchIn] from counter value [i] on; [s] is what is left of
    the text.  The recursion on the text is the loop of the source as long as
    the 32-bit counter [i] does not wrap, that is for texts of fewer than 2^32
    symbols ([valid_text]). *)
Fixpoint SearchIn_loop (a : TAhoCorasick) (state : TState.t) (i : Z)
  (s : list char) (res : list (Z * Z))
  : option (TAhoCorasick * list (Z * Z)) :=
  match s with
  | [] => Some (a, res)
  | c :: s' =>
    '(a', state') <- SwitchState a c state ;;
    let res' :=
      if TState.IsLeaf state'
      then res ++ [(wrap32 (i + 1), TState.GetWordIdx state')]
      else res in
    SearchIn_loop a' state' (wrap32 (i + 1)) s' res'
  end.

Definition SearchIn (a : TAhoCorasick) (s : list char) (res : list (Z * Z))
  : option (TAhoCorasick * list (Z * Z)) :=
  SearchIn_loop a TState.default 0 s res.

(** ** Inputs the source can take

    [CodeMap] has 256 entries, so a symbol must convert to an index below 256;
    the 32-bit counters must not wrap. *)

Definition valid_char (c : char) : bool := (0 <=? c) && (c <? 256).

Definition valid_chars (s : list char) : bool := forallb valid_char s.

Definition valid_text (s : list char) : bool :=
  valid_chars s && (vsize s <? 2 ^ 32).

Definition valid_words (words : list (list char)) : bool :=
  forallb valid_text words && (vsize words <? 2 ^ 32).

(** ** Vocabulary of the specification *)

Fixpoint eqb_chars (u w : list char) : bool :=
  match u, w with
  | [], [] => true
  | x :: u', y :: w' => (x =? y) && eqb_chars u' w'
  | _, _ => false
  end.

Fixpoint prefixb (u w : list char) : bool :=
  match u, w with
  | [], _ => true
  | x :: u', y :: w' => (x =? y) && prefixb u' w'
  | _ :: _, [] => false
  end.

(** The strings that have a trie node: the empty string (the root) and every
    prefix of a pattern. *)
Definition in_trie (words : list (list char)) (u : list char) : bool :=
  match u with
  | [] => true
  | _ => existsb (prefixb u) words
  end.

(** Longest suffix of [w] that has a trie node. *)
Fixpoint lsp (words : list (list char)) (w : list char) : list char :=
  if in_trie words w then w
  else match w with
       | [] => []
       | _ :: w' => lsp words w'
       end.

(** Index written last into the leaf marker of the node of [u]: the largest
    index of a pattern equal to [u], or [-1]. *)
Fixpoint leaf_from (k : Z) (ws : list (list char)) (u : list char) : Z :=
  match ws with
  | [] => -1
  | w :: ws' =>
    let r := leaf_from (k + 1) ws' u in
    if 0 <=? r then r else if eqb_chars w u then k else -1
  end.

Definition leaf_index (words : list (list char)) (u : list char) : Z :=
  leaf_from 0 words u.

Definition pattern (words : list (list char)) (k : Z) : list char :=
  vget [] words k.

(** The [len] symbols of [t] that end at the 1-based position [e]. *)
Definition sub_ending (t : list char) (e len : Z) : list char :=
  firstn (Z.to_nat len) (skipn (Z.to_nat (e - len)) t).

(** Pattern [k] occurs in [t] with its last symbol at position [e]. *)
Definition occurs_at (words : list (list char)) (t : list char) (e k : Z)
  : Prop :=
  1 <= e <= vsize t /\ 0 <= k < vsize words /\
  vsize (pattern words k) <= e /\
  sub_ending t e (vsize (pattern words k)) = pattern words k.

(** What [SearchIn] appends while it reads [rest] after having read [done]. *)
Fixpoint search_model (words : list (list char)) (done rest : list char)
  : list (Z * Z) :=
  match rest with
  | [] => []
  | c :: rest' =>
    let k := leaf_index words (lsp words (done ++ [c])) in
    (if 0 <=? k then [(vsize (done ++ [c]), k)] else [])
      ++ search_model words (done ++ [c]) rest'
  end.

(** [q] contains [w] at a place other than its beginning. *)
Definition occurs_inside (w q : list char) : Prop :=
  exists x y, x <> [] /\ q = x ++ w ++ y.

(** End positions grow strictly from each reported pair to every later one. *)
Definition increasing_ends (l : list (Z * Z)) : Prop :=
  StronglySorted (fun x y => fst x < fst y) l.

(** ** Automata reached from [Reset] *)

Definition in_tree (a : TAhoCorasick) (i : Z) : Prop :=
  0 <= i < vsize (Tree a).

Inductive built (words : list (list char)) : TAhoCorasick -> Prop :=
| built_Reset a :
    Reset words = Some a -> built words a
| built_SwitchState a c v a' s :
    built words a -> valid_char c = true -> in_tree a (TState.Idx v) ->
    SwitchState a c v = Some (a', s) -> built words a'
| built_GetLink a v a' l :
    built words a -> in_tree a (TState.Idx v) ->
    GetLink a v = Some (a', l) -> built words a'.

(** ** Views of the flat table [Ways] *)

(** Literal trie edge of node [p] for code [k]. *)
Definition edge (a : TAhoCorasick) (p k : Z) : Z :=
  if TNode.Next (node a p) =? -1 then -1
  else way a (TNode.Next (node a p) + k).

(** Resolved transition of node [p] for code [k], if already computed. *)
Definition gocell (a : TAhoCorasick) (p k : Z) : Z :=
  if TNode.Go (node a p) =? -1 then -1
  else way a (TNode.Go (node a p) + k).

Definition code_of (a : TAhoCorasick) (c : char) : Z :=
  vget (-1) (CodeMap a) c.

Definition str (strs : list (list char)) (i : Z) : list char :=
  vget [] strs i.

(** ** Invariants *)

Record CodesOk (cs : Z) (cm : list Z) : Prop := {
  co_size : vsize cm = 256;
  co_cs : 0 <= cs;
  co_range : forall c, 0 <= c < 256 ->
    vget (-1) cm c = -1 \/ 0 <= vget (-1) cm c < cs;
  co_inj : forall c1 c2, 0 <= c1 < 256 -> 0 <= c2 < 256 ->
    vget (-1) cm c1 = vget (-1) cm c2 -> vget (-1) cm c1 <> -1 -> c1 = c2;
  co_surj : forall k, 0 <= k < cs ->
    exists c, 0 <= c < 256 /\ vget (-1) cm c = k
}.

Definition row_ok (a : TAhoCorasick) (r : Z) : Prop :=
  r = -1 \/ (0 <= r /\ r + CodeSize a <= vsize (Ways a)).

Definition rows_apart (a : TAhoCorasick) (r1 r2 : Z) : Prop :=
  r1 = -1 \/ r2 = -1 \/ r1 + CodeSize a <= r2 \/ r2 + CodeSize a <= r1.

(** Every node owns its rows of [Ways]: rows lie inside the vector and no two
    of them overlap. *)
Record RowsInv (a : TAhoCorasick) : Prop := {
  ri_next : forall i, row_ok a (TNode.Next (node a i));
  ri_go : forall i, row_ok a (TNode.Go (node a i));
  ri_nn : forall i j, i <> j ->
    rows_apart a (TNode.Next (node a i)) (TNode.Next (node a j));
  ri_gg : forall i j, i <> j ->
    rows_apart a (TNode.Go (node a i)) (TNode.Go (node a j));
  ri_ng : forall i j,
    rows_apart a (TNode.Next (node a i)) (TNode.Go (node a j))
}.

(** Node [i] stands for the string [str strs i]. *)
Record Shape (a : TAhoCorasick) (strs : list (list char)) : Prop := {
  sh_size : vsize strs = vsize (Tree a);
  sh_pos : 1 <= vsize (Tree a);
  sh_root : str strs 0 = [];
  sh_inj : forall i j, in_tree a i -> in_tree a j ->
    str strs i = str strs j -> i = j;
  sh_parent : forall j, 0 < j < vsize (Tree a) ->
    0 <= TNode.Parent (node a j) < j /\
    exists c, 0 <= c < 256 /\ code_of a c = TNode.ParentCode (node a j) /\
      TNode.ParentCode (node a j) <> -1 /\
      str strs j = str strs (TNode.Parent (node a j)) ++ [c] /\
      edge a (TNode.Parent (node a j)) (TNode.ParentCode (node a j)) = j;
  sh_edge : forall p k, in_tree a p -> 0 <= k < CodeSize a ->
    edge a p k = -1 \/
    (0 < edge a p k < vsize (Tree a) /\
     TNode.Parent (node a (edge a p k)) = p /\
     TNode.ParentCode (node a (edge a p k)) = k);
  sh_depth : forall i, in_tree a i ->
    TNode.Depth (node a i) = vsize (str strs i)
}.

(** The trie holds exactly the prefixes of [words], with their leaf marks. *)
Record Content (words : list (list char)) (a : TAhoCorasick)
  (strs : list (list char)) : Prop := {
  ct_sound : forall i, in_tree a i -> in_trie words (str strs i) = true;
  ct_complete : forall u, in_trie words u = true ->
    exists i, in_tree a i /\ str strs i = u;
  ct_leaf : forall i, in_tree a i ->
    TNode.IsLeaf (node a i) = leaf_index words (str strs i);
  ct_codes : forall w c, In w words -> In c w -> code_of a c <> -1;
  ct_mapped : forall c, code_of a c <> -1 -> exists w, In w words /\ In c w
}.

(** What has been memoized is right. *)
Record Memo (words : list (list char)) (a : TAhoCorasick)
  (strs : list (list char)) : Prop := {
  me_link : forall i, in_tree a i ->
    TNode.SuffLink (node a i) = -1 \/
    (in_tree a (TNode.SuffLink (node a i)) /\
     str strs (TNode.SuffLink (node a i)) = lsp words (tl (str strs i)));
  me_go : forall i k c, in_tree a i -> 0 <= c < 256 -> code_of a c = k ->
    k <> -1 ->
    gocell a i k = -1 \/
    (in_tree a (gocell a i k) /\
     str strs (gocell a i k) = lsp words (str strs i ++ [c]))
}.

Record QInv (words : list (list char)) (a : TAhoCorasick)
  (strs : list (list char)) : Prop := {
  qi_words : valid_words words = true;
  qi_codes : CodesOk (CodeSize a) (CodeMap a);
  qi_rows : RowsInv a;
  qi_shape : Shape a strs;
  qi_content : Content words a strs;
  qi_memo : Memo words a strs
}.

(** Nothing has been memoized yet (the state during [Reset]). *)
Definition Fresh (a : TAhoCorasick) : Prop :=
  forall i, TNode.Go (node a i) = -1 /\ TNode.SuffLink (node a i) = -1.

(** Two automata with the same trie. *)
Record same_trie (a a' : TAhoCorasick) : Prop := {
  st_cs : CodeSize a' = CodeSize a;
  st_cm : CodeMap a' = CodeMap a;
  st_n : vsize (Tree a') = vsize (Tree a);
  st_parent : forall i, TNode.Parent (node a' i) = TNode.Parent (node a i);
  st_pcode : forall i,
    TNode.ParentCode (node a' i) = TNode.ParentCode (node a i);
  st_depth : forall i, TNode.Depth (node a' i) = TNode.Depth (node a i);
  st_edge : forall p k, 0 <= k < CodeSize a -> edge a' p k = edge a p k
}.

(** What the resolvers leave untouched. *)
Record extends (a a' : TAhoCorasick) : Prop := {
  ex_cs : CodeSize a' = CodeSize a;
  ex_cm : CodeMap a' = CodeMap a;
  ex_n : vsize (Tree a') = vsize (Tree a);
  ex_next : forall i, TNode.Next (node a' i) = TNode.Next (node a i);
  ex_parent : forall i, TNode.Parent (node a' i) = TNode.Parent (node a i);
  ex_pcode : forall i,
    TNode.ParentCode (node a' i) = TNode.ParentCode (node a i);
  ex_depth : forall i, TNode.Depth (node a' i) = TNode.Depth (node a i);
  ex_leaf : forall i, TNode.IsLeaf (node a' i) = TNode.IsLeaf (node a i);
  ex_edge : forall p k, 0 <= k < CodeSize a -> edge a' p k = edge a p k;
  ex_go : forall i, TNode.Go (node a i) <> -1 ->
    TNode.Go (node a' i) = TNode.Go (node a i)
}.

(** The assigned codes stay as they are. *)
Definition codes_kept (cm cm' : list Z) : Prop :=
  forall c, 0 <= c < 256 -> vget (-1) cm c <> -1 ->
    vget (-1) cm' c = vget (-1) cm c.

(** Invariant of the second loop of [Reset]. *)
Record BInv (a : TAhoCorasick) (strs : list (list char)) : Prop := {
  bi_codes : CodesOk (CodeSize a) (CodeMap a);
  bi_rows : RowsInv a;
  bi_shape : Shape a strs;
  bi_fresh : Fresh a
}.

(** State of the trie when the patterns [ws] have been inserted. *)
Record Done (ws : list (list char)) (a : TAhoCorasick)
  (strs : list (list char)) : Prop := {
  dn_inv : BInv a strs;
  dn_sound : forall i, in_tree a i -> in_trie ws (str strs i) = true;
  dn_complete : forall u, in_trie ws u = true ->
    exists i, in_tree a i /\ str strs i = u;
  dn_leaf : forall i, in_tree a i ->
    TNode.IsLeaf (node a i) = leaf_index ws (str strs i)
}.

(** The state [s] stands at the node of the string [u]. *)
Definition at_string (words : list (list char)) (strs : list (list char))
  (a : TAhoCorasick) (s : TState.t) (u : list char) : Prop :=
  in_tree a (TState.Idx s) /\ str strs (TState.Idx s) = u /\
  TState.Depth s = vsize u /\
  (TState.Leaf s = leaf_index words u \/ (TState.Leaf s = -1 /\ u = [])).

(** ** The trie read back from the tables *)

(** Symbol that was given the code [k]: the first index of [CodeMap] that
    holds [k]. *)
Fixpoint index_of (k : Z) (cm : list Z) : Z :=
  match cm with
  | [] => 0
  | x :: cm' => if x =? k then 0 else 1 + index_of k cm'
  end.

Definition symbol_of (a : TAhoCorasick) (k : Z) : char :=
  index_of k (CodeMap a).

(** The prefix a node stands for: the symbols on the way from the root. *)
Fixpoint spell_fuel (fuel : nat) (a : TAhoCorasick) (v : Z) : list char :=
  match fuel with
  | O => []
  | S f =>
    if v <=? 0 then []
    else spell_fuel f a (TNode.Parent (node a v))
           ++ [symbol_of a (TNode.ParentCode (node a v))]
  end.

Definition spell (a : TAhoCorasick) (v : Z) : list char :=
  spell_fuel (length (Tree a)) a v.

(** Walk from node [p] along literal trie edges only. *)
Fixpoint follow_edges (a : TAhoCorasick) (p : Z) (s : list char) : option Z :=
  match s with
  | [] => Some p
  | c :: s' =>
    if code_of a c =? -1 then None
    else if edge a p (code_of a c) =? -1 then None
    else follow_edges a (edge a p (code_of a c)) s'
  end.

(** ** The driver's pattern set *)

Definition ex_words : list (list char) :=
  map chars_of_string ["abcd"; "bcde"; "cdef"]%string.

Definition ex_automaton : TAhoCorasick :=
  match Reset ex_words with
  | Some a => a
  | None => mkAC 0 [] [] []
  end.

(** A pattern set in which one pattern lies inside another. *)
Definition nested_words : list (list char) :=
  map chars_of_string ["abcd"; "bc"]%string.

Definition nested_automaton : TAhoCorasick :=
  match Reset nested_words with
  | Some a => a
  | None => mkAC 0 [] [] []
  end.

(** ** Vocabulary for the alphabet and for the exact output of [SearchIn] *)

(** Some pattern holds the symbol [c]. *)
Definition occurs_in (words : list (list char)) (c : char) : bool :=
  existsb (existsb (Z.eqb c)) words.

(** The symbols met so far, each once, in the order they were met first. *)
Definition see (seen : list char) (c : char) : list char :=
  if existsb (Z.eqb c) seen then seen else seen ++ [c].

(** The distinct symbols of the patterns in order of first appearance,
    patterns in their order and symbols from left to right. *)
Definition see_word (seen : list char) (w : list char) : list char :=
  fold_left see w seen.

Definition alphabet (words : list (list char)) : list char :=
  fold_left see_word words [].

(** Place of [c] in [l], counted from 0, or [-1]. *)
Fixpoint position (c : char) (l : list char) : Z :=
  match l with
  | [] => -1
  | x :: l' =>
    if x =? c then 0
    else if position c l' =? -1 then -1 else position c l' + 1
  end.

(** What [SearchIn] appends while it reads [rest] after [done], for any
    pattern set: a state reached on a symbol of no pattern is [TState()] and
    shows no leaf, whatever the root holds. *)
Fixpoint search_exact (words : list (list char)) (done rest : list char)
  : list (Z * Z) :=
  match rest with
  | [] => []
  | c :: rest' =>
    let k := leaf_index words (lsp words (done ++ [c])) in
    (if occurs_in words c && (0 <=? k) then [(vsize (done ++ [c]), k)] else [])
      ++ search_exact words (done ++ [c]) rest'
  end.

(** * Proofs *)

(** ** Vectors *)

Section VectorFacts.
Context {A : Type}.
Implicit Types (l : list A) (d x : A) (i j : Z).

Lemma vsize_nonneg l : 0 <= vsize l.
Proof. unfold vsize; lia. Qed.

Lemma vsize_app l l' : vsize (l ++ l') = vsize l + vsize l'.
Proof. unfold vsize; rewrite length_app; lia. Qed.

Lemma vsize_cons x l : vsize (x :: l) = vsize l + 1.
Proof. unfold vsize; simpl; lia. Qed.

Lemma vsize_nil : vsize (@nil A) = 0.
Proof. reflexivity. Qed.

Lemma vsize_repeat x (n : nat) : vsize (repeat x n) = Z.of_nat n.
Proof. unfold vsize; now rewrite repeat_length. Qed.

Lemma length_set_nth l (n : nat) x : length (set_nth l n x) = length l.
Proof.
  revert n; induction l as [|h t IH]; intros [|n]; simpl; auto.
Qed.

Lemma vsize_vset l i x : vsize (vset l i x) = vsize l.
Proof.
  unfold vset, vsize; destruct (i <? 0); auto.
  now rewrite length_set_nth.
Qed.

Lemma nth_set_nth_same l (n : nat) x d :
  (n < length l)%nat -> nth n (set_nth l n x) d = x.
Proof.
  revert n; induction l as [|h t IH]; intros [|n] H; simpl in *;
    try lia; auto.
  apply IH; lia.
Qed.

Lemma nth_set_nth_other l (n m : nat) x d :
  n <> m -> nth m (set_nth l n x) d = nth m l d.
Proof.
  revert n m; induction l as [|h t IH]; intros [|n] [|m] H; simpl;
    try congruence; auto.
Qed.

Lemma vget_vset_same l i x d :
  0 <= i < vsize l -> vget d (vset l i x) i = x.
Proof.
  unfold vget, vset, vsize; intros H.
  destruct (Z.ltb_spec i 0); try lia.
  apply nth_set_nth_same; lia.
Qed.

Lemma vget_vset_other l i j x d :
  i <> j -> vget d (vset l i x) j = vget d l j.
Proof.
  unfold vget, vset; intros H.
  destruct (Z.ltb_spec j 0); auto.
  destruct (Z.ltb_spec i 0); auto.
  apply nth_set_nth_other; lia.
Qed.

Lemma vget_out d l i : vsize l <= i -> vget d l i = d.
Proof.
  unfold vget, vsize; intros H.
  destruct (Z.ltb_spec i 0); auto.
  apply nth_overflow; lia.
Qed.

Lemma vget_app_l d l l' i : i < vsize l -> vget d (l ++ l') i = vget d l i.
Proof.
  unfold vget, vsize; intros H.
  destruct (Z.ltb_spec i 0); auto.
  apply app_nth1; lia.
Qed.

Lemma vget_app_r d l l' i :
  vsize l <= i -> vget d (l ++ l') i = vget d l' (i - vsize l).
Proof.
  unfold vget, vsize; intros H.
  destruct (Z.ltb_spec i 0); destruct (Z.ltb_spec (i - Z.of_nat (length l)) 0);
    try lia.
  rewrite app_nth2 by lia. f_equal; lia.
Qed.

Lemma vget_snoc d l x : vget d (l ++ [x]) (vsize l) = x.
Proof.
  rewrite vget_app_r by lia. now rewrite Z.sub_diag.
Qed.

Lemma vget_repeat d (n : nat) i : vget d (repeat d n) i = d.
Proof.
  unfold vget; destruct (i <? 0); auto.
  generalize (Z.to_nat i); induction n as [|n IH]; intros [|m]; simpl; auto.
Qed.

Lemma vget_grow d l (n : nat) i : vget d (l ++ repeat d n) i = vget d l i.
Proof.
  destruct (Z.lt_ge_cases i (vsize l)).
  - now apply vget_app_l.
  - rewrite vget_app_r, vget_repeat by lia. now rewrite vget_out.
Qed.

Lemma vget_In d l i : 0 <= i < vsize l -> In (vget d l i) l.
Proof.
  unfold vget, vsize; intros H.
  destruct (Z.ltb_spec i 0); try lia. apply nth_In; lia.
Qed.

Lemma In_vget d l x : In x l -> exists i, 0 <= i < vsize l /\ vget d l i = x.
Proof.
  intros H. destruct (In_nth _ _ d H) as (n & Hn & Hx).
  exists (Z.of_nat n). unfold vget, vsize. split; [lia|].
  destruct (Z.ltb_spec (Z.of_nat n) 0); try lia.
  now rewrite Nat2Z.id.
Qed.
End VectorFacts.

(** ** Strings: prefixes, the trie set, longest suffixes *)

Lemma eqb_chars_eq u w : eqb_chars u w = true <-> u = w.
Proof.
  revert w; induction u as [|x u IH]; intros [|y w]; simpl;
    try (split; congruence).
  rewrite andb_true_iff, Z.eqb_eq, IH. split.
  - intros [-> ->]; auto.
  - intros H; inversion H; auto.
Qed.

Lemma eqb_chars_refl u : eqb_chars u u = true.
Proof. now apply eqb_chars_eq. Qed.

Lemma prefixb_spec u w : prefixb u w = true <-> exists r, w = u ++ r.
Proof.
  revert w; induction u as [|x u IH]; intros w; simpl.
  - split; eauto.
  - destruct w as [|y w].
    + split; [congruence | intros [r H]; discriminate].
    + rewrite andb_true_iff, Z.eqb_eq, IH. split.
      * intros [-> [r ->]]; eauto.
      * intros [r H]; inversion H; eauto.
Qed.

Lemma in_trie_spec words u :
  in_trie words u = true <->
  u = [] \/ exists w r, In w words /\ w = u ++ r.
Proof.
  destruct u as [|x u]; unfold in_trie.
  - split; auto.
  - rewrite existsb_exists. split.
    + intros (w & Hw & Hp). apply prefixb_spec in Hp as [r ->]. right; eauto.
    + intros [H | (w & r & Hw & ->)]; [discriminate|].
      exists ((x :: u) ++ r); split; auto. apply prefixb_spec; eauto.
Qed.

Lemma in_trie_word words w : In w words -> in_trie words w = true.
Proof.
  intros H; apply in_trie_spec; right; exists w, []; split; auto.
  now rewrite app_nil_r.
Qed.

Lemma in_trie_app_l words u v :
  in_trie words (u ++ v) = true -> in_trie words u = true.
Proof.
  rewrite !in_trie_spec. intros [H | (w & r & Hw & ->)].
  - apply app_eq_nil in H as [-> _]; auto.
  - right; exists ((u ++ v) ++ r), (v ++ r); split; auto.
    now rewrite app_assoc.
Qed.

Lemma lsp_cons words x w :
  lsp words (x :: w) =
  if in_trie words (x :: w) then x :: w else lsp words w.
Proof. reflexivity. Qed.

Lemma lsp_in_trie words w : in_trie words (lsp words w) = true.
Proof.
  induction w as [|x w IH]; auto.
  rewrite lsp_cons. destruct (in_trie words (x :: w)) eqn:E; auto.
Qed.

Lemma lsp_fixed words u : in_trie words u = true -> lsp words u = u.
Proof.
  intros H. destruct u as [|x u]; auto.
  rewrite lsp_cons. now rewrite H.
Qed.

Lemma lsp_suffix words w : exists l, w = l ++ lsp words w.
Proof.
  induction w as [|x w [l IH]].
  - exists []; reflexivity.
  - rewrite lsp_cons. destruct (in_trie words (x :: w)).
    + exists []; reflexivity.
    + exists (x :: l); simpl; congruence.
Qed.

Lemma lsp_length words w : vsize (lsp words w) <= vsize w.
Proof.
  destruct (lsp_suffix words w) as [l H].
  rewrite H at 2. rewrite vsize_app. pose proof (vsize_nonneg l). lia.
Qed.

(** Every suffix of [w] with a trie node is a suffix of [lsp words w]. *)
Lemma lsp_max words w : forall l u,
  w = l ++ u -> in_trie words u = true -> exists l', lsp words w = l' ++ u.
Proof.
  induction w as [|x w IH]; intros l u H Hu.
  - symmetry in H; apply app_eq_nil in H as [-> ->]. exists []; reflexivity.
  - rewrite lsp_cons. destruct (in_trie words (x :: w)) eqn:E.
    + exists l; auto.
    + destruct l as [|y l]; simpl in H.
      * subst u. congruence.
      * inversion H; subst. eapply IH; eauto.
Qed.

Lemma lsp_snoc words w c :
  lsp words (w ++ [c]) = lsp words (lsp words w ++ [c]).
Proof.
  induction w as [|x w IH]; auto.
  rewrite (lsp_cons words x w).
  destruct (in_trie words (x :: w)) eqn:E; auto.
  simpl app. rewrite lsp_cons.
  destruct (in_trie words (x :: w ++ [c])) eqn:E'; auto.
  change (x :: w ++ [c]) with ((x :: w) ++ [c]) in E'.
  apply in_trie_app_l in E'. congruence.
Qed.

(** The step of the transition resolver that goes through the failure link. *)
Lemma lsp_fail words x u c :
  in_trie words ((x :: u) ++ [c]) = false ->
  lsp words ((x :: u) ++ [c]) = lsp words (lsp words u ++ [c]).
Proof.
  intros H. simpl app in *. rewrite lsp_cons, H. apply lsp_snoc.
Qed.

Lemma lsp_root_fail words c :
  in_trie words [c] = false -> lsp words [c] = [].
Proof. intros H. rewrite lsp_cons, H. reflexivity. Qed.

Lemma lsp_tl_length words u :
  u <> [] -> vsize (lsp words (tl u)) < vsize u.
Proof.
  intros H; destruct u as [|x u]; [congruence|]. simpl tl.
  pose proof (lsp_length words u). rewrite vsize_cons. lia.
Qed.

(** A symbol of no pattern sends every string to the root. *)
Lemma lsp_unmapped words u c :
  (forall w, In w words -> ~ In c w) -> lsp words (u ++ [c]) = [].
Proof.
  intros H.
  destruct (lsp_suffix words (u ++ [c])) as [l Hl].
  pose proof (lsp_in_trie words (u ++ [c])) as Ht.
  destruct (lsp words (u ++ [c])) as [|z s0]; auto.
  destruct (exists_last (l := z :: s0)) as (s & y & E); [discriminate|].
  rewrite E in *. rewrite app_assoc in Hl.
  apply app_inj_tail in Hl as [_ <-].
  apply in_trie_spec in Ht as [Ht | (w & r & Hw & ->)].
  - now destruct s.
  - exfalso; apply (H _ Hw). rewrite <- app_assoc. apply in_or_app; right.
    simpl; auto.
Qed.

(** ** Reads after writes *)

Lemma node_set_node_same a i x :
  in_tree a i -> node (set_node a i x) i = x.
Proof. intros H; unfold node, set_node; simpl. now apply vget_vset_same. Qed.

Lemma node_set_node_other a i j x :
  i <> j -> node (set_node a i x) j = node a j.
Proof. intros H; unfold node, set_node; simpl. now apply vget_vset_other. Qed.

Lemma node_set_node a i j x :
  in_tree a i ->
  node (set_node a i x) j = if j =? i then x else node a j.
Proof.
  intros H. destruct (Z.eqb_spec j i) as [->|N].
  - now apply node_set_node_same.
  - apply node_set_node_other; congruence.
Qed.

Lemma way_grow_ways a i : way (grow_ways a) i = way a i.
Proof. unfold way, grow_ways; simpl. apply vget_grow. Qed.

Lemma way_set_way_same a off x :
  0 <= off < vsize (Ways a) -> way (set_way a off x) off = x.
Proof. intros H; unfold way, set_way; simpl. now apply vget_vset_same. Qed.

Lemma way_set_way_other a off j x :
  off <> j -> way (set_way a off x) j = way a j.
Proof. intros H; unfold way, set_way; simpl. now apply vget_vset_other. Qed.

Lemma way_out a i : vsize (Ways a) <= i -> way a i = -1.
Proof. apply vget_out. Qed.

Lemma vsize_grow_ways a :
  0 <= CodeSize a ->
  vsize (Ways (grow_ways a)) = vsize (Ways a) + CodeSize a.
Proof.
  intros H; unfold grow_ways; simpl.
  rewrite vsize_app, vsize_repeat. lia.
Qed.

Lemma wrap32_small z : 0 <= z < 2 ^ 32 -> wrap32 z = z.
Proof. apply Z.mod_small. Qed.

Lemma wrap64_small z : 0 <= z < 2 ^ 64 -> wrap64 z = z.
Proof. apply Z.mod_small. Qed.

Lemma valid_char_range c : valid_char c = true <-> 0 <= c < 256.
Proof. unfold valid_char; rewrite andb_true_iff, Z.leb_le, Z.ltb_lt; tauto. Qed.

Lemma index_of_valid_char c : 0 <= c < 256 -> index_of_char c = c.
Proof. intros H; apply wrap64_small; lia. Qed.

Lemma CodeMap_at_valid cm c :
  vsize cm = 256 -> 0 <= c < 256 -> CodeMap_at cm c = Some (vget (-1) cm c).
Proof.
  intros Hs Hc; unfold CodeMap_at. rewrite index_of_valid_char by auto.
  destruct (Z.ltb_spec c (vsize cm)); auto; lia.
Qed.

(** ** Reset, first loop: the code map *)

Lemma foldM_cons {S X : Type} (f : S -> X -> option S) s x l :
  foldM f s (x :: l) = bind (f s x) (fun s' => foldM f s' l).
Proof. reflexivity. Qed.

Lemma valid_chars_Forall s :
  valid_chars s = true <-> Forall (fun c => 0 <= c < 256) s.
Proof.
  unfold valid_chars. rewrite forallb_forall, Forall_forall.
  split; intros H c Hc; apply valid_char_range; auto.
Qed.

Lemma valid_text_inv s :
  valid_text s = true -> valid_chars s = true /\ vsize s < 2 ^ 32.
Proof.
  unfold valid_text; rewrite andb_true_iff, Z.ltb_lt; auto.
Qed.

Lemma valid_words_inv words :
  valid_words words = true ->
  Forall (fun w => valid_text w = true) words /\ vsize words < 2 ^ 32.
Proof.
  unfold valid_words; rewrite andb_true_iff, Z.ltb_lt, forallb_forall,
    Forall_forall; auto.
Qed.

Lemma CodesOk_init : CodesOk 0 (repeat (-1) 256%nat).
Proof.
  constructor; try reflexivity; try lia.
  - intros c _; left; apply vget_repeat.
  - intros c1 c2 _ _ _ H; rewrite vget_repeat in H; congruence.
Qed.

Lemma assign_code_ok cs cm c :
  CodesOk cs cm -> 0 <= c < 256 ->
  exists cs' cm', assign_code (cs, cm) c = Some (cs', cm') /\
    CodesOk cs' cm' /\ vget (-1) cm' c <> -1 /\ codes_kept cm cm'.
Proof.
  intros [Hs Hcs Hr Hi Hsu] Hc. unfold assign_code.
  rewrite CodeMap_at_valid by auto. simpl bind.
  rewrite index_of_valid_char by auto.
  destruct (Z.eqb_spec (vget (-1) cm c) (-1)) as [E|E].
  - exists (cs + 1), (vset cm c cs). split; [reflexivity|].
    assert (Hsame : vget (-1) (vset cm c cs) c = cs)
      by (apply vget_vset_same; lia).
    assert (Hoth : forall c', c' <> c ->
              vget (-1) (vset cm c cs) c' = vget (-1) cm c')
      by (intros; apply vget_vset_other; congruence).
    split; [constructor|split].
    + now rewrite vsize_vset.
    + lia.
    + intros c' Hc'. destruct (Z.eq_dec c' c) as [->|N].
      * rewrite Hsame; right; lia.
      * rewrite Hoth by auto. destruct (Hr c' Hc'); [auto | right; lia].
    + intros c1 c2 H1 H2.
      destruct (Z.eq_dec c1 c) as [->|N1], (Z.eq_dec c2 c) as [->|N2]; auto.
      * rewrite Hsame, Hoth by auto. intros Heq _.
        destruct (Hr c2 H2); lia.
      * rewrite Hsame, Hoth by auto. intros Heq _.
        destruct (Hr c1 H1); lia.
      * rewrite !Hoth by auto. auto.
    + intros k Hk. destruct (Z.eq_dec k cs) as [->|N].
      * exists c; auto.
      * destruct (Hsu k) as (c' & Hc' & Hk'); [lia|].
        exists c'; split; auto. rewrite Hoth; auto. intros ->. lia.
    + rewrite Hsame; lia.
    + intros c' Hc' Hn. apply Hoth. congruence.
  - exists cs, cm. split; [reflexivity|]. split; [constructor; auto|].
    split; auto. intros c' _ _; reflexivity.
Qed.

Lemma assign_word_ok w : forall cs cm,
  CodesOk cs cm -> valid_chars w = true ->
  exists cs' cm', foldM assign_code (cs, cm) w = Some (cs', cm') /\
    CodesOk cs' cm' /\ codes_kept cm cm' /\
    (forall c, In c w -> vget (-1) cm' c <> -1).
Proof.
  induction w as [|c w IH]; intros cs cm Hok Hv.
  - exists cs, cm. split; [reflexivity|]. split; [auto|]. split.
    + intros c _ _; reflexivity.
    + intros c [].
  - apply valid_chars_Forall in Hv. inversion Hv as [|? ? Hc Hw]; subst.
    apply valid_chars_Forall in Hw.
    destruct (assign_code_ok _ _ _ Hok Hc) as (cs1 & cm1 & E1 & Hok1 & Hc1 & Hk1).
    destruct (IH _ _ Hok1 Hw) as (cs2 & cm2 & E2 & Hok2 & Hk2 & Hall).
    exists cs2, cm2. rewrite foldM_cons, E1. simpl bind. split; auto.
    split; auto. split.
    + intros c' Hc' Hn. rewrite Hk2; auto. rewrite Hk1; auto.
    + intros c' [<-|Hin]; auto. rewrite Hk2; auto.
Qed.

Lemma assign_codes_ok words : forall cs cm,
  CodesOk cs cm -> Forall (fun w => valid_chars w = true) words ->
  exists cs' cm', assign_codes (cs, cm) words = Some (cs', cm') /\
    CodesOk cs' cm' /\ codes_kept cm cm' /\
    (forall w c, In w words -> In c w -> vget (-1) cm' c <> -1).
Proof.
  unfold assign_codes.
  induction words as [|w words IH]; intros cs cm Hok Hv.
  - exists cs, cm. split; [reflexivity|]. split; [auto|]. split.
    + intros c _ _; reflexivity.
    + intros w c [].
  - inversion Hv as [|? ? Hw Hws]; subst.
    destruct (assign_word_ok _ _ _ Hok Hw) as (cs1 & cm1 & E1 & Hok1 & Hk1 & Hall1).
    destruct (IH _ _ Hok1 Hws) as (cs2 & cm2 & E2 & Hok2 & Hk2 & Hall2).
    exists cs2, cm2. rewrite foldM_cons, E1. simpl bind. split; auto.
    split; auto. split.
    + intros c' Hc' Hn. rewrite Hk2; auto. rewrite Hk1; auto.
    + intros w' c [<-|Hin] Hc; eauto.
      assert (Hr : 0 <= c < 256).
      { apply valid_chars_Forall in Hw. rewrite Forall_forall in Hw; auto. }
      rewrite Hk2; auto.
Qed.

(** A code is given only to a symbol that occurs in a pattern. *)
Lemma assign_code_origin cs cm c cs' cm' :
  assign_code (cs, cm) c = Some (cs', cm') ->
  vsize cm' = vsize cm /\
  forall c', vget (-1) cm' c' <> -1 ->
    vget (-1) cm c' <> -1 \/ c' = index_of_char c.
Proof.
  unfold assign_code. destruct (CodeMap_at cm c) as [code|]; [|discriminate].
  cbn [bind]. destruct (code =? -1); intros E; inversion E; subst.
  - split; [apply vsize_vset|]. intros c' Hc'.
    destruct (Z.eq_dec c' (index_of_char c)) as [->|N]; [now right|left].
    rewrite vget_vset_other in Hc' by congruence. exact Hc'.
  - split; auto.
Qed.

Lemma assign_word_origin w : forall cs cm cs' cm',
  foldM assign_code (cs, cm) w = Some (cs', cm') -> valid_chars w = true ->
  vsize cm' = vsize cm /\
  forall c', vget (-1) cm' c' <> -1 -> vget (-1) cm c' <> -1 \/ In c' w.
Proof.
  induction w as [|c w IH]; intros cs cm cs' cm' E Hv.
  - inversion E; subst. auto.
  - apply valid_chars_Forall in Hv. inversion Hv as [|? ? Hc Hw]; subst.
    apply valid_chars_Forall in Hw. rewrite foldM_cons in E.
    destruct (assign_code (cs, cm) c) as [[cs1 cm1]|] eqn:E1; [|discriminate].
    cbn [bind] in E. destruct (assign_code_origin _ _ _ _ _ E1) as [Hs1 Ho1].
    destruct (IH _ _ _ _ E Hw) as [Hs2 Ho2]. split; [congruence|].
    intros c' Hc'. destruct (Ho2 c' Hc') as [H|H]; [|right; now right].
    destruct (Ho1 c' H) as [H'|H']; [now left|right; left].
    rewrite H'. symmetry. now apply index_of_valid_char.
Qed.

Lemma assign_codes_origin words : forall cs cm cs' cm',
  assign_codes (cs, cm) words = Some (cs', cm') ->
  Forall (fun w => valid_chars w = true) words ->
  forall c', vget (-1) cm' c' <> -1 ->
    vget (-1) cm c' <> -1 \/ exists w, In w words /\ In c' w.
Proof.
  unfold assign_codes.
  induction words as [|w words IH]; intros cs cm cs' cm' E Hv c' Hc'.
  - inversion E; subst. now left.
  - inversion Hv as [|? ? Hw Hws]; subst. rewrite foldM_cons in E.
    destruct (foldM assign_code (cs, cm) w) as [[cs1 cm1]|] eqn:E1;
      [|discriminate].
    cbn [bind] in E. destruct (assign_word_origin _ _ _ _ _ E1 Hw) as [_ Ho1].
    destruct (IH _ _ _ _ E Hws c' Hc') as [H|(w' & Hw' & Hin)].
    + destruct (Ho1 c' H) as [H'|H']; [now left|right].
      exists w. split; [now left|exact H'].
    + right. exists w'. split; [now right|exact Hin].
Qed.

(** ** The primitive writes and the views *)

Lemma node_alloc_Next a p i :
  in_tree a p ->
  node (alloc_Next a p) i =
  if i =? p then TNode.with_Next (node a p) (vsize (Ways a)) else node a i.
Proof. intros H; unfold alloc_Next. apply (node_set_node a p i _ H). Qed.

Lemma node_alloc_Go a p i :
  in_tree a p ->
  node (alloc_Go a p) i =
  if i =? p then TNode.with_Go (node a p) (vsize (Ways a)) else node a i.
Proof. intros H; unfold alloc_Go. apply (node_set_node a p i _ H). Qed.

Lemma way_alloc_Next a p i : way (alloc_Next a p) i = way a i.
Proof. unfold alloc_Next. now rewrite way_grow_ways. Qed.

Lemma way_alloc_Go a p i : way (alloc_Go a p) i = way a i.
Proof. unfold alloc_Go. now rewrite way_grow_ways. Qed.

Lemma vsize_alloc_Next a p :
  0 <= CodeSize a ->
  vsize (Ways (alloc_Next a p)) = vsize (Ways a) + CodeSize a.
Proof. intros H; unfold alloc_Next. now rewrite vsize_grow_ways. Qed.

Lemma vsize_alloc_Go a p :
  0 <= CodeSize a ->
  vsize (Ways (alloc_Go a p)) = vsize (Ways a) + CodeSize a.
Proof. intros H; unfold alloc_Go. now rewrite vsize_grow_ways. Qed.

Lemma tree_alloc_Next a p : vsize (Tree (alloc_Next a p)) = vsize (Tree a).
Proof. unfold alloc_Next; simpl. apply vsize_vset. Qed.

Lemma tree_alloc_Go a p : vsize (Tree (alloc_Go a p)) = vsize (Tree a).
Proof. unfold alloc_Go; simpl. apply vsize_vset. Qed.

Lemma tree_set_node a i n : vsize (Tree (set_node a i n)) = vsize (Tree a).
Proof. unfold set_node; simpl. apply vsize_vset. Qed.

Lemma ways_set_way a off x : vsize (Ways (set_way a off x)) = vsize (Ways a).
Proof. unfold set_way; simpl. apply vsize_vset. Qed.

Ltac rows_tac := unfold row_ok, rows_apart in *; lia.

Lemma RowsInv_alloc_Next a p :
  RowsInv a -> 0 <= CodeSize a -> in_tree a p ->
  TNode.Next (node a p) = -1 ->
  RowsInv (alloc_Next a p).
Proof.
  intros [Hn Hg Hnn Hgg Hng] Hcs Hp Hfree.
  pose proof (vsize_nonneg (Ways a)) as Hw.
  constructor; intros; rewrite ?(node_alloc_Next a p) by auto;
    unfold row_ok, rows_apart; rewrite ?vsize_alloc_Next by auto;
    change (CodeSize (alloc_Next a p)) with (CodeSize a).
  - destruct (Z.eqb_spec i p); cbn; [lia|].
    generalize (Hn i); unfold row_ok; lia.
  - destruct (Z.eqb_spec i p) as [->|]; cbn;
      [generalize (Hg p)|generalize (Hg i)]; unfold row_ok; lia.
  - destruct (Z.eqb_spec i p) as [->|], (Z.eqb_spec j p) as [->|]; cbn.
    + congruence.
    + generalize (Hn j); unfold row_ok; lia.
    + generalize (Hn i); unfold row_ok; lia.
    + now apply Hnn.
  - destruct (Z.eqb_spec i p) as [->|], (Z.eqb_spec j p) as [->|]; cbn;
      now apply Hgg.
  - destruct (Z.eqb_spec i p) as [->|], (Z.eqb_spec j p) as [->|]; cbn.
    + generalize (Hg p); unfold row_ok; lia.
    + generalize (Hg j); unfold row_ok; lia.
    + apply Hng.
    + apply Hng.
Qed.

Lemma RowsInv_alloc_Go a p :
  RowsInv a -> 0 <= CodeSize a -> in_tree a p ->
  TNode.Go (node a p) = -1 ->
  RowsInv (alloc_Go a p).
Proof.
  intros [Hn Hg Hnn Hgg Hng] Hcs Hp Hfree.
  pose proof (vsize_nonneg (Ways a)) as Hw.
  constructor; intros; rewrite ?(node_alloc_Go a p) by auto;
    unfold row_ok, rows_apart; rewrite ?vsize_alloc_Go by auto;
    change (CodeSize (alloc_Go a p)) with (CodeSize a).
  - destruct (Z.eqb_spec i p) as [->|]; cbn;
      [generalize (Hn p)|generalize (Hn i)]; unfold row_ok; lia.
  - destruct (Z.eqb_spec i p); cbn; [lia|].
    generalize (Hg i); unfold row_ok; lia.
  - destruct (Z.eqb_spec i p) as [->|], (Z.eqb_spec j p) as [->|]; cbn;
      now apply Hnn.
  - destruct (Z.eqb_spec i p) as [->|], (Z.eqb_spec j p) as [->|]; cbn.
    + congruence.
    + generalize (Hg j); unfold row_ok; lia.
    + generalize (Hg i); unfold row_ok; lia.
    + now apply Hgg.
  - destruct (Z.eqb_spec i p) as [->|], (Z.eqb_spec j p) as [->|]; cbn.
    + generalize (Hn p); unfold row_ok; lia.
    + apply Hng.
    + generalize (Hn i); unfold row_ok; lia.
    + apply Hng.
Qed.

(** A write that changes neither the row fields nor the sizes. *)
Lemma RowsInv_same_rows a a' :
  RowsInv a ->
  CodeSize a' = CodeSize a -> vsize (Ways a') = vsize (Ways a) ->
  (forall i, TNode.Next (node a' i) = TNode.Next (node a i)) ->
  (forall i, TNode.Go (node a' i) = TNode.Go (node a i)) ->
  RowsInv a'.
Proof.
  intros [Hn Hg Hnn Hgg Hng] Hcs Hw HN HG.
  constructor; intros; unfold row_ok, rows_apart;
    rewrite ?HN, ?HG, Hcs, ?Hw.
  - apply Hn.
  - apply Hg.
  - now apply Hnn.
  - now apply Hgg.
  - apply Hng.
Qed.

Lemma edge_alloc_Next a p q k :
  in_tree a p -> TNode.Next (node a p) = -1 -> 0 <= k ->
  edge (alloc_Next a p) q k = edge a q k.
Proof.
  intros Hp Hn Hk. unfold edge.
  rewrite node_alloc_Next, !way_alloc_Next by auto.
  destruct (Z.eqb_spec q p) as [->|N]; auto.
  simpl. rewrite Hn. simpl.
  pose proof (vsize_nonneg (Ways a)).
  destruct (Z.eqb_spec (vsize (Ways a)) (-1)); [lia|].
  apply way_out; lia.
Qed.

Lemma gocell_alloc_Go a p q k :
  in_tree a p -> TNode.Go (node a p) = -1 -> 0 <= k ->
  gocell (alloc_Go a p) q k = gocell a q k.
Proof.
  intros Hp Hn Hk. unfold gocell.
  rewrite node_alloc_Go, !way_alloc_Go by auto.
  destruct (Z.eqb_spec q p) as [->|N]; auto.
  simpl. rewrite Hn. simpl.
  pose proof (vsize_nonneg (Ways a)).
  destruct (Z.eqb_spec (vsize (Ways a)) (-1)); [lia|].
  apply way_out; lia.
Qed.

Lemma edge_alloc_Go a p q k :
  in_tree a p -> edge (alloc_Go a p) q k = edge a q k.
Proof.
  intros Hp. unfold edge.
  rewrite node_alloc_Go, !way_alloc_Go by auto.
  destruct (Z.eqb_spec q p) as [->|N]; auto.
Qed.

(** Writing one cell of the [Go] row of node [i]. *)
Lemma gocell_set_way a i k x q k' :
  RowsInv a -> TNode.Go (node a i) <> -1 -> 0 <= k < CodeSize a ->
  0 <= k' < CodeSize a ->
  gocell (set_way a (TNode.Go (node a i) + k) x) q k' =
  if (q =? i) && (k' =? k) then x else gocell a q k'.
Proof.
  intros R Hg Hk Hk'. unfold gocell.
  change (node (set_way a (TNode.Go (node a i) + k) x)) with (node a).
  destruct (Z.eqb_spec q i) as [->|N]; simpl.
  - destruct (Z.eqb_spec (TNode.Go (node a i)) (-1)); [congruence|].
    destruct (Z.eqb_spec k' k) as [->|N'].
    + apply way_set_way_same. pose proof (ri_go a R i). rows_tac.
    + apply way_set_way_other; lia.
  - destruct (Z.eqb_spec (TNode.Go (node a q)) (-1)); auto.
    apply way_set_way_other. pose proof (ri_gg a R q i N). rows_tac.
Qed.

Lemma edge_set_way_go a i k x q k' :
  RowsInv a -> TNode.Go (node a i) <> -1 -> 0 <= k < CodeSize a ->
  0 <= k' < CodeSize a ->
  edge (set_way a (TNode.Go (node a i) + k) x) q k' = edge a q k'.
Proof.
  intros R Hg Hk Hk'. unfold edge.
  change (node (set_way a (TNode.Go (node a i) + k) x)) with (node a).
  destruct (Z.eqb_spec (TNode.Next (node a q)) (-1)); auto.
  apply way_set_way_other. pose proof (ri_ng a R q i). rows_tac.
Qed.

(** Writing one cell of the [Next] row of node [i]. *)
Lemma edge_set_way_next a i k x q k' :
  RowsInv a -> TNode.Next (node a i) <> -1 -> 0 <= k < CodeSize a ->
  0 <= k' < CodeSize a ->
  edge (set_way a (TNode.Next (node a i) + k) x) q k' =
  if (q =? i) && (k' =? k) then x else edge a q k'.
Proof.
  intros R Hg Hk Hk'. unfold edge.
  change (node (set_way a (TNode.Next (node a i) + k) x)) with (node a).
  destruct (Z.eqb_spec q i) as [->|N]; simpl.
  - destruct (Z.eqb_spec (TNode.Next (node a i)) (-1)); [congruence|].
    destruct (Z.eqb_spec k' k) as [->|N'].
    + apply way_set_way_same. pose proof (ri_next a R i). rows_tac.
    + apply way_set_way_other; lia.
  - destruct (Z.eqb_spec (TNode.Next (node a q)) (-1)); auto.
    apply way_set_way_other. pose proof (ri_nn a R q i N). rows_tac.
Qed.

Lemma vget_push {A : Type} (d : A) l x i :
  vget d (l ++ [x]) i = if i =? vsize l then x else vget d l i.
Proof.
  destruct (Z.eqb_spec i (vsize l)) as [->|N].
  - apply vget_snoc.
  - destruct (Z.lt_ge_cases i (vsize l)).
    + now apply vget_app_l.
    + rewrite !vget_out; auto; try lia. rewrite vsize_app, vsize_cons, vsize_nil. lia.
Qed.

Lemma node_push a n i :
  node (push_node a n) i = if i =? vsize (Tree a) then n else node a i.
Proof.
  unfold node, push_node; simpl.
  rewrite vget_push. destruct (i =? vsize (Tree a)); auto.
Qed.

Lemma tree_push a n : vsize (Tree (push_node a n)) = vsize (Tree a) + 1.
Proof.
  unfold push_node; simpl. rewrite vsize_app, vsize_cons, vsize_nil. lia.
Qed.

Lemma RowsInv_push a n :
  RowsInv a -> TNode.Next n = -1 -> TNode.Go n = -1 ->
  RowsInv (push_node a n).
Proof.
  intros [Hn Hg Hnn Hgg Hng] HN HG.
  constructor; intros; rewrite !node_push;
    unfold row_ok, rows_apart;
    change (CodeSize (push_node a n)) with (CodeSize a);
    change (Ways (push_node a n)) with (Ways a).
  - destruct (i =? vsize (Tree a)); [now left|apply Hn].
  - destruct (i =? vsize (Tree a)); [now left|apply Hg].
  - destruct (i =? vsize (Tree a)); [now left|].
    destruct (j =? vsize (Tree a)); [right; now left|now apply Hnn].
  - destruct (i =? vsize (Tree a)); [now left|].
    destruct (j =? vsize (Tree a)); [right; now left|now apply Hgg].
  - destruct (i =? vsize (Tree a)); [now left|].
    destruct (j =? vsize (Tree a)); [right; now left|now apply Hng].
Qed.

Lemma RowsInv_set_way a off x : RowsInv a -> RowsInv (set_way a off x).
Proof.
  intros R. apply (RowsInv_same_rows a); auto. apply ways_set_way.
Qed.

(** ** The literal edges spell the strings of the nodes *)

Lemma code_range a c :
  CodesOk (CodeSize a) (CodeMap a) -> 0 <= c < 256 -> code_of a c <> -1 ->
  0 <= code_of a c < CodeSize a.
Proof.
  intros C Hc Hn. destruct (co_range _ _ C c Hc); [contradiction|auto].
Qed.

Lemma edge_target a strs p c :
  CodesOk (CodeSize a) (CodeMap a) -> Shape a strs ->
  in_tree a p -> 0 <= c < 256 -> code_of a c <> -1 ->
  edge a p (code_of a c) <> -1 ->
  in_tree a (edge a p (code_of a c)) /\
  str strs (edge a p (code_of a c)) = str strs p ++ [c].
Proof.
  intros C S Hp Hc Hk He.
  pose proof (code_range a c C Hc Hk) as Hr.
  destruct (sh_edge a strs S p _ Hp Hr) as [E|(Hj & HP & HC)]; [contradiction|].
  split; [unfold in_tree; lia|].
  destruct (sh_parent a strs S _ Hj) as (_ & c' & Hc' & Hk' & _ & Hs & _).
  rewrite Hs, HP. f_equal. f_equal.
  apply (co_inj _ _ C); auto.
  - fold (code_of a c') (code_of a c). congruence.
  - fold (code_of a c'). congruence.
Qed.

Lemma edge_absent a strs p c :
  CodesOk (CodeSize a) (CodeMap a) -> Shape a strs ->
  in_tree a p -> 0 <= c < 256 -> code_of a c <> -1 ->
  edge a p (code_of a c) = -1 ->
  forall j, in_tree a j -> str strs j <> str strs p ++ [c].
Proof.
  intros C S Hp Hc Hk He j Hj Heq.
  assert (Hj0 : 0 < j < vsize (Tree a)).
  { destruct (Z.eq_dec j 0) as [->|]; [|unfold in_tree in Hj; lia].
    rewrite (sh_root a strs S) in Heq. now destruct (str strs p). }
  destruct (sh_parent a strs S _ Hj0) as (Hpar & c' & Hc' & Hk' & Hn' & Hs & Hedge).
  rewrite Hs in Heq. apply app_inj_tail in Heq as [Hq ->].
  apply (sh_inj a strs S) in Hq; auto; [|unfold in_tree; lia].
  rewrite Hq, <- Hk', He in Hedge. lia.
Qed.

Lemma Shape_same_trie a a' strs :
  same_trie a a' -> CodesOk (CodeSize a) (CodeMap a) ->
  Shape a strs -> Shape a' strs.
Proof.
  intros [Hcs Hcm Hn HP HC HD HE] C [S1 S2 S3 S4 S5 S6 S7].
  assert (Hin : forall i, in_tree a' i <-> in_tree a i)
    by (intros; unfold in_tree; rewrite Hn; tauto).
  constructor; rewrite ?Hn; auto.
  - intros i j Hi Hj. apply S4; now apply Hin.
  - intros j Hj. destruct (S5 j Hj) as (Hpar & c & Hc & Hk & Hne & Hs & He).
    rewrite HP, HC. split; auto. exists c. unfold code_of. rewrite Hcm.
    repeat (split; auto). rewrite HE; auto.
    rewrite <- Hk. apply code_range; auto. fold (code_of a c). congruence.
  - intros p k Hp Hk. rewrite Hcs in Hk. rewrite HE by auto.
    rewrite HP, HC. apply S6; auto. now apply Hin.
  - intros i Hi. rewrite HD. apply S7. now apply Hin.
Qed.

Lemma Content_same_trie words a a' strs :
  same_trie a a' ->
  (forall i, TNode.IsLeaf (node a' i) = TNode.IsLeaf (node a i)) ->
  Content words a strs -> Content words a' strs.
Proof.
  intros [Hcs Hcm Hn HP HC HD HE] HL [C1 C2 C3 C4 C5].
  assert (Hin : forall i, in_tree a' i <-> in_tree a i)
    by (intros; unfold in_tree; rewrite Hn; tauto).
  constructor.
  - intros i Hi; apply C1; now apply Hin.
  - intros u Hu; destruct (C2 u Hu) as (i & Hi & Hs); exists i; split; auto.
    now apply Hin.
  - intros i Hi. rewrite HL. apply C3. now apply Hin.
  - intros w c Hw Hc. unfold code_of; rewrite Hcm. now apply C4 with w.
  - intros c. unfold code_of; rewrite Hcm. apply C5.
Qed.

(** ** Reset, second loop: the trie *)

Lemma same_trie_alloc_Next a p :
  in_tree a p -> TNode.Next (node a p) = -1 ->
  same_trie a (alloc_Next a p).
Proof.
  intros Hp Hn. constructor; try reflexivity.
  - apply tree_alloc_Next.
  - intros i; rewrite node_alloc_Next by auto. now destruct (Z.eqb_spec i p) as [->|].
  - intros i; rewrite node_alloc_Next by auto. now destruct (Z.eqb_spec i p) as [->|].
  - intros i; rewrite node_alloc_Next by auto. now destruct (Z.eqb_spec i p) as [->|].
  - intros q k Hk. apply edge_alloc_Next; auto. lia.
Qed.

Lemma leaf_alloc_Next a p i :
  in_tree a p ->
  TNode.IsLeaf (node (alloc_Next a p) i) = TNode.IsLeaf (node a i).
Proof.
  intros Hp. rewrite node_alloc_Next by auto.
  now destruct (Z.eqb_spec i p) as [->|].
Qed.

Lemma Fresh_alloc_Next a p : in_tree a p -> Fresh a -> Fresh (alloc_Next a p).
Proof.
  intros Hp F i. rewrite node_alloc_Next by auto.
  destruct (Z.eqb_spec i p) as [->|]; simpl; apply F.
Qed.

Lemma BInv_alloc_Next a strs p :
  BInv a strs -> in_tree a p -> TNode.Next (node a p) = -1 ->
  BInv (alloc_Next a p) strs.
Proof.
  intros [C R S F] Hp Hn. constructor.
  - exact C.
  - apply RowsInv_alloc_Next; auto. apply (co_cs _ _ C).
  - apply (Shape_same_trie a); auto. now apply same_trie_alloc_Next.
  - now apply Fresh_alloc_Next.
Qed.

(** The first three lines of the loop body: node [cur] has its row. *)
Lemma insert_char_row a strs cur :
  BInv a strs -> in_tree a cur ->
  let a1 := if TNode.Next (node a cur) =? -1 then alloc_Next a cur else a in
  BInv a1 strs /\ same_trie a a1 /\ TNode.Next (node a1 cur) <> -1 /\
  (forall i, TNode.IsLeaf (node a1 i) = TNode.IsLeaf (node a i)).
Proof.
  intros B Hc. destruct (Z.eqb_spec (TNode.Next (node a cur)) (-1)) as [E|E];
    cbv zeta.
  - split; [now apply BInv_alloc_Next|]. split; [now apply same_trie_alloc_Next|].
    split; [|intros; now apply leaf_alloc_Next].
    rewrite node_alloc_Next, Z.eqb_refl by auto. simpl.
    pose proof (vsize_nonneg (Ways a)); lia.
  - split; auto. split; [constructor; auto|]. split; auto.
Qed.

Lemma str_push strs x i :
  str (strs ++ [x]) i = if i =? vsize strs then x else str strs i.
Proof. apply vget_push. Qed.

Lemma edge_push a n q k :
  TNode.Next n = -1 ->
  edge (push_node a n) q k = if q =? vsize (Tree a) then -1 else edge a q k.
Proof.
  intros Hn. unfold edge. rewrite node_push.
  destruct (q =? vsize (Tree a)); [now rewrite Hn|reflexivity].
Qed.

(** Lines 92-97: a new child of [cur] for the symbol [c]. *)
Lemma push_child a strs cur c :
  BInv a strs -> in_tree a cur -> 0 <= c < 256 -> code_of a c <> -1 ->
  TNode.Next (node a cur) <> -1 -> edge a cur (code_of a c) = -1 ->
  BInv (push_node
          (set_way a (TNode.Next (node a cur) + code_of a c) (vsize (Tree a)))
          (TNode.mk (-1) (-1) (-1) (code_of a c) cur (-1)
                    (vsize (str strs cur) + 1)))
       (strs ++ [str strs cur ++ [c]]).
Proof.
  intros [C R S F] Hcur Hc Hk Hnext Hedge.
  set (k := code_of a c) in *. set (n := vsize (Tree a)).
  set (off := TNode.Next (node a cur) + k).
  set (new := TNode.mk (-1) (-1) (-1) k cur (-1) (vsize (str strs cur) + 1)).
  set (a1 := set_way a off n). set (a2 := push_node a1 new).
  pose proof (code_range a c C Hc Hk) as Hkr. fold k in Hkr.
  pose proof (sh_size _ _ S) as Hsz. pose proof (sh_pos _ _ S) as Hpos.
  fold n in Hsz, Hpos.
  assert (Hnode : forall i, node a2 i = if i =? n then new else node a i)
    by (intros; unfold a2; rewrite node_push; reflexivity).
  assert (Hstr : forall i, str (strs ++ [str strs cur ++ [c]]) i =
                           if i =? n then str strs cur ++ [c] else str strs i)
    by (intros; rewrite str_push, Hsz; reflexivity).
  assert (He : forall q k', 0 <= k' < CodeSize a ->
             edge a2 q k' = if q =? n then -1
                            else if (q =? cur) && (k' =? k) then n
                            else edge a q k').
  { intros q k' Hk'. unfold a2. rewrite edge_push by reflexivity.
    change (vsize (Tree a1)) with n. destruct (q =? n); auto.
    apply edge_set_way_next; auto. }
  assert (Hcn : cur <> n) by (unfold in_tree in Hcur; fold n in Hcur; lia).
  assert (Hfresh : forall j, in_tree a j -> str strs j <> str strs cur ++ [c])
    by (apply edge_absent; auto).
  constructor.
  - exact C.
  - apply RowsInv_push; auto. now apply RowsInv_set_way.
  - constructor.
    + unfold a2. rewrite tree_push, vsize_app, vsize_cons, vsize_nil.
      change (vsize (Tree a1)) with n. lia.
    + unfold a2. rewrite tree_push. change (vsize (Tree a1)) with n. lia.
    + rewrite Hstr. destruct (Z.eqb_spec 0 n); [lia|]. apply (sh_root _ _ S).
    + intros i j Hi Hj. unfold in_tree, a2 in Hi, Hj. rewrite tree_push in Hi, Hj.
      change (vsize (Tree a1)) with n in Hi, Hj. rewrite !Hstr.
      destruct (Z.eqb_spec i n), (Z.eqb_spec j n); try lia.
      * intros E. symmetry in E. apply Hfresh in E; [tauto|unfold in_tree; fold n; lia].
      * intros E. apply Hfresh in E; [tauto|unfold in_tree; fold n; lia].
      * apply (sh_inj _ _ S); unfold in_tree; fold n; lia.
    + intros j Hj. unfold a2 in Hj. rewrite tree_push in Hj.
      change (vsize (Tree a1)) with n in Hj. rewrite Hnode.
      destruct (Z.eqb_spec j n) as [->|Hjn].
      * simpl. split; [unfold in_tree in Hcur; fold n in Hcur; lia|].
        exists c. split; auto. split; [reflexivity|]. split; [exact Hk|].
        rewrite !Hstr, Z.eqb_refl. destruct (Z.eqb_spec cur n); [lia|].
        split; auto. rewrite He by auto.
        destruct (Z.eqb_spec cur n); [lia|]. now rewrite !Z.eqb_refl.
      * assert (Hj' : 0 < j < vsize (Tree a)) by (fold n; lia).
        destruct (sh_parent _ _ S j Hj') as (Hpar & c' & Hc' & Hk' & Hne & Hs & Hed).
        split; auto. exists c'. split; auto. split; [exact Hk'|]. split; auto.
        rewrite !Hstr.
        destruct (Z.eqb_spec j n); [lia|].
        destruct (Z.eqb_spec (TNode.Parent (node a j)) n); [lia|].
        split; auto. rewrite He.
        2:{ rewrite <- Hk'. apply code_range; auto. congruence. }
        destruct (Z.eqb_spec (TNode.Parent (node a j)) n); [lia|].
        destruct (Z.eqb_spec (TNode.Parent (node a j)) cur) as [E1|]; auto.
        destruct (Z.eqb_spec (TNode.ParentCode (node a j)) k) as [E2|]; auto.
        simpl. rewrite E1, E2, Hedge in Hed. lia.
    + intros p k' Hp Hk'. unfold in_tree, a2 in Hp. rewrite tree_push in Hp.
      change (vsize (Tree a1)) with n in Hp.
      change (CodeSize a2) with (CodeSize a) in Hk'.
      rewrite He by auto. unfold a2 at 1. rewrite tree_push.
      change (vsize (Tree a1)) with n.
      destruct (Z.eqb_spec p n); [now left|].
      destruct (Z.eqb_spec p cur) as [->|]; simpl.
      * destruct (Z.eqb_spec k' k) as [->|].
        -- right. rewrite Hnode, Z.eqb_refl. simpl. repeat split; lia.
        -- destruct (sh_edge _ _ S cur k' Hcur Hk') as [E|(E1 & E2 & E3)];
             [now left|right].
           rewrite Hnode. destruct (Z.eqb_spec (edge a cur k') n); [fold n in E1; lia|].
           fold n in E1. repeat split; auto; lia.
      * assert (Hp' : in_tree a p) by (unfold in_tree; fold n; lia).
        destruct (sh_edge _ _ S p k' Hp' Hk') as [E|(E1 & E2 & E3)];
          [now left|right].
        rewrite Hnode. destruct (Z.eqb_spec (edge a p k') n); [fold n in E1; lia|].
        fold n in E1. repeat split; auto; lia.
    + intros i Hi. unfold in_tree, a2 in Hi. rewrite tree_push in Hi.
      change (vsize (Tree a1)) with n in Hi. rewrite Hnode, Hstr.
      destruct (Z.eqb_spec i n).
      * simpl. rewrite vsize_app, vsize_cons, vsize_nil. lia.
      * apply (sh_depth _ _ S). unfold in_tree; fold n; lia.
  - intros i. rewrite Hnode. destruct (i =? n); [split; reflexivity|apply F].
Qed.

Lemma insert_char_ok a strs cur c :
  BInv a strs -> in_tree a cur -> 0 <= c < 256 -> code_of a c <> -1 ->
  vsize (str strs cur) + 1 < 2 ^ 32 ->
  exists a' cur' strs',
    insert_char (a, cur, vsize (str strs cur)) c =
      Some (a', cur', vsize (str strs cur) + 1) /\
    BInv a' strs' /\ in_tree a' cur' /\
    str strs' cur' = str strs cur ++ [c] /\
    CodeSize a' = CodeSize a /\ CodeMap a' = CodeMap a /\
    (forall i, in_tree a i ->
       in_tree a' i /\ str strs' i = str strs i /\
       TNode.IsLeaf (node a' i) = TNode.IsLeaf (node a i)) /\
    (forall i, in_tree a' i ->
       in_tree a i \/ (i = cur' /\ TNode.IsLeaf (node a' i) = -1)).
Proof.
  intros B Hcur Hc Hk Hd.
  pose proof (vsize_nonneg (str strs cur)) as Hd0.
  unfold insert_char.
  rewrite (CodeMap_at_valid _ c (co_size _ _ (bi_codes _ _ B)) Hc).
  simpl bind. fold (code_of a c).
  destruct (insert_char_row a strs cur B Hcur) as (B1 & T1 & Hn1 & HL1).
  set (a1 := if TNode.Next (node a cur) =? -1 then alloc_Next a cur else a) in *.
  assert (Hcur1 : in_tree a1 cur)
    by (unfold in_tree; rewrite (st_n _ _ T1); exact Hcur).
  assert (Hk1 : code_of a1 c = code_of a c)
    by (unfold code_of; now rewrite (st_cm _ _ T1)).
  assert (Hway : way a1 (TNode.Next (node a1 cur) + code_of a c) =
                 edge a1 cur (code_of a1 c)).
  { unfold edge. rewrite Hk1.
    destruct (Z.eqb_spec (TNode.Next (node a1 cur)) (-1)); [contradiction|auto]. }
  rewrite (wrap32_small (vsize (str strs cur) + 1)) by lia.
  rewrite Hway.
  destruct (Z.eqb_spec (edge a1 cur (code_of a1 c)) (-1)) as [E|E].
  - pose proof (push_child a1 strs cur c B1 Hcur1 Hc) as P.
    rewrite Hk1 in P, E. specialize (P Hk Hn1 E).
    eexists _, _, _. split; [reflexivity|]. split; [exact P|].
    pose proof (sh_size _ _ (bi_shape _ _ B1)) as Hsz.
    assert (Hn : vsize (Tree a1) = vsize (Tree a)) by apply (st_n _ _ T1).
    split; [unfold in_tree; rewrite tree_push; simpl;
            pose proof (vsize_nonneg (Tree a1)); lia|].
    split; [rewrite str_push, Hsz, Z.eqb_refl; reflexivity|].
    split; [apply (st_cs _ _ T1)|]. split; [apply (st_cm _ _ T1)|]. split.
    + intros i Hi. unfold in_tree in *. rewrite tree_push. simpl.
      split; [lia|]. rewrite str_push, Hsz, node_push. simpl.
      destruct (Z.eqb_spec i (vsize (Tree a1))); [lia|].
      split; [reflexivity|]. apply HL1.
    + intros i Hi. unfold in_tree in *. rewrite tree_push in Hi. simpl in Hi.
      destruct (Z.eq_dec i (vsize (Tree a1))) as [->|N]; [right|left; lia].
      split; auto. rewrite node_push. simpl. now rewrite Z.eqb_refl.
  - destruct (edge_target a1 strs cur c (bi_codes _ _ B1) (bi_shape _ _ B1)
                Hcur1 Hc) as (Hin & Hs); [congruence|exact E|].
    exists a1, (edge a1 cur (code_of a1 c)), strs.
    split; [reflexivity|]. split; [exact B1|].
    split; [exact Hin|]. split; [exact Hs|].
    split; [apply (st_cs _ _ T1)|]. split; [apply (st_cm _ _ T1)|]. split.
    + intros i Hi. split; [unfold in_tree; rewrite (st_n _ _ T1); exact Hi|].
      split; [reflexivity|]. apply HL1.
    + intros i Hi. left. unfold in_tree in *. now rewrite <- (st_n _ _ T1).
Qed.

(** Lines 81-100: the inner loop, started at node [cur]. *)
Lemma insert_chars_ok rest : forall a strs cur,
  BInv a strs -> in_tree a cur -> valid_chars rest = true ->
  (forall c, In c rest -> code_of a c <> -1) ->
  vsize (str strs cur) + vsize rest < 2 ^ 32 ->
  exists a' cur' strs',
    foldM insert_char (a, cur, vsize (str strs cur)) rest =
      Some (a', cur', vsize (str strs cur) + vsize rest) /\
    BInv a' strs' /\ in_tree a' cur' /\
    str strs' cur' = str strs cur ++ rest /\
    CodeSize a' = CodeSize a /\ CodeMap a' = CodeMap a /\
    (forall i, in_tree a i ->
       in_tree a' i /\ str strs' i = str strs i /\
       TNode.IsLeaf (node a' i) = TNode.IsLeaf (node a i)) /\
    (forall i, in_tree a' i ->
       in_tree a i \/
       (TNode.IsLeaf (node a' i) = -1 /\
        exists r1 r2, r1 <> [] /\ rest = r1 ++ r2 /\
                      str strs' i = str strs cur ++ r1)) /\
    (forall r1 r2, rest = r1 ++ r2 ->
       exists i, in_tree a' i /\ str strs' i = str strs cur ++ r1).
Proof.
  induction rest as [|c rest IH]; intros a strs cur B Hcur Hv Hcodes Hlen.
  - exists a, cur, strs. rewrite vsize_nil, Z.add_0_r, app_nil_r.
    split; [reflexivity|]. do 5 (split; auto). split; [|split]; auto.
    intros r1 r2 E. symmetry in E. apply app_eq_nil in E as [-> _].
    exists cur. now rewrite app_nil_r.
  - apply valid_chars_Forall in Hv. inversion Hv as [|? ? Hc Hrest]; subst.
    apply valid_chars_Forall in Hrest. rewrite vsize_cons in Hlen.
    pose proof (vsize_nonneg rest) as Hr0.
    destruct (insert_char_ok a strs cur c B Hcur Hc)
      as (a1 & cur1 & strs1 & E1 & B1 & Hcur1 & Hs1 & Hcs1 & Hcm1 & Hold1 & Hnew1);
      [apply Hcodes; now left | lia |].
    assert (Hsz1 : vsize (str strs1 cur1) = vsize (str strs cur) + 1)
      by (rewrite Hs1, vsize_app, vsize_cons, vsize_nil; lia).
    destruct (IH a1 strs1 cur1 B1 Hcur1 Hrest)
      as (a2 & cur2 & strs2 & E2 & B2 & Hcur2 & Hs2 & Hcs2 & Hcm2 & Hold2 & Hnew2 & Hpre2).
    { intros c' Hc'. unfold code_of. rewrite Hcm1. apply Hcodes; now right. }
    { lia. }
    exists a2, cur2, strs2. rewrite foldM_cons, E1. simpl bind.
    rewrite Hsz1 in E2. rewrite E2, vsize_cons.
    split; [f_equal; f_equal; lia|]. split; [exact B2|]. split; [exact Hcur2|].
    split; [rewrite Hs2, Hs1, <- app_assoc; reflexivity|].
    split; [congruence|]. split; [congruence|]. split; [|split].
    + intros i Hi. destruct (Hold1 i Hi) as (Hi1 & Hst1 & Hl1).
      destruct (Hold2 i Hi1) as (Hi2 & Hst2 & Hl2).
      split; auto. split; congruence.
    + intros i Hi. destruct (Hnew2 i Hi) as [Hi1 | (Hl & r1 & r2 & Hr & -> & Hst)].
      * destruct (Hold2 i Hi1) as (_ & Hst2 & Hl2).
        destruct (Hnew1 i Hi1) as [Hi0 | [-> Hl1]]; [now left|right].
        split; [congruence|]. exists [c], rest. split; [discriminate|].
        split; [reflexivity|].
        congruence.
      * right. split; auto. exists (c :: r1), r2. split; [discriminate|].
        split; auto. rewrite Hst, Hs1, <- app_assoc. reflexivity.
    + intros r1 r2 E. destruct r1 as [|c' r1].
      * exists cur. destruct (Hold1 cur Hcur) as (Hi1 & Hst1 & _).
        destruct (Hold2 cur Hi1) as (Hi2 & Hst2 & _).
        split; auto. rewrite app_nil_r. congruence.
      * simpl in E. inversion E; subst.
        destruct (Hpre2 r1 r2 eq_refl) as (i & Hi & Hst).
        exists i. split; auto. rewrite Hst, Hs1, <- app_assoc. reflexivity.
Qed.

(** ** The leaf marks *)

Lemma leaf_from_cons k w ws u :
  leaf_from k (w :: ws) u =
  if 0 <=? leaf_from (k + 1) ws u then leaf_from (k + 1) ws u
  else if eqb_chars w u then k else -1.
Proof. reflexivity. Qed.

Lemma leaf_from_range ws u : forall k,
  0 <= k ->
  leaf_from k ws u = -1 \/ k <= leaf_from k ws u < k + vsize ws.
Proof.
  induction ws as [|w ws IH]; intros k Hk; [now left|].
  rewrite leaf_from_cons, vsize_cons. pose proof (vsize_nonneg ws).
  destruct (IH (k + 1)) as [E|E]; [lia| |].
  - rewrite E. simpl. destruct (eqb_chars w u); [right; lia|now left].
  - destruct (Z.leb_spec 0 (leaf_from (k + 1) ws u)); [right; lia|lia].
Qed.

Lemma leaf_from_snoc ws w u : forall k,
  0 <= k ->
  leaf_from k (ws ++ [w]) u =
  if eqb_chars w u then k + vsize ws else leaf_from k ws u.
Proof.
  induction ws as [|w' ws IH]; intros k Hk.
  - simpl. rewrite Z.add_0_r. now destruct (eqb_chars w u).
  - simpl app. rewrite !leaf_from_cons, IH, vsize_cons by lia.
    pose proof (vsize_nonneg ws).
    destruct (eqb_chars w u).
    + destruct (Z.leb_spec 0 (k + 1 + vsize ws)); lia.
    + reflexivity.
Qed.

Lemma leaf_from_hit ws u : forall k,
  0 <= k -> 0 <= leaf_from k ws u ->
  vget [] ws (leaf_from k ws u - k) = u.
Proof.
  induction ws as [|w ws IH]; intros k Hk; [simpl; lia|].
  rewrite leaf_from_cons.
  destruct (Z.leb_spec 0 (leaf_from (k + 1) ws u)) as [H|H].
  - intros _. destruct (leaf_from_range ws u (k + 1)) as [E|E]; try lia.
    specialize (IH (k + 1)). unfold vget in *.
    destruct (Z.ltb_spec (leaf_from (k + 1) ws u - k) 0); [lia|].
    destruct (Z.ltb_spec (leaf_from (k + 1) ws u - (k + 1)) 0); [lia|].
    replace (Z.to_nat (leaf_from (k + 1) ws u - k))
      with (S (Z.to_nat (leaf_from (k + 1) ws u - (k + 1)))) by lia.
    simpl. apply IH; lia.
  - destruct (eqb_chars w u) eqn:E; [|lia].
    intros _. rewrite Z.sub_diag. apply eqb_chars_eq in E. exact E.
Qed.

Lemma leaf_from_ge ws u : forall k j,
  0 <= k -> 0 <= j < vsize ws -> vget [] ws j = u ->
  k + j <= leaf_from k ws u.
Proof.
  induction ws as [|w ws IH]; intros k j Hk Hj Hu;
    [unfold vsize in Hj; simpl in Hj; lia|].
  rewrite leaf_from_cons. rewrite vsize_cons in Hj.
  destruct (Z.eq_dec j 0) as [->|N].
  - unfold vget in Hu; simpl in Hu. subst w. rewrite eqb_chars_refl.
    destruct (Z.leb_spec 0 (leaf_from (k + 1) ws u)); [|lia].
    destruct (leaf_from_range ws u (k + 1)); lia.
  - assert (Hu' : vget [] ws (j - 1) = u).
    { unfold vget in *. destruct (Z.ltb_spec j 0); [lia|].
      destruct (Z.ltb_spec (j - 1) 0); [lia|].
      replace (Z.to_nat j) with (S (Z.to_nat (j - 1))) in Hu by lia.
      exact Hu. }
    specialize (IH (k + 1) (j - 1) ltac:(lia) ltac:(lia) Hu').
    destruct (Z.leb_spec 0 (leaf_from (k + 1) ws u)); lia.
Qed.

Lemma leaf_index_range words u :
  leaf_index words u = -1 \/ 0 <= leaf_index words u < vsize words.
Proof. apply (leaf_from_range words u 0). lia. Qed.

Lemma leaf_index_pattern words u :
  0 <= leaf_index words u -> pattern words (leaf_index words u) = u.
Proof.
  intros H. pose proof (leaf_from_hit words u 0) as P.
  rewrite Z.sub_0_r in P. apply P; auto. lia.
Qed.

Lemma leaf_index_In words u : In u words <-> 0 <= leaf_index words u.
Proof.
  split.
  - intros H. destruct (In_vget [] words u H) as (j & Hj & Hu).
    pose proof (leaf_from_ge words u 0 j ltac:(lia) Hj Hu).
    unfold leaf_index. lia.
  - intros H. pose proof (leaf_index_pattern words u H) as P.
    rewrite <- P. apply vget_In.
    destruct (leaf_index_range words u); lia.
Qed.

Lemma leaf_index_snoc ws w u :
  leaf_index (ws ++ [w]) u =
  if eqb_chars w u then vsize ws else leaf_index ws u.
Proof. unfold leaf_index. rewrite leaf_from_snoc by lia. reflexivity. Qed.

Lemma in_trie_snoc ws w u :
  in_trie (ws ++ [w]) u = in_trie ws u || prefixb u w.
Proof.
  destruct u as [|x u]; [reflexivity|]. unfold in_trie.
  rewrite existsb_app. simpl. now rewrite orb_false_r.
Qed.

Lemma same_trie_set_IsLeaf a i x :
  in_tree a i -> same_trie a (set_node a i (TNode.with_IsLeaf (node a i) x)).
Proof.
  intros Hi. constructor; try reflexivity.
  - apply tree_set_node.
  - intros j; rewrite node_set_node by auto. now destruct (Z.eqb_spec j i) as [->|].
  - intros j; rewrite node_set_node by auto. now destruct (Z.eqb_spec j i) as [->|].
  - intros j; rewrite node_set_node by auto. now destruct (Z.eqb_spec j i) as [->|].
  - intros q k _. unfold edge. rewrite node_set_node by auto.
    now destruct (Z.eqb_spec q i) as [->|].
Qed.

Lemma BInv_set_IsLeaf a strs i x :
  BInv a strs -> in_tree a i ->
  BInv (set_node a i (TNode.with_IsLeaf (node a i) x)) strs.
Proof.
  intros [C R S F] Hi. constructor.
  - exact C.
  - apply (RowsInv_same_rows a); auto;
      intros j; rewrite node_set_node by auto;
      now destruct (Z.eqb_spec j i) as [->|].
  - apply (Shape_same_trie a); auto. now apply same_trie_set_IsLeaf.
  - intros j. rewrite node_set_node by auto.
    destruct (Z.eqb_spec j i) as [->|]; simpl; apply F.
Qed.

(** Lines 78-102: one pattern more. *)
Lemma insert_word_ok ws w a strs :
  Done ws a strs -> valid_text w = true ->
  (forall c, In c w -> code_of a c <> -1) ->
  vsize ws + 1 < 2 ^ 32 ->
  exists a' strs',
    insert_word (a, vsize ws) w = Some (a', vsize ws + 1) /\
    Done (ws ++ [w]) a' strs' /\
    CodeSize a' = CodeSize a /\ CodeMap a' = CodeMap a.
Proof.
  intros [B Hsound Hcomp Hleaf] Hv Hcodes Hn.
  apply valid_text_inv in Hv as [Hv Hlen].
  pose proof (sh_root _ _ (bi_shape _ _ B)) as Hroot.
  assert (H0 : in_tree a 0)
    by (pose proof (sh_pos _ _ (bi_shape _ _ B)); unfold in_tree; lia).
  destruct (insert_chars_ok w a strs 0 B H0 Hv Hcodes)
    as (a1 & cur & strs1 & E & B1 & Hcur & Hs & Hcs & Hcm & Hold & Hnew & Hpre).
  { rewrite Hroot, vsize_nil. lia. }
  rewrite Hroot in E, Hs, Hnew, Hpre. rewrite (@vsize_nil Z) in E.
  simpl app in Hs, Hnew, Hpre.
  set (a2 := set_node a1 cur (TNode.with_IsLeaf (node a1 cur) (vsize ws))).
  exists a2, strs1. unfold insert_word. rewrite E. simpl bind.
  pose proof (vsize_nonneg ws).
  rewrite wrap32_small by lia.
  split; [reflexivity|]. split; [|split; [exact Hcs|exact Hcm]].
  assert (Hin : forall i, in_tree a2 i <-> in_tree a1 i).
  { intros i. unfold in_tree, a2. rewrite tree_set_node. tauto. }
  constructor.
  - now apply BInv_set_IsLeaf.
  - intros i Hi. apply Hin in Hi. rewrite in_trie_snoc.
    destruct (Hnew i Hi) as [Hi0 | (_ & r1 & r2 & _ & -> & Hst)].
    + destruct (Hold i Hi0) as (_ & -> & _). now rewrite Hsound.
    + rewrite Hst. simpl.
      replace (prefixb r1 (r1 ++ r2)) with true; [apply orb_true_r|].
      symmetry. apply prefixb_spec. eauto.
  - intros u Hu. rewrite in_trie_snoc in Hu. apply orb_true_iff in Hu as [Hu|Hu].
    + destruct (Hcomp u Hu) as (i & Hi & Hst).
      destruct (Hold i Hi) as (Hi1 & Hst1 & _).
      exists i. split; [now apply Hin|congruence].
    + apply prefixb_spec in Hu as [r ->].
      destruct (Hpre u r eq_refl) as (i & Hi & Hst).
      exists i. split; [now apply Hin|exact Hst].
  - intros i Hi. apply Hin in Hi. rewrite leaf_index_snoc.
    unfold a2. rewrite node_set_node by auto.
    destruct (Z.eqb_spec i cur) as [->|N].
    + rewrite Hs, eqb_chars_refl. reflexivity.
    + destruct (eqb_chars w (str strs1 i)) eqn:Eq.
      * apply eqb_chars_eq in Eq. rewrite <- Hs in Eq.
        apply (sh_inj _ _ (bi_shape _ _ B1)) in Eq; auto. congruence.
      * destruct (Z.lt_ge_cases i (vsize (Tree a))) as [Hlt|Hge].
        -- assert (Hi0 : in_tree a i) by (unfold in_tree in *; lia).
           destruct (Hold i Hi0) as (_ & -> & ->). now apply Hleaf.
        -- destruct (Hnew i Hi) as [Hi0 | (Hl & _)];
             [unfold in_tree in Hi0; lia|].
           rewrite Hl. destruct (leaf_index_range ws (str strs1 i)) as [L|L]; auto.
           exfalso. assert (Hw : In (str strs1 i) ws) by (apply leaf_index_In; lia).
           destruct (Hcomp _ (in_trie_word _ _ Hw)) as (j & Hj & Hst).
           destruct (Hold j Hj) as (Hj1 & Hst1 & _).
           assert (j = i).
           { apply (sh_inj _ _ (bi_shape _ _ B1)); auto. congruence. }
           subst j. unfold in_tree in Hj. lia.
Qed.

Lemma insert_words_ok rest : forall ws a strs,
  Done ws a strs -> Forall (fun w => valid_text w = true) rest ->
  (forall w c, In w rest -> In c w -> code_of a c <> -1) ->
  vsize ws + vsize rest < 2 ^ 32 ->
  exists a' strs',
    foldM insert_word (a, vsize ws) rest = Some (a', vsize ws + vsize rest) /\
    Done (ws ++ rest) a' strs' /\
    CodeSize a' = CodeSize a /\ CodeMap a' = CodeMap a.
Proof.
  induction rest as [|w rest IH]; intros ws a strs D Hv Hcodes Hlen.
  - exists a, strs. rewrite vsize_nil, Z.add_0_r, app_nil_r. auto.
  - inversion Hv as [|? ? Hw Hrest]; subst. rewrite vsize_cons in Hlen.
    pose proof (vsize_nonneg rest). pose proof (vsize_nonneg ws).
    destruct (insert_word_ok ws w a strs D Hw)
      as (a1 & strs1 & E1 & D1 & Hcs1 & Hcm1).
    { intros c Hc. apply (Hcodes w); auto. now left. }
    { lia. }
    destruct (IH (ws ++ [w]) a1 strs1 D1 Hrest)
      as (a2 & strs2 & E2 & D2 & Hcs2 & Hcm2).
    { intros w' c Hw' Hc. unfold code_of. rewrite Hcm1.
      apply (Hcodes w'); auto. now right. }
    { rewrite vsize_app, vsize_cons, vsize_nil. lia. }
    exists a2, strs2. rewrite foldM_cons, E1. simpl bind.
    rewrite vsize_app, vsize_cons, vsize_nil in E2. simpl in E2.
    rewrite E2, vsize_cons, <- app_assoc in *.
    split; [f_equal; f_equal; lia|]. split; [exact D2|].
    split; congruence.
Qed.

Lemma Done_init cs cm :
  CodesOk cs cm -> Done [] (mkAC cs cm [TNode.default] []) [[]].
Proof.
  intros C.
  assert (Hnode : forall i, node (mkAC cs cm [TNode.default] []) i = TNode.default).
  { intros i. unfold node, vget; simpl. destruct (i <? 0); auto.
    destruct (Z.to_nat i) as [|[|n]]; reflexivity. }
  assert (Hstr : forall i, str [[]] i = []).
  { intros i. unfold str, vget; simpl. destruct (i <? 0); auto.
    destruct (Z.to_nat i) as [|[|n]]; reflexivity. }
  assert (Hedge : forall p k, edge (mkAC cs cm [TNode.default] []) p k = -1).
  { intros p k. unfold edge. now rewrite Hnode. }
  assert (Hin : forall i, in_tree (mkAC cs cm [TNode.default] []) i -> i = 0).
  { unfold in_tree; simpl. intros i. change (vsize [TNode.default]) with 1. lia. }
  constructor.
  - constructor.
    + exact C.
    + constructor; intros; rewrite !Hnode; unfold row_ok, rows_apart; simpl; lia.
    + constructor; try reflexivity.
      * intros i j Hi Hj _. apply Hin in Hi, Hj. congruence.
      * simpl. change (vsize [TNode.default]) with 1. intros; lia.
      * intros p k _ _. left. apply Hedge.
      * intros i _. now rewrite Hnode, Hstr.
    + intros i. now rewrite Hnode.
  - intros i _. now rewrite Hstr.
  - intros u Hu. destruct u; [|discriminate]. exists 0.
    split; [unfold in_tree; simpl; change (vsize [TNode.default]) with 1; lia|].
    reflexivity.
  - intros i _. now rewrite Hnode.
Qed.

Lemma Memo_Fresh words a strs : Fresh a -> Memo words a strs.
Proof.
  intros F. constructor.
  - intros i _. left. apply F.
  - intros i k c _ _ _ _. left. unfold gocell.
    destruct (F i) as [-> _]. reflexivity.
Qed.

(** [Reset] builds the trie of the patterns. *)
Lemma Reset_ok words :
  valid_words words = true ->
  exists a strs, Reset words = Some a /\ QInv words a strs /\ Fresh a.
Proof.
  intros Hv. pose proof Hv as Hv0.
  apply valid_words_inv in Hv as [Hws Hlen].
  assert (Hchars : Forall (fun w => valid_chars w = true) words).
  { rewrite Forall_forall in *. intros w Hw. apply Hws in Hw.
    now apply valid_text_inv in Hw as [? _]. }
  destruct (assign_codes_ok words 0 _ CodesOk_init Hchars)
    as (cs & cm & E1 & C & _ & Hall).
  assert (Hmap : forall c, vget (-1) cm c <> -1 ->
                   exists w, In w words /\ In c w).
  { intros c Hc.
    destruct (assign_codes_origin _ _ _ _ _ E1 Hchars c Hc) as [H|H]; auto.
    now rewrite vget_repeat in H. }
  destruct (insert_words_ok words [] _ _ (Done_init cs cm C) Hws)
    as (a & strs & E2 & [B Hsound Hcomp Hleaf] & Hcs & Hcm).
  { intros w c Hw Hc. unfold code_of; simpl. now apply (Hall w). }
  { change (vsize (@nil (list Z))) with 0. lia. }
  exists a, strs. unfold Reset. rewrite E1. simpl bind.
  change (vsize (@nil (list Z))) with 0 in E2. rewrite E2. simpl bind.
  split; [reflexivity|]. simpl in *.
  split; [|apply (bi_fresh _ _ B)].
  constructor; auto.
  - apply (bi_codes _ _ B).
  - apply (bi_rows _ _ B).
  - apply (bi_shape _ _ B).
  - constructor; auto.
    + intros w c Hw Hc. unfold code_of. rewrite Hcm. now apply (Hall w).
    + intros c. unfold code_of. rewrite Hcm. apply Hmap.
  - apply Memo_Fresh, (bi_fresh _ _ B).
Qed.

(** ** What the resolvers keep *)

Lemma extends_refl a : extends a a.
Proof. constructor; auto. Qed.

Lemma extends_trans a b c : extends a b -> extends b c -> extends a c.
Proof.
  intros [A1 A2 A3 A4 A5 A6 A7 A8 A9 A10] [B1 B2 B3 B4 B5 B6 B7 B8 B9 B10].
  constructor; try congruence.
  - intros p k Hk. rewrite B9, A9; auto. now rewrite A1.
  - intros i Hi. rewrite B10, A10; auto. rewrite A10; auto.
Qed.

Lemma extends_same_trie a a' : extends a a' -> same_trie a a'.
Proof.
  intros [A1 A2 A3 A4 A5 A6 A7 A8 A9 A10]. constructor; auto.
Qed.

Lemma extends_in_tree a a' i : extends a a' -> in_tree a' i <-> in_tree a i.
Proof. intros E. unfold in_tree. rewrite (ex_n _ _ E). tauto. Qed.

Lemma extends_code_of a a' c : extends a a' -> code_of a' c = code_of a c.
Proof. intros E. unfold code_of. now rewrite (ex_cm _ _ E). Qed.

(** The memo tables only matter through [SuffLink] and [gocell]. *)
Lemma Memo_same words a a' strs :
  extends a a' -> CodesOk (CodeSize a) (CodeMap a) ->
  (forall i, TNode.SuffLink (node a' i) = TNode.SuffLink (node a i)) ->
  (forall i k, 0 <= k < CodeSize a -> gocell a' i k = gocell a i k) ->
  Memo words a strs -> Memo words a' strs.
Proof.
  intros E C HL HG [M1 M2]. constructor.
  - intros i Hi. apply (extends_in_tree _ _ i E) in Hi. rewrite HL.
    destruct (M1 i Hi) as [H|[H1 H2]]; [now left|right].
    split; auto. now apply (extends_in_tree _ _ _ E).
  - intros i k c Hi Hc Hk Hn. apply (extends_in_tree _ _ i E) in Hi.
    rewrite (extends_code_of _ _ c E) in Hk.
    assert (Hr : 0 <= k < CodeSize a)
      by (subst k; apply code_range; auto).
    rewrite HG by auto.
    destruct (M2 i k c Hi Hc Hk Hn) as [H|[H1 H2]]; [now left|right].
    split; auto. now apply (extends_in_tree _ _ _ E).
Qed.

Lemma QInv_extends words a a' strs :
  QInv words a strs -> extends a a' -> RowsInv a' -> Memo words a' strs ->
  QInv words a' strs.
Proof.
  intros [W C R S Ct M] E R' M'. constructor; auto.
  - rewrite (ex_cs _ _ E), (ex_cm _ _ E). exact C.
  - apply (Shape_same_trie a); auto. now apply extends_same_trie.
  - apply (Content_same_trie words a); auto.
    + now apply extends_same_trie.
    + apply (ex_leaf _ _ E).
Qed.

Lemma extends_alloc_Go a p :
  in_tree a p -> TNode.Go (node a p) = -1 -> extends a (alloc_Go a p).
Proof.
  intros Hp Hg. constructor; try reflexivity.
  - apply tree_alloc_Go.
  - intros i; rewrite node_alloc_Go by auto. now destruct (Z.eqb_spec i p) as [->|].
  - intros i; rewrite node_alloc_Go by auto. now destruct (Z.eqb_spec i p) as [->|].
  - intros i; rewrite node_alloc_Go by auto. now destruct (Z.eqb_spec i p) as [->|].
  - intros i; rewrite node_alloc_Go by auto. now destruct (Z.eqb_spec i p) as [->|].
  - intros i; rewrite node_alloc_Go by auto. now destruct (Z.eqb_spec i p) as [->|].
  - intros q k _. now apply edge_alloc_Go.
  - intros i Hi. rewrite node_alloc_Go by auto.
    destruct (Z.eqb_spec i p) as [->|]; [contradiction|reflexivity].
Qed.

(** Lines 177-181: node [i] has its row of resolved transitions. *)
Lemma go_row words a strs i :
  QInv words a strs -> in_tree a i ->
  let a1 := if TNode.Go (node a i) =? -1 then alloc_Go a i else a in
  QInv words a1 strs /\ extends a a1 /\ TNode.Go (node a1 i) <> -1.
Proof.
  intros Q Hi. destruct (Z.eqb_spec (TNode.Go (node a i)) (-1)) as [E|E];
    cbv zeta.
  - pose proof (extends_alloc_Go a i Hi E) as X.
    split; [|split; [exact X|]].
    + apply (QInv_extends words a); auto.
      * apply RowsInv_alloc_Go; auto; [apply (qi_rows _ _ _ Q)|].
        apply (co_cs _ _ (qi_codes _ _ _ Q)).
      * apply (Memo_same words a); auto.
        -- apply (qi_codes _ _ _ Q).
        -- intros j; rewrite node_alloc_Go by auto.
           now destruct (Z.eqb_spec j i) as [->|].
        -- intros j k Hk. apply gocell_alloc_Go; auto. lia.
        -- apply (qi_memo _ _ _ Q).
    + rewrite node_alloc_Go, Z.eqb_refl by auto. simpl.
      pose proof (vsize_nonneg (Ways a)); lia.
  - split; auto. split; auto. apply extends_refl.
Qed.

(** Line 187 or 189: the resolved transition is written into its cell. *)
Lemma write_go words a strs i c r :
  QInv words a strs -> in_tree a i -> TNode.Go (node a i) <> -1 ->
  0 <= c < 256 -> code_of a c <> -1 ->
  in_tree a r -> str strs r = lsp words (str strs i ++ [c]) ->
  let a2 := set_way a (TNode.Go (node a i) + code_of a c) r in
  QInv words a2 strs /\ extends a a2 /\
  way a2 (TNode.Go (node a i) + code_of a c) = r.
Proof.
  intros Q Hi Hg Hc Hk Hr Hs a2.
  pose proof (qi_rows _ _ _ Q) as R. pose proof (qi_codes _ _ _ Q) as C.
  pose proof (code_range a c C Hc Hk) as Hkr.
  assert (X : extends a a2).
  { constructor; try reflexivity. intros q k' Hk'.
    now apply edge_set_way_go. }
  split; [|split; [exact X|]].
  - apply (QInv_extends words a); auto.
    + now apply RowsInv_set_way.
    + constructor.
      * intros j Hj. apply (me_link _ _ _ (qi_memo _ _ _ Q) j Hj).
      * intros j k' c' Hj Hc' Hk' Hn'.
        change (code_of a2 c') with (code_of a c') in Hk'.
        assert (Hkr' : 0 <= k' < CodeSize a)
          by (subst k'; apply code_range; auto).
        unfold a2. rewrite gocell_set_way by auto.
        destruct (Z.eqb_spec j i) as [->|]; simpl.
        -- destruct (Z.eqb_spec k' (code_of a c)) as [E|].
           ++ right. split; auto.
              assert (c' = c).
              { apply (co_inj _ _ C); auto.
                - fold (code_of a c') (code_of a c). congruence.
                - fold (code_of a c'). congruence. }
              subst c'. exact Hs.
           ++ apply (me_go _ _ _ (qi_memo _ _ _ Q)); auto.
        -- apply (me_go _ _ _ (qi_memo _ _ _ Q)); auto.
  - apply way_set_way_same. generalize (ri_go _ R i). unfold row_ok. lia.
Qed.

(** Line 163 or 165: the failure link is written into the node. *)
Lemma write_link words a strs v r :
  QInv words a strs -> in_tree a v -> in_tree a r ->
  str strs r = lsp words (tl (str strs v)) ->
  let a1 := set_node a v (TNode.with_SuffLink (node a v) r) in
  QInv words a1 strs /\ extends a a1 /\ TNode.SuffLink (node a1 v) = r.
Proof.
  intros Q Hv Hr Hs a1.
  assert (Hnode : forall j, node a1 j =
            if j =? v then TNode.with_SuffLink (node a v) r else node a j)
    by (intros; apply node_set_node; auto).
  assert (X : extends a a1).
  { constructor; try reflexivity.
    - apply tree_set_node.
    - intros j; rewrite Hnode. now destruct (Z.eqb_spec j v) as [->|].
    - intros j; rewrite Hnode. now destruct (Z.eqb_spec j v) as [->|].
    - intros j; rewrite Hnode. now destruct (Z.eqb_spec j v) as [->|].
    - intros j; rewrite Hnode. now destruct (Z.eqb_spec j v) as [->|].
    - intros j; rewrite Hnode. now destruct (Z.eqb_spec j v) as [->|].
    - intros q k _. unfold edge. rewrite Hnode.
      now destruct (Z.eqb_spec q v) as [->|].
    - intros j _; rewrite Hnode. now destruct (Z.eqb_spec j v) as [->|]. }
  split; [|split; [exact X|]].
  - apply (QInv_extends words a); auto.
    + apply (RowsInv_same_rows a); auto; [apply (qi_rows _ _ _ Q)| |].
      * apply (ex_next _ _ X).
      * intros j; rewrite Hnode. now destruct (Z.eqb_spec j v) as [->|].
    + constructor.
      * intros j Hj. apply (extends_in_tree _ _ _ X) in Hj. rewrite Hnode.
        destruct (Z.eqb_spec j v) as [->|]; simpl.
        -- right. split; auto. now apply (extends_in_tree _ _ _ X).
        -- destruct (me_link _ _ _ (qi_memo _ _ _ Q) j Hj) as [H|[H1 H2]];
             [now left|right; split; auto].
           now apply (extends_in_tree _ _ _ X).
      * intros j k c Hj Hc Hk Hn. apply (extends_in_tree _ _ _ X) in Hj.
        change (code_of a1 c) with (code_of a c) in Hk.
        assert (G : gocell a1 j k = gocell a j k).
        { unfold gocell. rewrite Hnode. now destruct (Z.eqb_spec j v) as [->|]. }
        rewrite G.
        destruct (me_go _ _ _ (qi_memo _ _ _ Q) j k c Hj Hc Hk Hn) as [H|[H1 H2]];
          [now left|right; split; auto].
        now apply (extends_in_tree _ _ _ X).
  - rewrite Hnode, Z.eqb_refl. reflexivity.
Qed.

(** ** The resolvers compute the failure function *)

Lemma str_nonroot a strs i :
  Shape a strs -> in_tree a i -> i <> 0 -> str strs i <> [].
Proof.
  intros S Hi N E. apply N. apply (sh_inj _ _ S); auto.
  - pose proof (sh_pos _ _ S). unfold in_tree. lia.
  - now rewrite (sh_root _ _ S).
Qed.

Lemma depth_le_index a strs :
  Shape a strs -> forall i, in_tree a i -> vsize (str strs i) <= i.
Proof.
  intros S i [Hi0 Hi]. revert Hi. pattern i. apply Zlt_0_ind; auto.
  clear i Hi0. intros i IH Hi0 Hi.
  destruct (Z.eq_dec i 0) as [->|N].
  - rewrite (sh_root _ _ S). reflexivity.
  - destruct (sh_parent _ _ S i) as (Hp & c & _ & _ & _ & Hs & _); [lia|].
    rewrite Hs, vsize_app, vsize_cons, vsize_nil.
    specialize (IH (TNode.Parent (node a i)) Hp). lia.
Qed.

Lemma no_edge_not_in_trie words a strs i c :
  QInv words a strs -> in_tree a i -> 0 <= c < 256 -> code_of a c <> -1 ->
  edge a i (code_of a c) = -1 ->
  in_trie words (str strs i ++ [c]) = false.
Proof.
  intros Q Hi Hc Hk He.
  destruct (in_trie words (str strs i ++ [c])) eqn:E; auto.
  destruct (ct_complete _ _ _ (qi_content _ _ _ Q) _ E) as (j & Hj & Hs).
  exfalso.
  apply (edge_absent a strs i c (qi_codes _ _ _ Q) (qi_shape _ _ _ Q)
           Hi Hc Hk He j Hj Hs).
Qed.

Lemma edge_test a i k :
  (TNode.Next (node a i) =? -1) || (way a (TNode.Next (node a i) + k) =? -1)
  = (edge a i k =? -1).
Proof.
  unfold edge. destruct (TNode.Next (node a i) =? -1); reflexivity.
Qed.

Lemma gocell_way a i k :
  TNode.Go (node a i) <> -1 ->
  way a (TNode.Go (node a i) + k) = gocell a i k.
Proof.
  intros H. unfold gocell.
  destruct (Z.eqb_spec (TNode.Go (node a i)) (-1)); [contradiction|reflexivity].
Qed.

Lemma edge_way a i k :
  edge a i k <> -1 -> way a (TNode.Next (node a i) + k) = edge a i k.
Proof.
  unfold edge. destruct (TNode.Next (node a i) =? -1); [congruence|reflexivity].
Qed.

Lemma SwitchStateCode_fuel_S f a code v :
  SwitchStateCode_fuel (S f) a code v =
  let i := TState.Idx v in
  let a1 := if TNode.Go (node a i) =? -1 then alloc_Go a i else a in
  let goOffset := TNode.Go (node a1 i) + code in
  let nextOffset := TNode.Next (node a1 i) + code in
  a2 <- (if way a1 goOffset =? -1 then
           if (TNode.Next (node a1 i) =? -1) || (way a1 nextOffset =? -1) then
             if TState.IsRoot v then Some (set_way a1 goOffset 0)
             else
               '(a', l) <- GetLink_fuel f a1 v ;;
               '(a'', r) <- SwitchStateCode_fuel f a' code l ;;
               Some (set_way a'' goOffset (TState.Idx r))
           else Some (set_way a1 goOffset (way a1 nextOffset))
         else Some a1) ;;
  let nextNode := way a2 goOffset in
  Some (a2, TState.mk nextNode (TNode.Depth (node a2 nextNode))
                      (TNode.IsLeaf (node a2 nextNode))).
Proof. reflexivity. Qed.

Lemma GetLink_fuel_S f a s :
  GetLink_fuel (S f) a s =
  let v := TState.Idx s in
  a1 <- (if TNode.SuffLink (node a v) =? -1 then
           if (v =? 0) || (TNode.Parent (node a v) =? 0) then
             Some (set_node a v (TNode.with_SuffLink (node a v) 0))
           else
             '(a', l) <- GetLink_fuel f a (TState.of_idx (TNode.Parent (node a v))) ;;
             '(a'', r) <- SwitchStateCode_fuel f a' (TNode.ParentCode (node a v)) l ;;
             Some (set_node a'' v (TNode.with_SuffLink (node a'' v) (TState.Idx r)))
         else Some a) ;;
  let n := node a1 v in
  Some (a1, TState.mk (TNode.SuffLink n) (TNode.Depth n)
                      (TNode.IsLeaf (node a1 (TNode.SuffLink n)))).
Proof. reflexivity. Qed.

Lemma resolvers_ok words strs fuel : forall a,
  QInv words a strs ->
  (forall v c, in_tree a (TState.Idx v) -> 0 <= c < 256 ->
     code_of a c <> -1 ->
     2 * vsize (str strs (TState.Idx v)) + 2 <= Z.of_nat fuel ->
     exists a' s',
       SwitchStateCode_fuel fuel a (code_of a c) v = Some (a', s') /\
       QInv words a' strs /\ extends a a' /\ in_tree a' (TState.Idx s') /\
       str strs (TState.Idx s') =
         lsp words (str strs (TState.Idx v) ++ [c]) /\
       TState.Depth s' = TNode.Depth (node a' (TState.Idx s')) /\
       TState.Leaf s' = TNode.IsLeaf (node a' (TState.Idx s'))) /\
  (forall s, in_tree a (TState.Idx s) ->
     2 * vsize (str strs (TState.Idx s)) + 1 <= Z.of_nat fuel ->
     exists a' l,
       GetLink_fuel fuel a s = Some (a', l) /\
       QInv words a' strs /\ extends a a' /\ in_tree a' (TState.Idx l) /\
       str strs (TState.Idx l) = lsp words (tl (str strs (TState.Idx s))) /\
       TState.Idx l = TNode.SuffLink (node a' (TState.Idx s)) /\
       TState.Depth l = TNode.Depth (node a' (TState.Idx s)) /\
       TState.Leaf l = TNode.IsLeaf (node a' (TState.Idx l))).
Proof.
  induction fuel as [|f IH]; intros a Q.
  { split.
    - intros v c _ _ _ H.
      pose proof (vsize_nonneg (str strs (TState.Idx v))). lia.
    - intros s _ H.
      pose proof (vsize_nonneg (str strs (TState.Idx s))). lia. }
  split.
  - (* SwitchStateCode *)
    intros v c Hv Hc Hk Hf. rewrite SwitchStateCode_fuel_S. cbv zeta.
    set (i := TState.Idx v) in *. set (k := code_of a c) in *.
    destruct (go_row words a strs i Q Hv) as (Q1 & X1 & Hg1).
    set (a1 := if TNode.Go (node a i) =? -1 then alloc_Go a i else a) in *.
    set (g := TNode.Go (node a1 i)) in *.
    assert (Hv1 : in_tree a1 i) by (now apply (extends_in_tree _ _ _ X1)).
    assert (Hk1 : code_of a1 c = k) by (now apply extends_code_of).
    assert (Hfin : forall a2 r,
      QInv words a2 strs -> extends a a2 -> way a2 (g + k) = r ->
      in_tree a2 r -> str strs r = lsp words (str strs i ++ [c]) ->
      exists a' s',
        Some (a2, TState.mk (way a2 (g + k))
                    (TNode.Depth (node a2 (way a2 (g + k))))
                    (TNode.IsLeaf (node a2 (way a2 (g + k))))) = Some (a', s') /\
        QInv words a' strs /\ extends a a' /\ in_tree a' (TState.Idx s') /\
        str strs (TState.Idx s') = lsp words (str strs i ++ [c]) /\
        TState.Depth s' = TNode.Depth (node a' (TState.Idx s')) /\
        TState.Leaf s' = TNode.IsLeaf (node a' (TState.Idx s'))).
    { intros a2 r Q2 X2 Hw Hr Hs. rewrite Hw.
      eexists _, _. split; [reflexivity|]. simpl. auto 10. }
    assert (Hgw : way a1 (g + k) = gocell a1 i k)
      by (apply gocell_way; exact Hg1).
    rewrite Hgw, edge_test.
    destruct (Z.eqb_spec (gocell a1 i k) (-1)) as [Eg|Eg].
    + destruct (Z.eqb_spec (edge a1 i k) (-1)) as [Ee|Ee].
      * assert (Hnot : in_trie words (str strs i ++ [c]) = false).
        { apply (no_edge_not_in_trie words a1 strs i c); auto; congruence. }
        unfold TState.IsRoot. fold i.
        destruct (Z.eqb_spec i 0) as [E0|E0].
        -- (* the root loops on itself *)
           assert (H0 : in_tree a1 0) by (now rewrite <- E0).
           destruct (write_go words a1 strs i c 0 Q1 Hv1 Hg1 Hc) as (Q2 & X2 & Hw);
             [congruence|exact H0| |].
           { rewrite E0, (sh_root _ _ (qi_shape _ _ _ Q1)) in *.
             symmetry. now apply lsp_root_fail. }
           rewrite Hk1 in *. cbn [bind].
           apply (Hfin _ 0 Q2 (extends_trans _ _ _ X1 X2) Hw).
           ++ now apply (extends_in_tree _ _ _ X2).
           ++ rewrite E0, (sh_root _ _ (qi_shape _ _ _ Q1)) in *.
              symmetry. now apply lsp_root_fail.
        -- (* through the failure link *)
           pose proof (str_nonroot _ _ i (qi_shape _ _ _ Q1) Hv1 E0) as Hne.
           destruct (IH a1 Q1) as [_ IHL].
           destruct (IHL v Hv1) as (a' & l & EL & Q' & X' & Hl & Hsl & _);
             [fold i; lia|].
           fold i in Hsl.
           destruct (IH a' Q') as [IHS _].
           destruct (IHS l c Hl Hc) as (a'' & r & ES & Q'' & X'' & Hr & Hsr & _).
           { rewrite (extends_code_of _ _ c X'). congruence. }
           { rewrite Hsl. pose proof (lsp_tl_length words _ Hne). lia. }
           rewrite (extends_code_of _ _ c X'), Hk1 in ES.
           rewrite EL. cbn [bind]. rewrite ES. cbn [bind].
           assert (Xall : extends a1 a'') by (now apply (extends_trans _ a')).
           assert (Hg'' : TNode.Go (node a'' i) = g)
             by (apply (ex_go _ _ Xall); exact Hg1).
           assert (Hv'' : in_tree a'' i) by (now apply (extends_in_tree _ _ _ Xall)).
           assert (Hsr' : str strs (TState.Idx r) = lsp words (str strs i ++ [c])).
           { rewrite Hsr, Hsl. destruct (str strs i) as [|x u]; [congruence|].
             simpl tl. symmetry. now apply lsp_fail. }
           destruct (write_go words a'' strs i c (TState.Idx r) Q'' Hv'')
             as (Q2 & X2 & Hw); auto.
           { rewrite Hg''. exact Hg1. }
           { rewrite (extends_code_of _ _ c Xall). congruence. }
           rewrite Hg'', (extends_code_of _ _ c Xall), Hk1 in *.
           apply (Hfin _ (TState.Idx r) Q2
                    (extends_trans _ _ _ X1 (extends_trans _ _ _ Xall X2)) Hw).
           ++ now apply (extends_in_tree _ _ _ X2).
           ++ exact Hsr'.
      * (* a literal edge *)
        destruct (edge_target a1 strs i c (qi_codes _ _ _ Q1) (qi_shape _ _ _ Q1)
                    Hv1 Hc) as (He1 & He2); [congruence|congruence|].
        rewrite Hk1 in He1, He2.
        assert (Hs : str strs (edge a1 i k) = lsp words (str strs i ++ [c])).
        { rewrite He2. symmetry. apply lsp_fixed. rewrite <- He2.
          apply (ct_sound _ _ _ (qi_content _ _ _ Q1)); auto. }
        destruct (write_go words a1 strs i c (edge a1 i k) Q1 Hv1 Hg1 Hc)
          as (Q2 & X2 & Hw); auto; [congruence|].
        rewrite Hk1 in *. rewrite (edge_way a1 i k Ee). cbn [bind].
        apply (Hfin _ (edge a1 i k) Q2 (extends_trans _ _ _ X1 X2) Hw).
        -- now apply (extends_in_tree _ _ _ X2).
        -- exact Hs.
    + (* already resolved *)
      cbn [bind].
      destruct (me_go _ _ _ (qi_memo _ _ _ Q1) i k c Hv1 Hc Hk1) as [H|[H1 H2]];
        [congruence|contradiction|].
      apply (Hfin _ (gocell a1 i k) Q1 X1 Hgw H1 H2).
  - (* GetLink *)
    intros s Hv Hf. rewrite GetLink_fuel_S. cbv zeta.
    set (v := TState.Idx s) in *.
    assert (Hfin : forall a1,
      QInv words a1 strs -> extends a a1 ->
      in_tree a1 (TNode.SuffLink (node a1 v)) ->
      str strs (TNode.SuffLink (node a1 v)) = lsp words (tl (str strs v)) ->
      exists a' l,
        Some (a1, TState.mk (TNode.SuffLink (node a1 v))
                    (TNode.Depth (node a1 v))
                    (TNode.IsLeaf (node a1 (TNode.SuffLink (node a1 v)))))
          = Some (a', l) /\
        QInv words a' strs /\ extends a a' /\ in_tree a' (TState.Idx l) /\
        str strs (TState.Idx l) = lsp words (tl (str strs v)) /\
        TState.Idx l = TNode.SuffLink (node a' v) /\
        TState.Depth l = TNode.Depth (node a' v) /\
        TState.Leaf l = TNode.IsLeaf (node a' (TState.Idx l))).
    { intros a1 Q1 X1 Hl Hs. eexists _, _. split; [reflexivity|].
      simpl. auto 10. }
    pose proof (qi_shape _ _ _ Q) as S.
    destruct (Z.eqb_spec (TNode.SuffLink (node a v)) (-1)) as [El|El].
    + destruct ((v =? 0) || (TNode.Parent (node a v) =? 0)) eqn:Eroot.
      * (* the root and its children *)
        assert (H0 : in_tree a 0)
          by (pose proof (sh_pos _ _ S); unfold in_tree; lia).
        assert (Hs0 : str strs 0 = lsp words (tl (str strs v))).
        { rewrite (sh_root _ _ S).
          apply orb_true_iff in Eroot as [E|E]; apply Z.eqb_eq in E.
          - rewrite E, (sh_root _ _ S). reflexivity.
          - destruct (Z.eq_dec v 0) as [E0|N0].
            + rewrite E0, (sh_root _ _ S). reflexivity.
            + destruct (sh_parent _ _ S v) as (_ & c & _ & _ & _ & Hs & _);
                [unfold in_tree in Hv; lia|].
              rewrite Hs, E, (sh_root _ _ S). reflexivity. }
        destruct (write_link words a strs v 0 Q Hv H0 Hs0) as (Q1 & X1 & Hw).
        cbn [bind]. apply (Hfin _ Q1 X1); rewrite Hw.
        -- now apply (extends_in_tree _ _ _ X1).
        -- exact Hs0.
      * (* deeper nodes *)
        apply orb_false_iff in Eroot as [E0 Ep].
        apply Z.eqb_neq in E0, Ep.
        destruct (sh_parent _ _ S v)
          as (Hp & c & Hc & Hk & Hkn & Hs & _); [unfold in_tree in Hv; lia|].
        set (p := TNode.Parent (node a v)) in *.
        assert (Hpin : in_tree a p) by (unfold in_tree in *; lia).
        pose proof (str_nonroot _ _ p S Hpin Ep) as Hne.
        assert (Hlen : vsize (str strs v) = vsize (str strs p) + 1)
          by (rewrite Hs, vsize_app, vsize_cons, vsize_nil; lia).
        destruct (IH a Q) as [_ IHL].
        destruct (IHL (TState.of_idx p) Hpin)
          as (a' & l & EL & Q' & X' & Hl & Hsl & _);
          [unfold TState.of_idx; cbn [TState.Idx]; lia|].
        unfold TState.of_idx in Hsl, EL; cbn [TState.Idx] in Hsl.
        destruct (IH a' Q') as [IHS _].
        destruct (IHS l c Hl Hc) as (a'' & r & ES & Q'' & X'' & Hr & Hsr & _).
        { rewrite (extends_code_of _ _ c X'). congruence. }
        { rewrite Hsl. pose proof (lsp_tl_length words _ Hne). lia. }
        rewrite (extends_code_of _ _ c X'), Hk in ES.
        fold (TState.of_idx p) in EL.
        rewrite EL. cbn [bind]. rewrite ES. cbn [bind].
        assert (Xall : extends a a'') by (now apply (extends_trans _ a')).
        assert (Hv'' : in_tree a'' v) by (now apply (extends_in_tree _ _ _ Xall)).
        assert (Hsr' : str strs (TState.Idx r) = lsp words (tl (str strs v))).
        { rewrite Hsr, Hsl, Hs, <- lsp_snoc.
          destruct (str strs p); [congruence|reflexivity]. }
        destruct (write_link words a'' strs v (TState.Idx r) Q'' Hv'' Hr Hsr')
          as (Q1 & X1 & Hw).
        apply (Hfin _ Q1 (extends_trans _ _ _ Xall X1)); rewrite Hw.
        -- now apply (extends_in_tree _ _ _ X1).
        -- exact Hsr'.
    + (* already resolved *)
      cbn [bind].
      destruct (me_link _ _ _ (qi_memo _ _ _ Q) v Hv) as [H|[H1 H2]];
        [contradiction|].
      apply (Hfin _ Q (extends_refl a) H1 H2).
Qed.

(** ** More fuel changes nothing *)

Lemma fuel_mono f : forall a,
  (forall k v r, SwitchStateCode_fuel f a k v = Some r ->
     SwitchStateCode_fuel (S f) a k v = Some r) /\
  (forall s r, GetLink_fuel f a s = Some r ->
     GetLink_fuel (S f) a s = Some r).
Proof.
  induction f as [|f IH]; intros a; [split; intros; discriminate|].
  split.
  - intros k v r. rewrite (SwitchStateCode_fuel_S (S f)), SwitchStateCode_fuel_S.
    cbv zeta.
    set (a1 := if TNode.Go (node a (TState.Idx v)) =? -1
               then alloc_Go a (TState.Idx v) else a).
    destruct (way a1 (TNode.Go (node a1 (TState.Idx v)) + k) =? -1); auto.
    destruct ((TNode.Next (node a1 (TState.Idx v)) =? -1)
              || (way a1 (TNode.Next (node a1 (TState.Idx v)) + k) =? -1)); auto.
    destruct (TState.IsRoot v); auto.
    destruct (GetLink_fuel f a1 v) as [[a' l]|] eqn:EL; [|discriminate].
    rewrite (proj2 (IH a1) _ _ EL). cbn [bind].
    destruct (SwitchStateCode_fuel f a' k l) as [[a'' r']|] eqn:ES;
      [|discriminate].
    rewrite (proj1 (IH a') _ _ _ ES). auto.
  - intros s r. rewrite (GetLink_fuel_S (S f)), GetLink_fuel_S. cbv zeta.
    destruct (TNode.SuffLink (node a (TState.Idx s)) =? -1); auto.
    destruct ((TState.Idx s =? 0)
              || (TNode.Parent (node a (TState.Idx s)) =? 0)); auto.
    destruct (GetLink_fuel f a
                (TState.of_idx (TNode.Parent (node a (TState.Idx s)))))
      as [[a' l]|] eqn:EL; [|discriminate].
    rewrite (proj2 (IH a) _ _ EL). cbn [bind].
    destruct (SwitchStateCode_fuel f a'
                (TNode.ParentCode (node a (TState.Idx s))) l)
      as [[a'' r']|] eqn:ES; [|discriminate].
    rewrite (proj1 (IH a') _ _ _ ES). auto.
Qed.

Lemma SwitchStateCode_fuel_more f f' a k v r :
  (f <= f')%nat -> SwitchStateCode_fuel f a k v = Some r ->
  SwitchStateCode_fuel f' a k v = Some r.
Proof.
  induction 1 as [|m Hle IH]; auto. intros E. apply fuel_mono. auto.
Qed.

Lemma GetLink_fuel_more f f' a s r :
  (f <= f')%nat -> GetLink_fuel f a s = Some r ->
  GetLink_fuel f' a s = Some r.
Proof.
  induction 1 as [|m Hle IH]; auto. intros E. apply fuel_mono. auto.
Qed.

Lemma resolver_fuel_enough a strs i :
  Shape a strs -> in_tree a i ->
  2 * vsize (str strs i) + 2 <= Z.of_nat (resolver_fuel a).
Proof.
  intros S Hi. pose proof (depth_le_index a strs S i Hi).
  unfold resolver_fuel, in_tree, vsize in *. lia.
Qed.

(** ** The query surface *)

Lemma at_string_default words strs a :
  Shape a strs -> at_string words strs a TState.default [].
Proof.
  intros S. unfold at_string; simpl.
  split; [pose proof (sh_pos _ _ S); unfold in_tree; lia|].
  split; [apply (sh_root _ _ S)|]. split; [reflexivity|]. right; auto.
Qed.

Lemma SwitchState_ok words a strs v c :
  QInv words a strs -> in_tree a (TState.Idx v) -> 0 <= c < 256 ->
  exists a' s',
    SwitchState a c v = Some (a', s') /\
    QInv words a' strs /\ extends a a' /\
    at_string words strs a' s' (lsp words (str strs (TState.Idx v) ++ [c])).
Proof.
  intros Q Hv Hc. unfold SwitchState.
  rewrite (CodeMap_at_valid _ c (co_size _ _ (qi_codes _ _ _ Q)) Hc).
  cbn [bind]. fold (code_of a c).
  destruct (Z.eqb_spec (code_of a c) (-1)) as [E|E].
  - exists a, TState.default. split; [reflexivity|]. split; [exact Q|].
    split; [apply extends_refl|].
    rewrite lsp_unmapped.
    + apply at_string_default, (qi_shape _ _ _ Q).
    + intros w Hw Hin. apply (ct_codes _ _ _ (qi_content _ _ _ Q) w c Hw Hin E).
  - destruct (resolvers_ok words strs (resolver_fuel a) a Q) as [HS _].
    destruct (HS v c Hv Hc E) as (a' & s' & ES & Q' & X & Hin & Hs & Hd & Hl).
    { apply resolver_fuel_enough; auto. apply (qi_shape _ _ _ Q). }
    exists a', s'. split; [exact ES|]. split; [exact Q'|]. split; [exact X|].
    split; [exact Hin|]. split; [exact Hs|]. split.
    + rewrite Hd, <- Hs. apply (sh_depth _ _ (qi_shape _ _ _ Q')); auto.
    + left. rewrite Hl, <- Hs. apply (ct_leaf _ _ _ (qi_content _ _ _ Q')); auto.
Qed.

Lemma GetLink_ok words a strs s :
  QInv words a strs -> in_tree a (TState.Idx s) ->
  exists a' l,
    GetLink a s = Some (a', l) /\
    QInv words a' strs /\ extends a a' /\ in_tree a' (TState.Idx l) /\
    str strs (TState.Idx l) = lsp words (tl (str strs (TState.Idx s))) /\
    TState.Idx l = TNode.SuffLink (node a' (TState.Idx s)) /\
    TState.Depth l = TNode.Depth (node a' (TState.Idx s)) /\
    TState.Leaf l = TNode.IsLeaf (node a' (TState.Idx l)).
Proof.
  intros Q Hv.
  destruct (resolvers_ok words strs (resolver_fuel a) a Q) as [_ HL].
  apply HL; auto.
  pose proof (resolver_fuel_enough a strs _ (qi_shape _ _ _ Q) Hv). lia.
Qed.

Lemma SwitchStateCode_ok words a strs v c :
  QInv words a strs -> in_tree a (TState.Idx v) -> 0 <= c < 256 ->
  code_of a c <> -1 ->
  exists a' s',
    SwitchStateCode a (code_of a c) v = Some (a', s') /\
    QInv words a' strs /\ extends a a' /\ in_tree a' (TState.Idx s') /\
    str strs (TState.Idx s') = lsp words (str strs (TState.Idx v) ++ [c]) /\
    TState.Depth s' = TNode.Depth (node a' (TState.Idx s')) /\
    TState.Leaf s' = TNode.IsLeaf (node a' (TState.Idx s')).
Proof.
  intros Q Hv Hc Hk.
  destruct (resolvers_ok words strs (resolver_fuel a) a Q) as [HS _].
  apply HS; auto. apply resolver_fuel_enough; auto. apply (qi_shape _ _ _ Q).
Qed.

(** Every automaton reached from [Reset] satisfies the invariant. *)
Lemma built_QInv words a :
  valid_words words = true -> built words a ->
  exists strs, QInv words a strs.
Proof.
  intros Hw B. induction B as [a E | a c v a' s B [strs Q] Hc Hv E
                              | a v a' l B [strs Q] Hv E].
  - destruct (Reset_ok words Hw) as (a0 & strs & E0 & Q & _).
    exists strs. congruence.
  - apply valid_char_range in Hc.
    destruct (SwitchState_ok words a strs v c Q Hv Hc) as (a1 & s1 & E1 & Q1 & _).
    exists strs. congruence.
  - destruct (GetLink_ok words a strs v Q Hv) as (a1 & l1 & E1 & Q1 & _).
    exists strs. congruence.
Qed.

Lemma in_trie_length words u :
  valid_words words = true -> in_trie words u = true -> vsize u < 2 ^ 32.
Proof.
  intros Hw Hu. apply valid_words_inv in Hw as [Hw _].
  apply in_trie_spec in Hu as [->|(w & r & Hin & ->)]; [reflexivity|].
  rewrite Forall_forall in Hw. apply Hw in Hin.
  apply valid_text_inv in Hin as [_ Hlen].
  rewrite vsize_app in Hlen. pose proof (vsize_nonneg r). lia.
Qed.

Lemma at_string_in_trie words strs a s u :
  QInv words a strs -> at_string words strs a s u -> in_trie words u = true.
Proof.
  intros Q (Hin & Hs & _). rewrite <- Hs.
  apply (ct_sound _ _ _ (qi_content _ _ _ Q)); auto.
Qed.

Lemma lsp_full_length words w :
  vsize (lsp words w) = vsize w -> lsp words w = w.
Proof.
  intros H. destruct (lsp_suffix words w) as [l Hl].
  rewrite Hl in H at 2. rewrite vsize_app in H.
  destruct l as [|x l]; [now rewrite Hl at 2|].
  rewrite vsize_cons in H. pose proof (vsize_nonneg l). lia.
Qed.

(** One round of the loop of [HasString] and [HasPrefix]. *)
Lemma IsNextTo_literal words strs a a1 s s1 u c :
  valid_words words = true -> in_trie words u = true ->
  at_string words strs a s u ->
  at_string words strs a1 s1 (lsp words (u ++ [c])) ->
  TState.IsNextTo s1 s = in_trie words (u ++ [c]).
Proof.
  intros Hw Hu (_ & _ & Hd & _) (_ & _ & Hd1 & _).
  pose proof (in_trie_length words u Hw Hu) as Hlen.
  pose proof (vsize_nonneg u) as H0.
  unfold TState.IsNextTo. rewrite Hd, Hd1, wrap64_small by lia.
  destruct (in_trie words (u ++ [c])) eqn:E.
  - rewrite lsp_fixed by auto. rewrite vsize_app, vsize_cons, vsize_nil.
    apply Z.eqb_eq. lia.
  - apply Z.eqb_neq. intros H.
    assert (H' : vsize (lsp words (u ++ [c])) = vsize (u ++ [c]))
      by (rewrite vsize_app, vsize_cons, vsize_nil; lia).
    apply lsp_full_length in H'. pose proof (lsp_in_trie words (u ++ [c])).
    congruence.
Qed.

Lemma walk_ok words strs t : forall a s u,
  QInv words a strs -> at_string words strs a s u ->
  valid_chars t = true ->
  exists a' r,
    walk a s t = Some (a', r) /\ QInv words a' strs /\ extends a a' /\
    (if in_trie words (u ++ t)
     then exists s', r = inl s' /\ at_string words strs a' s' (u ++ t) /\
                     (t = [] -> s' = s)
     else r = inr tt).
Proof.
  induction t as [|c t IH]; intros a s u Q Hs Hv.
  - exists a, (inl s). split; [reflexivity|]. split; [exact Q|].
    split; [apply extends_refl|]. rewrite app_nil_r.
    rewrite (at_string_in_trie _ _ _ _ _ Q Hs). eauto.
  - apply valid_chars_Forall in Hv. inversion Hv as [|? ? Hc Ht]; subst.
    apply valid_chars_Forall in Ht.
    pose proof (at_string_in_trie _ _ _ _ _ Q Hs) as Hu.
    destruct (SwitchState_ok words a strs s c Q (proj1 Hs) Hc)
      as (a1 & s1 & E1 & Q1 & X1 & Hs1).
    rewrite (proj1 (proj2 Hs)) in Hs1.
    pose proof (IsNextTo_literal words strs a a1 s s1 u c
                  (qi_words _ _ _ Q) Hu Hs Hs1) as Hnext.
    cbn [walk]. rewrite E1. cbn [bind]. rewrite Hnext.
    destruct (in_trie words (u ++ [c])) eqn:E; cbn [negb].
    + rewrite lsp_fixed in Hs1 by auto.
      destruct (IH a1 s1 (u ++ [c]) Q1 Hs1 Ht) as (a2 & r & E2 & Q2 & X2 & Hr).
      exists a2, r. split; [exact E2|]. split; [exact Q2|].
      split; [now apply (extends_trans _ a1)|].
      rewrite <- app_assoc in Hr. simpl app in Hr.
      destruct (in_trie words (u ++ c :: t)); auto.
      destruct Hr as (s' & -> & Hs' & _). exists s'.
      split; auto. split; auto. discriminate.
    + exists a1, (inr tt). split; [reflexivity|]. split; [exact Q1|].
      split; [exact X1|].
      destruct (in_trie words (u ++ c :: t)) eqn:E'; auto.
      change (c :: t) with ([c] ++ t) in E'. rewrite app_assoc in E'.
      apply in_trie_app_l in E'. congruence.
Qed.

Lemma HasPrefix_ok words a strs t :
  QInv words a strs -> valid_chars t = true ->
  exists a', HasPrefix a t = Some (a', in_trie words t) /\
             QInv words a' strs /\ extends a a'.
Proof.
  intros Q Hv.
  destruct (walk_ok words strs t a TState.default [] Q
              (at_string_default words strs a (qi_shape _ _ _ Q)) Hv)
    as (a' & r & E & Q' & X & Hr).
  exists a'. unfold HasPrefix. rewrite E. cbn [bind]. simpl app in Hr.
  destruct (in_trie words t).
  - destruct Hr as (s' & -> & _). auto.
  - subst r. auto.
Qed.

Lemma HasString_ok words a strs t :
  QInv words a strs -> valid_chars t = true ->
  exists a' b, HasString a t = Some (a', b) /\
               QInv words a' strs /\ extends a a' /\
               (b = true <-> t <> [] /\ In t words).
Proof.
  intros Q Hv.
  destruct (walk_ok words strs t a TState.default [] Q
              (at_string_default words strs a (qi_shape _ _ _ Q)) Hv)
    as (a' & r & E & Q' & X & Hr).
  unfold HasString. rewrite E. cbn [bind]. simpl app in Hr.
  destruct (in_trie words t) eqn:Et.
  - destruct Hr as (s' & -> & (_ & _ & _ & Hl) & Hnil).
    exists a', (TState.IsLeaf s'). split; [reflexivity|].
    split; [exact Q'|]. split; [exact X|].
    unfold TState.IsLeaf. rewrite Z.leb_le.
    destruct t as [|c t].
    + rewrite (Hnil eq_refl). simpl. split; [lia|intros [H _]; congruence].
    + destruct Hl as [Hl|[_ Hl]]; [|discriminate]. rewrite Hl.
      rewrite <- leaf_index_In. split; [split; [discriminate|auto]|tauto].
  - subst r. exists a', false. split; [reflexivity|].
    split; [exact Q'|]. split; [exact X|].
    split; [discriminate|]. intros [_ Hin].
    apply in_trie_word in Hin. congruence.
Qed.

(** ** SearchIn *)

Lemma search_model_cons words done c rest :
  search_model words done (c :: rest) =
  (if 0 <=? leaf_index words (lsp words (done ++ [c]))
   then [(vsize (done ++ [c]), leaf_index words (lsp words (done ++ [c])))]
   else []) ++ search_model words (done ++ [c]) rest.
Proof. reflexivity. Qed.

Lemma SearchIn_loop_cons a state i c s res :
  SearchIn_loop a state i (c :: s) res =
  '(a', state') <- SwitchState a c state ;;
  SearchIn_loop a' state' (wrap32 (i + 1)) s
    (if TState.IsLeaf state'
     then res ++ [(wrap32 (i + 1), TState.GetWordIdx state')]
     else res).
Proof. reflexivity. Qed.

Lemma SearchIn_loop_ok words strs rest : forall a s done res,
  QInv words a strs -> at_string words strs a s (lsp words done) ->
  valid_chars rest = true -> vsize done + vsize rest < 2 ^ 32 ->
  exists a' out,
    SearchIn_loop a s (vsize done) rest res = Some (a', res ++ out) /\
    QInv words a' strs /\ extends a a' /\
    (forall x, In x out -> In x (search_model words done rest)) /\
    (leaf_index words [] = -1 -> out = search_model words done rest).
Proof.
  induction rest as [|c rest IH]; intros a s done res Q Hs Hv Hlen.
  - exists a, []. rewrite app_nil_r. split; [reflexivity|].
    split; [exact Q|]. split; [apply extends_refl|]. split; auto.
  - apply valid_chars_Forall in Hv. inversion Hv as [|? ? Hc Hrest]; subst.
    apply valid_chars_Forall in Hrest. rewrite vsize_cons in Hlen.
    pose proof (vsize_nonneg rest) as Hr0. pose proof (vsize_nonneg done) as Hd0.
    destruct (SwitchState_ok words a strs s c Q (proj1 Hs) Hc)
      as (a1 & s1 & E1 & Q1 & X1 & Hs1).
    rewrite (proj1 (proj2 Hs)), <- lsp_snoc in Hs1.
    assert (Hpos : wrap32 (vsize done + 1) = vsize (done ++ [c]))
      by (rewrite wrap32_small, vsize_app, vsize_cons, vsize_nil; lia).
    rewrite SearchIn_loop_cons, E1. cbn [bind]. rewrite Hpos.
    set (u1 := lsp words (done ++ [c])) in *.
    set (emit := if TState.IsLeaf s1
                 then [(vsize (done ++ [c]), TState.GetWordIdx s1)] else []).
    assert (Hres : (if TState.IsLeaf s1
                    then res ++ [(vsize (done ++ [c]), TState.GetWordIdx s1)]
                    else res) = res ++ emit).
    { unfold emit. destruct (TState.IsLeaf s1); [reflexivity|].
      now rewrite app_nil_r. }
    rewrite Hres.
    destruct (IH a1 s1 (done ++ [c]) (res ++ emit) Q1 Hs1 Hrest)
      as (a2 & out & E2 & Q2 & X2 & Hsub & Heq).
    { rewrite vsize_app, vsize_cons, vsize_nil. lia. }
    exists a2, (emit ++ out). rewrite E2, <- app_assoc.
    split; [reflexivity|]. split; [exact Q2|].
    split; [now apply (extends_trans _ a1)|].
    rewrite search_model_cons. fold u1.
    assert (Hemit : (TState.Leaf s1 = leaf_index words u1 /\
                     emit = if 0 <=? leaf_index words u1
                            then [(vsize (done ++ [c]), leaf_index words u1)]
                            else []) \/
                    (emit = [] /\ u1 = [])).
    { destruct Hs1 as (_ & _ & _ & [Hl|[Hl Hu]]).
      - left. split; auto. unfold emit, TState.IsLeaf, TState.GetWordIdx.
        now rewrite Hl.
      - right. split; auto. unfold emit, TState.IsLeaf. now rewrite Hl. }
    split.
    + intros x Hx. apply in_app_or in Hx as [Hx|Hx];
        apply in_or_app; [|right; auto].
      destruct Hemit as [[_ He]|[He _]]; [left; now rewrite <- He|].
      rewrite He in Hx. destruct Hx.
    + intros Hnone. rewrite (Heq Hnone). f_equal.
      destruct Hemit as [[_ He]|[He Hu]]; [exact He|].
      rewrite He, Hu, Hnone. reflexivity.
Qed.

Lemma SearchIn_ok words a strs t res :
  QInv words a strs -> valid_text t = true ->
  exists a' out,
    SearchIn a t res = Some (a', res ++ out) /\
    QInv words a' strs /\ extends a a' /\
    (forall x, In x out -> In x (search_model words [] t)) /\
    (leaf_index words [] = -1 -> out = search_model words [] t).
Proof.
  intros Q Hv. apply valid_text_inv in Hv as [Hv Hlen].
  unfold SearchIn. change 0 with (vsize (@nil Z)) at 1.
  apply (SearchIn_loop_ok words strs); auto.
  apply at_string_default, (qi_shape _ _ _ Q).
Qed.

(** *** What [search_model] lists *)

Lemma search_model_In words rest : forall done e k,
  In (e, k) (search_model words done rest) <->
  exists m : nat, (1 <= m <= length rest)%nat /\
    e = vsize done + Z.of_nat m /\
    k = leaf_index words (lsp words (done ++ firstn m rest)) /\ 0 <= k.
Proof.
  induction rest as [|c rest IH]; intros done e k.
  - simpl. split; [tauto|]. intros (m & Hm & _). lia.
  - rewrite search_model_cons, in_app_iff, IH. split.
    + intros [H|(m & Hm & He & Hk & Hk0)].
      * destruct (Z.leb_spec 0 (leaf_index words (lsp words (done ++ [c]))));
          [|destruct H].
        destruct H as [H|[]]. inversion H; subst.
        exists 1%nat. simpl. rewrite vsize_app, vsize_cons, vsize_nil.
        repeat split; auto; lia.
      * exists (S m). simpl length. simpl firstn.
        rewrite vsize_app, vsize_cons, vsize_nil in He.
        rewrite <- app_assoc in Hk. simpl app in Hk.
        repeat split; auto; lia.
    + intros (m & Hm & He & Hk & Hk0). destruct m as [|m]; [lia|].
      simpl in Hm. simpl firstn in Hk.
      destruct m as [|m].
      * left. simpl firstn in Hk. rewrite <- Hk.
        destruct (Z.leb_spec 0 k); [|lia]. left.
        rewrite vsize_app, vsize_cons, vsize_nil. f_equal. lia.
      * right. exists (S m). rewrite vsize_app, vsize_cons, vsize_nil.
        rewrite <- app_assoc. simpl app.
        repeat split; auto; lia.
Qed.

Lemma search_model_increasing words rest : forall done,
  increasing_ends (search_model words done rest).
Proof.
  unfold increasing_ends.
  induction rest as [|c rest IH]; intros done; [constructor|].
  rewrite search_model_cons.
  destruct (0 <=? leaf_index words (lsp words (done ++ [c]))); [|apply IH].
  simpl app. constructor; [apply IH|].
  apply Forall_forall. intros [e k] Hin.
  apply search_model_In in Hin as (m & Hm & -> & _). simpl. lia.
Qed.

Lemma increasing_ends_NoDup l : increasing_ends l -> NoDup l.
Proof.
  unfold increasing_ends. induction 1 as [|x l Hs IH Hall]; constructor; auto.
  intros Hin. rewrite Forall_forall in Hall. specialize (Hall x Hin). lia.
Qed.

Lemma vsize_firstn (t : list Z) (m : nat) :
  (m <= length t)%nat -> vsize (firstn m t) = Z.of_nat m.
Proof. intros H. unfold vsize. rewrite length_firstn. lia. Qed.

(** A suffix of the first [e] symbols is the substring that ends at [e]. *)
Lemma sub_ending_suffix (t l u : list Z) (m : nat) :
  (m <= length t)%nat -> firstn m t = l ++ u ->
  sub_ending t (Z.of_nat m) (vsize u) = u.
Proof.
  intros Hm H. unfold sub_ending.
  assert (Hlen : Z.of_nat m = vsize l + vsize u).
  { rewrite <- (vsize_firstn t m Hm), H. apply vsize_app. }
  rewrite <- (firstn_skipn m t) at 1. rewrite H.
  replace (Z.to_nat (Z.of_nat m - vsize u)) with (length l)
    by (unfold vsize in *; lia).
  rewrite <- app_assoc, skipn_app, skipn_all, Nat.sub_diag. simpl.
  replace (Z.to_nat (vsize u)) with (length u) by (unfold vsize; lia).
  rewrite firstn_app, firstn_all, Nat.sub_diag. simpl. apply app_nil_r.
Qed.

Lemma suffix_of_sub_ending (t : list Z) (e len : Z) :
  0 <= len <= e -> e <= vsize t ->
  firstn (Z.to_nat e) t = firstn (Z.to_nat (e - len)) t ++ sub_ending t e len.
Proof.
  intros Hl He. unfold sub_ending.
  rewrite <- (firstn_skipn (Z.to_nat (e - len)) (firstn (Z.to_nat e) t)) at 1.
  rewrite firstn_firstn. replace (Init.Nat.min (Z.to_nat (e - len)) (Z.to_nat e))
    with (Z.to_nat (e - len)) by lia.
  f_equal. rewrite skipn_firstn_comm. f_equal. lia.
Qed.

(** Every pair listed by [search_model] is an occurrence of its pattern. *)
Lemma search_model_sound words t e k :
  In (e, k) (search_model words [] t) -> occurs_at words t e k.
Proof.
  intros H. apply search_model_In in H as (m & Hm & -> & Hk & Hk0).
  simpl app in Hk. change (vsize (@nil Z)) with 0. rewrite Z.add_0_l.
  set (u := lsp words (firstn m t)) in *.
  assert (Hp : pattern words k = u)
    by (subst k; apply leaf_index_pattern; lia).
  destruct (lsp_suffix words (firstn m t)) as [l Hl]. fold u in Hl.
  assert (Hlen : Z.of_nat m = vsize l + vsize u).
  { rewrite <- (vsize_firstn t m) by lia. rewrite Hl at 1. apply vsize_app. }
  pose proof (vsize_nonneg l).
  unfold occurs_at. rewrite Hp. split; [unfold vsize; lia|]. split.
  - destruct (leaf_index_range words u); subst k; lia.
  - split; [lia|]. apply (sub_ending_suffix t l u m); [lia|exact Hl].
Qed.

(** An occurrence is listed when no longer string of the trie ends with it. *)
Lemma search_model_complete words t e k :
  occurs_at words t e k ->
  lsp words (firstn (Z.to_nat e) t) = pattern words k ->
  leaf_index words (pattern words k) = k ->
  In (e, k) (search_model words [] t).
Proof.
  intros (He & Hk & Hlen & Hsub) Hlsp Hleaf.
  apply search_model_In. exists (Z.to_nat e).
  unfold vsize in He. change (vsize (@nil Z)) with 0. simpl app.
  split; [lia|]. split; [lia|]. rewrite Hlsp, Hleaf. split; [reflexivity|lia].
Qed.

Lemma occurs_at_lsp words t e k :
  occurs_at words t e k -> pattern words k <> [] ->
  (forall w q, In w words -> In q words -> ~ occurs_inside w q) ->
  lsp words (firstn (Z.to_nat e) t) = pattern words k.
Proof.
  intros (He & Hk & Hlen & Hsub) Hne Hapart.
  set (u := pattern words k) in *.
  assert (Hu : In u words) by (apply vget_In; exact Hk).
  pose proof (suffix_of_sub_ending t e (vsize u)) as Hsuf.
  rewrite Hsub in Hsuf. pose proof (vsize_nonneg u).
  specialize (Hsuf ltac:(lia) ltac:(lia)).
  destruct (lsp_max words _ _ _ Hsuf (in_trie_word _ _ Hu)) as [l' Hl'].
  pose proof (lsp_in_trie words (firstn (Z.to_nat e) t)) as Ht.
  rewrite Hl' in Ht |- *.
  destruct l' as [|x l']; [reflexivity|exfalso].
  apply in_trie_spec in Ht as [Ht|(q & r & Hq & Heq)]; [discriminate|].
  apply (Hapart u q Hu Hq). exists (x :: l'), r. split; [discriminate|].
  rewrite Heq, <- app_assoc. reflexivity.
Qed.

Lemma vget_nth {A : Type} (d : A) l i :
  0 <= i -> vget d l i = nth (Z.to_nat i) l d.
Proof.
  intros H. unfold vget. destruct (Z.ltb_spec i 0); [lia|reflexivity].
Qed.

Lemma leaf_index_NoDup words k :
  NoDup words -> 0 <= k < vsize words ->
  leaf_index words (pattern words k) = k.
Proof.
  intros Hnd Hk. set (u := pattern words k).
  assert (Hu : In u words) by (apply vget_In; exact Hk).
  pose proof (proj1 (leaf_index_In words u) Hu) as H0.
  pose proof (leaf_index_pattern words u H0) as Hp.
  destruct (leaf_index_range words u) as [?|Hr]; [lia|].
  assert (E : nth (Z.to_nat (leaf_index words u)) words [] =
              nth (Z.to_nat k) words []).
  { rewrite <- !vget_nth by lia. exact Hp. }
  apply (proj1 (NoDup_nth words []) Hnd) in E; unfold vsize in *; lia.
Qed.

(** ** The strings of the nodes, read back from the tables *)

Lemma index_of_cons k x cm :
  index_of k (x :: cm) = if x =? k then 0 else 1 + index_of k cm.
Proof. reflexivity. Qed.

Lemma index_of_unique k cm : forall c,
  0 <= c < vsize cm -> vget (-1) cm c = k ->
  (forall c', 0 <= c' < vsize cm -> vget (-1) cm c' = k -> c' = c) ->
  index_of k cm = c.
Proof.
  induction cm as [|x cm IH]; intros c Hc Hk Hu.
  - unfold vsize in Hc; simpl in Hc; lia.
  - rewrite vsize_cons in Hc, Hu. pose proof (vsize_nonneg cm) as H0.
    rewrite index_of_cons. destruct (Z.eqb_spec x k) as [E|E].
    + apply Hu; [lia|]. exact E.
    + assert (Hc0 : c <> 0) by (intros ->; apply E; exact Hk).
      assert (Hshift : forall j, 0 < j ->
                vget (-1) (x :: cm) j = vget (-1) cm (j - 1)).
      { intros j Hj. rewrite !vget_nth by lia.
        replace (Z.to_nat j) with (S (Z.to_nat (j - 1))) by lia.
        reflexivity. }
      assert (IH' : index_of k cm = c - 1); [|lia].
      apply IH.
      * lia.
      * rewrite <- Hshift by lia. exact Hk.
      * intros c' Hc' Hk'. specialize (Hu (c' + 1)).
        rewrite Hshift in Hu by lia.
        replace (c' + 1 - 1) with c' in Hu by lia.
        specialize (Hu ltac:(lia) Hk'). lia.
Qed.

Lemma symbol_of_code a c :
  CodesOk (CodeSize a) (CodeMap a) -> 0 <= c < 256 -> code_of a c <> -1 ->
  symbol_of a (code_of a c) = c.
Proof.
  intros C Hc Hk. unfold symbol_of.
  apply index_of_unique; rewrite ?(co_size _ _ C); auto.
  intros c' Hc' Hk'. apply (co_inj _ _ C c' c Hc' Hc).
  - exact Hk'.
  - rewrite Hk'. exact Hk.
Qed.

Lemma spell_fuel_str a strs fuel : forall v,
  CodesOk (CodeSize a) (CodeMap a) -> Shape a strs ->
  in_tree a v -> v <= Z.of_nat fuel ->
  spell_fuel fuel a v = str strs v.
Proof.
  induction fuel as [|f IH]; intros v C S Hv Hf.
  - assert (v = 0) by (unfold in_tree in Hv; lia). subst v.
    now rewrite (sh_root _ _ S).
  - cbn [spell_fuel]. destruct (Z.leb_spec v 0) as [H0|H0].
    + assert (v = 0) by (unfold in_tree in Hv; lia). subst v.
      now rewrite (sh_root _ _ S).
    + destruct (sh_parent _ _ S v) as (Hp & c & Hc & Hk & Hn & Hs & _);
        [unfold in_tree in Hv; lia|].
      rewrite IH; auto; [|unfold in_tree in *; lia|lia].
      rewrite Hs, <- Hk, symbol_of_code; auto. congruence.
Qed.

Lemma spell_str words a strs v :
  QInv words a strs -> in_tree a v -> spell a v = str strs v.
Proof.
  intros Q Hv. apply spell_fuel_str; auto.
  - apply (qi_codes _ _ _ Q).
  - apply (qi_shape _ _ _ Q).
  - unfold in_tree, vsize in Hv. lia.
Qed.

Lemma in_trie_symbol words u c s :
  in_trie words (u ++ c :: s) = true -> exists w, In w words /\ In c w.
Proof.
  intros H. apply in_trie_spec in H as [H|(w & r & Hw & ->)].
  - now destruct u.
  - exists ((u ++ c :: s) ++ r). split; auto.
    rewrite <- app_assoc. apply in_or_app; right. now left.
Qed.

(** The literal edges lead exactly through the prefixes of the patterns. *)
Lemma follow_edges_in_trie words a strs s : forall p,
  QInv words a strs -> in_tree a p -> valid_chars s = true ->
  (exists j, follow_edges a p s = Some j) <->
  in_trie words (str strs p ++ s) = true.
Proof.
  induction s as [|c s IH]; intros p Q Hp Hv.
  - rewrite app_nil_r. split; [|intros _; exists p; reflexivity]. intros _.
    apply (ct_sound _ _ _ (qi_content _ _ _ Q)); auto.
  - apply valid_chars_Forall in Hv. inversion Hv as [|? ? Hc Hs]; subst.
    apply valid_chars_Forall in Hs. cbn [follow_edges].
    destruct (Z.eqb_spec (code_of a c) (-1)) as [E|E].
    { split; [intros [j H]; discriminate|]. intros H.
      apply in_trie_symbol in H as (w & Hw & Hin).
      exfalso. apply (ct_codes _ _ _ (qi_content _ _ _ Q) w c Hw Hin E). }
    destruct (Z.eqb_spec (edge a p (code_of a c)) (-1)) as [Ee|Ee].
    { split; [intros [j H]; discriminate|]. intros H.
      change (c :: s) with ([c] ++ s) in H. rewrite app_assoc in H.
      apply in_trie_app_l in H.
      rewrite (no_edge_not_in_trie words a strs p c Q Hp Hc E Ee) in H.
      discriminate. }
    destruct (edge_target a strs p c (qi_codes _ _ _ Q) (qi_shape _ _ _ Q)
                Hp Hc E Ee) as (Hin & Hstr).
    rewrite (IH _ Q Hin Hs), Hstr, <- app_assoc. reflexivity.
Qed.

(** ** The driver's automaton *)

Lemma ex_Reset : Reset ex_words = Some ex_automaton.
Proof. vm_compute. reflexivity. Qed.

Lemma ex_built : built ex_words ex_automaton.
Proof. apply built_Reset. exact ex_Reset. Qed.

Lemma nested_Reset : Reset nested_words = Some nested_automaton.
Proof. vm_compute. reflexivity. Qed.

(** * The claims *)

Lemma fuel_agree_SwitchStateCode f1 f2 a k v r1 r2 :
  SwitchStateCode_fuel f1 a k v = Some r1 ->
  SwitchStateCode_fuel f2 a k v = Some r2 -> r1 = r2.
Proof.
  intros H1 H2. destruct (Nat.le_ge_cases f1 f2) as [H|H].
  - apply (SwitchStateCode_fuel_more _ _ _ _ _ _ H) in H1. congruence.
  - apply (SwitchStateCode_fuel_more _ _ _ _ _ _ H) in H2. congruence.
Qed.

Lemma fuel_agree_GetLink f1 f2 a s r1 r2 :
  GetLink_fuel f1 a s = Some r1 ->
  GetLink_fuel f2 a s = Some r2 -> r1 = r2.
Proof.
  intros H1 H2. destruct (Nat.le_ge_cases f1 f2) as [H|H].
  - apply (GetLink_fuel_more _ _ _ _ _ H) in H1. congruence.
  - apply (GetLink_fuel_more _ _ _ _ _ H) in H2. congruence.
Qed.

Lemma SearchIn_loop_app s : forall a st i res,
  SearchIn_loop a st i s res =
  match SearchIn_loop a st i s [] with
  | Some (a', out) => Some (a', res ++ out)
  | None => None
  end.
Proof.
  induction s as [|c s IH]; intros a st i res.
  - simpl. now rewrite app_nil_r.
  - rewrite !SearchIn_loop_cons.
    destruct (SwitchState a c st) as [[a1 s1]|]; [|reflexivity]. cbn [bind].
    rewrite IH. rewrite (IH _ _ _ (if TState.IsLeaf s1 then _ else _)).
    destruct (SearchIn_loop a1 s1 (wrap32 (i + 1)) s []) as [[a2 out]|];
      [|reflexivity].
    destruct (TState.IsLeaf s1); simpl; now rewrite <- ?app_assoc.
Qed.

Lemma no_empty_pattern words :
  (forall w, In w words -> w <> []) -> leaf_index words [] = -1.
Proof.
  intros H. destruct (leaf_index_range words []) as [E|E]; auto.
  exfalso. apply (H []); auto. apply leaf_index_In. lia.
Qed.

Lemma valid_chars_prefix words w p r :
  valid_words words = true -> In w words -> w = p ++ r ->
  valid_chars p = true.
Proof.
  intros Hv Hin ->. apply valid_words_inv in Hv as [Hv _].
  rewrite Forall_forall in Hv. apply Hv in Hin.
  apply valid_text_inv in Hin as [Hc _].
  unfold valid_chars in *. rewrite forallb_app in Hc.
  now apply andb_true_iff in Hc as [? _].
Qed.

Lemma root_of_nil a strs i :
  Shape a strs -> in_tree a i -> str strs i = [] -> i = 0.
Proof.
  intros S Hi E. apply (sh_inj _ _ S); auto.
  - pose proof (sh_pos _ _ S). unfold in_tree. lia.
  - now rewrite (sh_root _ _ S).
Qed.

(** C10.  [SearchIn] only appends: for every automaton reached from [Reset],
    every admissible text and every prior content [res] of the result vector,
    the call returns [res] unchanged, in its order, followed by the matches
    [found] of this call -- the same matches, and the same automaton, as a
    call on an empty vector. *)
Theorem SearchIn_appends words a t res :
  valid_words words = true -> built words a -> valid_text t = true ->
  exists a' found,
    SearchIn a t [] = Some (a', found) /\
    SearchIn a t res = Some (a', res ++ found).
Proof.
  intros Hw B Ht. destruct (built_QInv words a Hw B) as [strs Q].
  destruct (SearchIn_ok words a strs t [] Q Ht) as (a' & found & E & _).
  exists a', found. simpl app in E. split; [exact E|].
  unfold SearchIn in *. rewrite SearchIn_loop_app, E. reflexivity.
Qed.

Lemma SearchIn_appends_witness :
  valid_words ex_words = true /\ valid_text (chars_of_string "abcdef") = true /\
  exists a' found,
    SearchIn ex_automaton (chars_of_string "abcdef") [] = Some (a', found) /\
    SearchIn ex_automaton (chars_of_string "abcdef") [(7, 7)] =
      Some (a', [(7, 7)] ++ found).
Proof.
  split; [reflexivity|]. split; [reflexivity|].
  apply (SearchIn_appends ex_words ex_automaton (chars_of_string "abcdef")
           [(7, 7)]); [reflexivity|exact ex_built|reflexivity].
Defined.

(** C3 (the code departs from the claim).  When the empty string is the only
    pattern, [Reset] marks the root as its leaf, yet [HasString] answers
    [false] on the empty string: the walk starts from [TState()], whose
    [Leaf] is [-1] whatever the root holds. *)
Theorem HasString_rejects_empty_pattern :
  In [] [@nil char] /\
  exists a a',
    Reset [[]] = Some a /\ TNode.IsLeaf (node a 0) = 0 /\
    HasString a [] = Some (a', false).
Proof.
  split; [now left|]. eexists _, _. split; [vm_compute; reflexivity|].
  split; reflexivity.
Qed.

(** C8 (the code departs from the claim).  Where [char] is signed, the byte
    200 is the [char] value -56; [CodeMap[c]] converts it to the index
    2^64 - 56, outside the 256 entries, in [Reset] as in [SwitchState]. *)
Theorem CodeMap_lookup_signed_char_out_of_bounds :
  char_of_byte true 200 = -56 /\
  index_of_char (char_of_byte true 200) = 2 ^ 64 - 56 /\
  CodeMap_at (repeat (-1) 256%nat) (char_of_byte true 200) = None /\
  Reset [[char_of_byte true 200]] = None /\
  SwitchState ex_automaton (char_of_byte true 200) TState.default = None.
Proof. repeat split; vm_compute; reflexivity. Qed.

(** With an unsigned [char] (and for the bytes below 128 in either case)
    every lookup is inside the table. *)
Lemma CodeMap_lookup_in_bounds signed b cm :
  vsize cm = 256 -> 0 <= b < 256 -> signed = false \/ b < 128 ->
  exists code, CodeMap_at cm (char_of_byte signed b) = Some code.
Proof.
  intros Hs Hb H. exists (vget (-1) cm b).
  assert (E : char_of_byte signed b = b).
  { unfold char_of_byte. destruct H as [->|H]; [reflexivity|].
    destruct (Z.leb_spec 128 b); [lia|]. now rewrite andb_false_r. }
  rewrite E. now apply CodeMap_at_valid.
Qed.

(** C9 (the code departs from the claim).  In the automaton of [{"a"}] the
    node of "a" has the root as its failure link; the state returned by
    [GetLink] references the root but carries the depth 1 of the node it was
    asked about, not the depth 0 of the root. *)
Theorem GetLink_exposes_source_depth :
  exists a a1 s a2 l,
    Reset [chars_of_string "a"] = Some a /\
    SwitchState a 97 TState.default = Some (a1, s) /\
    GetLink a1 s = Some (a2, l) /\
    TState.Idx l = 0 /\ TNode.Depth (node a2 (TState.Idx l)) = 0 /\
    TState.Depth l = 1 /\ TState.Depth l = TNode.Depth (node a2 (TState.Idx s)).
Proof.
  eexists _, _, _, _, _. split; [vm_compute; reflexivity|].
  split; [vm_compute; reflexivity|]. split; [vm_compute; reflexivity|].
  repeat split.
Qed.

(** C1, counterexample.  With the patterns "abcd" and "bc" and the text
    "abcd", pattern 1 occurs with its end at position 3, and [SearchIn]
    reports the pair (4, 0) alone. *)
Lemma SearchIn_misses_inner_pattern :
  exists a a',
    Reset nested_words = Some a /\
    SearchIn a (chars_of_string "abcd") [] = Some (a', [(4, 0)]) /\
    occurs_at nested_words (chars_of_string "abcd") 3 1 /\
    ~ In (3, 1) [(4, 0)].
Proof.
  eexists _, _. split; [vm_compute; reflexivity|].
  split; [vm_compute; reflexivity|]. split.
  - unfold occurs_at. vm_compute. intuition congruence.
  - intros [H|[]]. discriminate.
Qed.

(** C2, counterexample.  With the patterns "abcd" and "bc", the text "abc"
    contains pattern 1, and [SearchIn] reports nothing. *)
Lemma SearchIn_silent_on_inner_pattern :
  exists a a',
    Reset nested_words = Some a /\
    occurs_at nested_words (chars_of_string "abc") 3 1 /\
    SearchIn a (chars_of_string "abc") [] = Some (a', []).
Proof.
  eexists _, _. split; [vm_compute; reflexivity|]. split.
  - unfold occurs_at. vm_compute. intuition congruence.
  - vm_compute. reflexivity.
Qed.

(** C1, as amended.  For every automaton reached from [Reset] on non-empty
    patterns and every admissible text, [SearchIn] appends, once each and in
    strictly increasing order of end position, exactly the pairs [(e, k)] for
    which the longest suffix of the first [e] symbols that is a prefix of some
    pattern is itself a pattern, [k] being the largest index of that pattern.
    Every such pair is an occurrence of pattern [k] ending at [e]; when the
    patterns are pairwise distinct and none occurs inside another at a place
    other than its beginning, every occurrence of every pattern is among
    them.  For the patterns "abcd", "bcde", "cdef" and the text "abcdef" the
    result is (4,0), (5,1), (6,2). *)
Theorem SearchIn_reports_longest_matches words a t res :
  valid_words words = true -> built words a -> valid_text t = true ->
  (forall w, In w words -> w <> []) ->
  exists a' out,
    SearchIn a t res = Some (a', res ++ out) /\
    (forall e k, In (e, k) out <->
       1 <= e <= vsize t /\ 0 <= k /\
       k = leaf_index words (lsp words (firstn (Z.to_nat e) t))) /\
    increasing_ends out /\ NoDup out /\
    (forall e k, In (e, k) out -> occurs_at words t e k) /\
    (NoDup words ->
     (forall w q, In w words -> In q words -> ~ occurs_inside w q) ->
     forall e k, occurs_at words t e k -> In (e, k) out) /\
    (words = ex_words -> t = chars_of_string "abcdef" ->
     out = [(4, 0); (5, 1); (6, 2)]).
Proof.
  intros Hw B Ht Hne. destruct (built_QInv words a Hw B) as [strs Q].
  destruct (SearchIn_ok words a strs t res Q Ht) as (a' & out & E & _ & _ & _ & Heq).
  specialize (Heq (no_empty_pattern words Hne)). subst out.
  exists a', (search_model words [] t). split; [exact E|]. split.
  { intros e k. rewrite search_model_In. change (vsize (@nil Z)) with 0.
    simpl app. unfold vsize. split.
    - intros (m & Hm & -> & Hk & Hk0). rewrite Z.add_0_l, Nat2Z.id.
      repeat split; auto; lia.
    - intros (He & Hk0 & Hk). exists (Z.to_nat e). repeat split; auto; lia. }
  split; [apply search_model_increasing|].
  split; [apply increasing_ends_NoDup, search_model_increasing|].
  split; [intros e k; apply search_model_sound|]. split.
  - intros Hnd Hapart e k Ho.
    assert (Hk : 0 <= k < vsize words) by apply Ho.
    apply search_model_complete; auto.
    + apply occurs_at_lsp; auto. apply Hne, vget_In, Hk.
    + now apply leaf_index_NoDup.
  - intros -> ->. vm_compute. reflexivity.
Qed.

Lemma SearchIn_reports_longest_matches_witness :
  valid_words ex_words = true /\
  valid_text (chars_of_string "ZZbcdeXX") = true /\
  (forall w, In w ex_words -> w <> []) /\
  exists a' out,
    SearchIn ex_automaton (chars_of_string "ZZbcdeXX") [] = Some (a', out) /\
    (forall e k, In (e, k) out -> occurs_at ex_words (chars_of_string "ZZbcdeXX") e k).
Proof.
  assert (Hne : forall w, In w ex_words -> w <> []).
  { intros w [<-|[<-|[<-|[]]]]; discriminate. }
  split; [reflexivity|]. split; [reflexivity|]. split; [exact Hne|].
  destruct (SearchIn_reports_longest_matches ex_words ex_automaton
              (chars_of_string "ZZbcdeXX") [] eq_refl ex_built eq_refl Hne)
    as (a' & out & E & _ & _ & _ & Hs & _).
  exists a', out. split; [exact E|exact Hs].
Defined.

(** C2, as amended.  For every automaton reached from [Reset] and every
    admissible text, every pair [(e, k)] appended by [SearchIn] is sound:
    [e] is a 1-based position of the text, [k] is the index of a pattern,
    [e] is at least the length of pattern [k], and the symbols of that length
    ending at [e] are pattern [k].  Moreover, if the patterns are non-empty
    and none occurs inside another at a place other than its beginning, and
    the text contains a pattern, [SearchIn] appends at least one pair. *)
Theorem SearchIn_sound words a t res :
  valid_words words = true -> built words a -> valid_text t = true ->
  exists a' out,
    SearchIn a t res = Some (a', res ++ out) /\
    (forall e k, In (e, k) out -> occurs_at words t e k) /\
    ((forall w, In w words -> w <> []) ->
     (forall w q, In w words -> In q words -> ~ occurs_inside w q) ->
     (exists e k, occurs_at words t e k) -> out <> []).
Proof.
  intros Hw B Ht. destruct (built_QInv words a Hw B) as [strs Q].
  destruct (SearchIn_ok words a strs t res Q Ht)
    as (a' & out & E & _ & _ & Hsub & Heq).
  exists a', out. split; [exact E|]. split.
  - intros e k Hin. apply search_model_sound. now apply Hsub.
  - intros Hne Hapart (e & k & Ho).
    rewrite (Heq (no_empty_pattern words Hne)).
    assert (Hk : 0 <= k < vsize words) by apply Ho.
    assert (Hu : In (pattern words k) words) by (apply vget_In, Hk).
    pose proof (occurs_at_lsp words t e k Ho (Hne _ Hu) Hapart) as Hl.
    assert (Hin : In (e, leaf_index words (pattern words k))
                     (search_model words [] t)).
    { apply search_model_In. exists (Z.to_nat e).
      destruct Ho as (He & _). unfold vsize in He.
      change (vsize (@nil Z)) with 0. simpl app. rewrite Hl.
      split; [lia|]. split; [lia|]. split; [reflexivity|].
      now apply leaf_index_In. }
    intros Hnil. rewrite Hnil in Hin. destruct Hin.
Qed.

Lemma SearchIn_sound_witness :
  valid_words nested_words = true /\
  valid_text (chars_of_string "xabcd") = true /\
  exists a' out,
    SearchIn nested_automaton (chars_of_string "xabcd") [] = Some (a', out) /\
    (forall e k, In (e, k) out ->
       occurs_at nested_words (chars_of_string "xabcd") e k).
Proof.
  split; [reflexivity|]. split; [reflexivity|].
  destruct (SearchIn_sound nested_words nested_automaton
              (chars_of_string "xabcd") []
              eq_refl (built_Reset nested_words _ nested_Reset) eq_refl)
    as (a' & out & Es & Hs & _).
  exists a', out. split; [exact Es|exact Hs].
Defined.

(** C4.  For every node of every automaton reached from [Reset], [GetLink]
    returns the failure link of the node: the root for the root and for the
    children of the root; for any other node the node that
    [SwitchStateCode] reaches from the link of the parent on the node's own
    [ParentCode]; and the prefix of the returned node is the longest proper
    suffix of the node's prefix that is the prefix of some node of the
    trie. *)
Theorem GetLink_failure_link words a s :
  valid_words words = true -> built words a -> in_tree a (TState.Idx s) ->
  exists a' l,
    GetLink a s = Some (a', l) /\ built words a' /\
    in_tree a (TState.Idx l) /\
    (TState.Idx s = 0 \/ TNode.Parent (node a (TState.Idx s)) = 0 ->
     TState.Idx l = 0) /\
    (TState.Idx s <> 0 -> TNode.Parent (node a (TState.Idx s)) <> 0 ->
     exists a1 lp a2 r,
       GetLink a (TState.of_idx (TNode.Parent (node a (TState.Idx s))))
         = Some (a1, lp) /\
       SwitchStateCode a1 (TNode.ParentCode (node a (TState.Idx s))) lp
         = Some (a2, r) /\
       TState.Idx l = TState.Idx r) /\
    (TState.Idx s <> 0 ->
     (exists x, x <> [] /\
        spell a (TState.Idx s) = x ++ spell a (TState.Idx l)) /\
     (forall x y j, x <> [] -> spell a (TState.Idx s) = x ++ y ->
        in_tree a j -> spell a j = y ->
        exists z, spell a (TState.Idx l) = z ++ y)).
Proof.
  intros Hw B Hv. destruct (built_QInv words a Hw B) as [strs Q].
  pose proof (qi_shape _ _ _ Q) as S.
  destruct (GetLink_ok words a strs s Q Hv)
    as (a' & l & E & Q' & X & Hl & Hs & _).
  apply (extends_in_tree _ _ _ X) in Hl.
  set (v := TState.Idx s) in *.
  exists a', l. split; [exact E|].
  split; [apply (built_GetLink words a s a' l B Hv E)|].
  split; [exact Hl|]. split; [|split].
  - intros H. apply (root_of_nil a strs _ S Hl). rewrite Hs.
    destruct (Z.eq_dec v 0) as [E0|N0].
    + rewrite E0, (sh_root _ _ S). reflexivity.
    + destruct H as [H|H]; [contradiction|].
      destruct (sh_parent _ _ S v) as (_ & c & _ & _ & _ & Hc & _);
        [unfold in_tree in Hv; lia|].
      rewrite Hc, H, (sh_root _ _ S). reflexivity.
  - intros N0 Np.
    destruct (sh_parent _ _ S v) as (Hp & c & Hc & Hk & Hkn & Hstr & _);
      [unfold in_tree in Hv; lia|].
    set (p := TNode.Parent (node a v)) in *.
    assert (Hpin : in_tree a p) by (unfold in_tree in *; lia).
    destruct (GetLink_ok words a strs (TState.of_idx p) Q Hpin)
      as (a1 & lp & E1 & Q1 & X1 & Hlp & Hslp & _).
    destruct (SwitchStateCode_ok words a1 strs lp c Q1 Hlp Hc)
      as (a2 & r & E2 & Q2 & X2 & Hr & Hsr & _).
    { rewrite (extends_code_of _ _ _ X1). congruence. }
    rewrite (extends_code_of _ _ _ X1), Hk in E2.
    exists a1, lp, a2, r. split; [exact E1|]. split; [exact E2|].
    apply (sh_inj _ _ S); auto.
    + apply (extends_in_tree _ _ _ X1), (extends_in_tree _ _ _ X2), Hr.
    + rewrite Hs, Hsr, Hslp. cbn [TState.of_idx TState.Idx].
      rewrite Hstr, <- lsp_snoc.
      pose proof (str_nonroot a strs p S Hpin Np).
      destruct (str strs p); [congruence|reflexivity].
  - intros N0. rewrite !(spell_str words a strs) by auto.
    pose proof (str_nonroot a strs v S Hv N0) as Hne.
    rewrite Hs. destruct (str strs v) as [|x0 u]; [congruence|]. simpl tl.
    split.
    + destruct (lsp_suffix words u) as [z Hz].
      exists (x0 :: z). split; [discriminate|]. simpl. now rewrite <- Hz.
    + intros x y j Hx Hxy Hj Hy. rewrite (spell_str words a strs) in Hy by auto.
      destruct x as [|x1 x]; [congruence|]. simpl in Hxy.
      inversion Hxy; subst. apply (lsp_max words _ x); auto.
      apply (ct_sound _ _ _ (qi_content _ _ _ Q)); auto.
Qed.

Lemma GetLink_failure_link_witness :
  valid_words ex_words = true /\ in_tree ex_automaton 8 /\
  spell ex_automaton 8 = chars_of_string "bcde" /\
  exists a' l,
    GetLink ex_automaton (TState.mk 8 4 1) = Some (a', l) /\
    spell ex_automaton (TState.Idx l) = chars_of_string "cde".
Proof.
  split; [reflexivity|]. split; [unfold in_tree; vm_compute; intuition congruence|].
  split; [vm_compute; reflexivity|].
  destruct (GetLink_failure_link ex_words ex_automaton (TState.mk 8 4 1)
              eq_refl ex_built) as (a' & l & E & _).
  { unfold in_tree; vm_compute; intuition congruence. }
  exists a', l. split; [exact E|].
  vm_compute in E. injection E as _ <-. vm_compute. reflexivity.
Defined.

(** C5.  For every automaton reached from [Reset], every node and every valid
    code, both resolvers return: a fuel of twice the depth of the node plus
    two is enough for either, any such fuel gives the result of the resolver
    itself, the failure link of a node other than the root is less deep than
    the node, and a transition goes at most one level deeper. *)
Theorem resolvers_terminate words a v k fuel :
  valid_words words = true -> built words a -> in_tree a (TState.Idx v) ->
  0 <= k < CodeSize a ->
  2 * TNode.Depth (node a (TState.Idx v)) + 2 <= Z.of_nat fuel ->
  (exists a' s',
     SwitchStateCode_fuel fuel a k v = Some (a', s') /\
     SwitchStateCode a k v = Some (a', s') /\
     TNode.Depth (node a (TState.Idx s'))
       <= TNode.Depth (node a (TState.Idx v)) + 1) /\
  (exists a' l,
     GetLink_fuel fuel a v = Some (a', l) /\
     GetLink a v = Some (a', l) /\
     (TState.Idx v <> 0 ->
      TNode.Depth (node a (TState.Idx l))
        < TNode.Depth (node a (TState.Idx v)))).
Proof.
  intros Hw B Hv Hk Hf. destruct (built_QInv words a Hw B) as [strs Q].
  pose proof (qi_shape _ _ _ Q) as S.
  rewrite (sh_depth _ _ S _ Hv) in *.
  destruct (co_surj _ _ (qi_codes _ _ _ Q) k Hk) as (c & Hc & Hck).
  fold (code_of a c) in Hck.
  destruct (resolvers_ok words strs fuel a Q) as [HS HL]. split.
  - destruct (HS v c Hv Hc) as (a' & s' & E & _ & X & Hin & Hs & _);
      [lia|lia|].
    destruct (SwitchStateCode_ok words a strs v c Q Hv Hc)
      as (a2 & s2 & E2 & _); [lia|].
    rewrite Hck in E, E2. exists a', s'. split; [exact E|]. split.
    + rewrite E2. f_equal. symmetry.
      apply (fuel_agree_SwitchStateCode _ _ _ _ _ _ _ E E2).
    + apply (extends_in_tree _ _ _ X) in Hin.
      rewrite (sh_depth _ _ S _ Hin), Hs.
      pose proof (lsp_length words (str strs (TState.Idx v) ++ [c])) as Hlen.
      rewrite vsize_app, vsize_cons, vsize_nil in Hlen. lia.
  - destruct (HL v Hv) as (a' & l & E & _ & X & Hin & Hs & _); [lia|].
    destruct (GetLink_ok words a strs v Q Hv) as (a2 & l2 & E2 & _).
    exists a', l. split; [exact E|]. split.
    + rewrite E2. f_equal. symmetry.
      apply (fuel_agree_GetLink _ _ _ _ _ _ E E2).
    + intros N0. apply (extends_in_tree _ _ _ X) in Hin.
      rewrite (sh_depth _ _ S _ Hin), Hs.
      apply lsp_tl_length. now apply (str_nonroot a strs _ S Hv).
Qed.

Lemma resolvers_terminate_witness :
  valid_words ex_words = true /\ in_tree ex_automaton 8 /\
  0 <= 5 < CodeSize ex_automaton /\
  2 * TNode.Depth (node ex_automaton 8) + 2 <= Z.of_nat 10 /\
  exists a' s',
    SwitchStateCode_fuel 10 ex_automaton 5 (TState.mk 8 4 1) = Some (a', s').
Proof.
  assert (H8 : in_tree ex_automaton 8)
    by (unfold in_tree; vm_compute; intuition congruence).
  assert (H5 : 0 <= 5 < CodeSize ex_automaton)
    by (vm_compute; intuition congruence).
  assert (Hf : 2 * TNode.Depth (node ex_automaton 8) + 2 <= Z.of_nat 10)
    by (vm_compute; congruence).
  split; [reflexivity|]. split; [exact H8|]. split; [exact H5|].
  split; [exact Hf|].
  destruct (resolvers_terminate ex_words ex_automaton (TState.mk 8 4 1) 5 10
              eq_refl ex_built H8 H5 Hf) as [(a' & s' & E & _) _].
  exists a', s'. exact E.
Defined.

(** Where the symbol indexes [CodeMap] the transition is total.  For every
    automaton reached from [Reset], every state of it and every symbol with a
    [char] value in 0..255, [SwitchState] returns a state of the
    automaton, which stays usable; a symbol that occurs in no pattern yields
    the initial state [TState()] (the root, at depth 0) from any state and
    leaves the tables as they are; and from the root a symbol whose code has
    no literal trie edge there leads back to the root. *)
Theorem SwitchState_total words a v c :
  valid_words words = true -> built words a -> in_tree a (TState.Idx v) ->
  valid_char c = true ->
  exists a' s',
    SwitchState a c v = Some (a', s') /\ built words a' /\
    in_tree a' (TState.Idx s') /\
    ((forall w, In w words -> ~ In c w) ->
     a' = a /\ s' = TState.default /\ TState.IsRoot s' = true) /\
    (TState.IsRoot v = true -> edge a 0 (code_of a c) = -1 ->
     TState.IsRoot s' = true).
Proof.
  intros Hw B Hv Hc. destruct (built_QInv words a Hw B) as [strs Q].
  pose proof Hc as Hc'. apply valid_char_range in Hc'.
  destruct (SwitchState_ok words a strs v c Q Hv Hc')
    as (a' & s' & E & Q' & X & Hin & Hs & Hd & _).
  pose proof (qi_shape _ _ _ Q') as S'.
  exists a', s'. split; [exact E|].
  split; [apply (built_SwitchState words a c v a' s' B Hc Hv E)|].
  split; [exact Hin|]. split.
  - intros Hno.
    assert (Ek : code_of a c = -1).
    { destruct (Z.eq_dec (code_of a c) (-1)) as [Ek|Ek]; auto.
      destruct (ct_mapped _ _ _ (qi_content _ _ _ Q) c Ek) as (w & H1 & H2).
      destruct (Hno w H1 H2). }
    unfold SwitchState in E.
    rewrite (CodeMap_at_valid _ c (co_size _ _ (qi_codes _ _ _ Q)) Hc') in E.
    cbn [bind] in E. fold (code_of a c) in E. rewrite Ek in E.
    inversion E. auto.
  - unfold TState.IsRoot. intros H0 He. apply Z.eqb_eq in H0. apply Z.eqb_eq.
    apply (root_of_nil a' strs _ S' Hin). rewrite Hs, H0.
    rewrite (sh_root _ _ (qi_shape _ _ _ Q)). simpl app.
    destruct (Z.eq_dec (code_of a c) (-1)) as [Ek|Ek].
    + apply (lsp_unmapped words []). intros w Hin' Hcw.
      apply (ct_codes _ _ _ (qi_content _ _ _ Q) w c Hin' Hcw Ek).
    + apply lsp_root_fail.
      rewrite H0 in Hv.
      pose proof (no_edge_not_in_trie words a strs 0 c Q Hv Hc' Ek He) as Hn.
      now rewrite (sh_root _ _ (qi_shape _ _ _ Q)) in Hn.
Qed.

Lemma SwitchState_total_witness :
  valid_words ex_words = true /\ in_tree ex_automaton 8 /\
  valid_char 90 = true /\ (forall w, In w ex_words -> ~ In 90 w) /\
  exists a' s',
    SwitchState ex_automaton 90 (TState.mk 8 4 1) = Some (a', s') /\
    TState.IsRoot s' = true.
Proof.
  assert (H8 : in_tree ex_automaton 8)
    by (unfold in_tree; vm_compute; intuition congruence).
  assert (Hno : forall w, In w ex_words -> ~ In 90 w).
  { intros w [<-|[<-|[<-|[]]]] Hin; vm_compute in Hin;
      intuition discriminate. }
  split; [reflexivity|]. split; [exact H8|]. split; [reflexivity|].
  split; [exact Hno|].
  destruct (SwitchState_total ex_words ex_automaton (TState.mk 8 4 1) 90
              eq_refl ex_built H8 eq_refl) as (a' & s' & E & _ & _ & Hr & _).
  exists a', s'. split; [exact E|]. apply (Hr Hno).
Defined.

(** C6 (the code departs from the claim).  Where [char] is signed, the byte
    200 is a symbol that [SwitchState] gives no successor for: it is the
    [char] value -56, outside the symbols that index [CodeMap], and from
    every state of the automaton of "abcd", "bcde", "cdef" the lookup
    [CodeMap[c]] leaves the table, so that no state is returned and
    [SearchIn] does not get through a text that holds the byte.  The same
    byte read as an unsigned [char] occurs in no pattern and resets to the
    initial state, as the claim says of every symbol. *)
Theorem SwitchState_stuck_on_signed_char :
  valid_char (char_of_byte true 200) = false /\
  (forall v, SwitchState ex_automaton (char_of_byte true 200) v = None) /\
  GetState ex_automaton (char_of_byte true 200) = None /\
  SearchIn ex_automaton (chars_of_string "ab" ++ [char_of_byte true 200]) []
    = None /\
  SwitchState ex_automaton (char_of_byte false 200) (TState.mk 8 4 1)
    = Some (ex_automaton, TState.default).
Proof.
  split; [reflexivity|]. split; [intros v; reflexivity|].
  split; [reflexivity|]. split; vm_compute; reflexivity.
Qed.

(** C7.  For every automaton reached from [Reset]: a proper prefix [p] of a
    pattern that is not itself a pattern is accepted by [HasPrefix] and
    rejected by [HasString]; and [HasPrefix] answers [true] on a string
    exactly when the literal trie edges lead from the root through the whole
    string, whether or not the node reached is a leaf. *)
Theorem HasPrefix_proper_prefix words a :
  valid_words words = true -> built words a ->
  (forall w p r, In w words -> w = p ++ r -> r <> [] -> ~ In p words ->
     (exists a1, HasPrefix a p = Some (a1, true)) /\
     (exists a2, HasString a p = Some (a2, false))) /\
  (forall s, valid_chars s = true ->
     exists a' b, HasPrefix a s = Some (a', b) /\
       (b = true <-> exists j, follow_edges a 0 s = Some j)).
Proof.
  intros Hw B. destruct (built_QInv words a Hw B) as [strs Q]. split.
  - intros w p r Hin Hp Hr Hnot.
    pose proof (valid_chars_prefix words w p r Hw Hin Hp) as Hv.
    assert (Ht : in_trie words p = true).
    { apply in_trie_spec. right. exists w, r. auto. }
    split.
    + destruct (HasPrefix_ok words a strs p Q Hv) as (a1 & E & _).
      rewrite Ht in E. eauto.
    + destruct (HasString_ok words a strs p Q Hv) as (a2 & b & E & _ & _ & Hb).
      exists a2. destruct b; auto. destruct (proj1 Hb eq_refl). contradiction.
  - intros s Hv. destruct (HasPrefix_ok words a strs s Q Hv) as (a' & E & _).
    exists a', (in_trie words s). split; [exact E|].
    assert (H0 : in_tree a 0)
      by (pose proof (sh_pos _ _ (qi_shape _ _ _ Q)); unfold in_tree; lia).
    rewrite (follow_edges_in_trie words a strs s 0 Q H0 Hv).
    rewrite (sh_root _ _ (qi_shape _ _ _ Q)). reflexivity.
Qed.

Lemma HasPrefix_proper_prefix_witness :
  valid_words ex_words = true /\
  In (chars_of_string "abcd") ex_words /\
  ~ In (chars_of_string "abc") ex_words /\
  (exists a1, HasPrefix ex_automaton (chars_of_string "abc") = Some (a1, true)) /\
  (exists a2, HasString ex_automaton (chars_of_string "abc") = Some (a2, false)).
Proof.
  assert (Hin : In (chars_of_string "abcd") ex_words) by (now left).
  assert (Hnot : ~ In (chars_of_string "abc") ex_words).
  { intros [H|[H|[H|[]]]]; vm_compute in H; discriminate H. }
  split; [reflexivity|]. split; [exact Hin|]. split; [exact Hnot|].
  destruct (HasPrefix_proper_prefix ex_words ex_automaton eq_refl ex_built)
    as [H _].
  apply (H (chars_of_string "abcd") (chars_of_string "abc")
           (chars_of_string "d") Hin eq_refl); [discriminate|exact Hnot].
Defined.

(** ** Two general statements behind the departures *)

(** [HasString] accepts exactly the non-empty patterns. *)
Lemma HasString_nonempty_patterns words a s :
  valid_words words = true -> built words a -> valid_chars s = true ->
  exists a' b, HasString a s = Some (a', b) /\
               (b = true <-> s <> [] /\ In s words).
Proof.
  intros Hw B Hv. destruct (built_QInv words a Hw B) as [strs Q].
  destruct (HasString_ok words a strs s Q Hv) as (a' & b & E & _ & _ & Hb).
  exists a', b. auto.
Qed.

(** The state returned by [GetLink] always carries the depth of the node it
    was asked about. *)
Lemma GetLink_depth_of_source words a s :
  valid_words words = true -> built words a -> in_tree a (TState.Idx s) ->
  exists a' l, GetLink a s = Some (a', l) /\
               TState.Depth l = TNode.Depth (node a (TState.Idx s)).
Proof.
  intros Hw B Hv. destruct (built_QInv words a Hw B) as [strs Q].
  destruct (GetLink_ok words a strs s Q Hv)
    as (a' & l & E & _ & X & _ & _ & _ & Hd & _).
  exists a', l. split; [exact E|]. rewrite Hd. apply (ex_depth _ _ X).
Qed.

(** * Further properties of the code *)

(** ** Automata reached from [Reset] keep the trie of [Reset] *)

Lemma built_from_Reset words a :
  valid_words words = true -> built words a ->
  exists a0 strs,
    Reset words = Some a0 /\ Fresh a0 /\ QInv words a0 strs /\
    QInv words a strs /\ extends a0 a.
Proof.
  intros Hw B. induction B as [a E | a c v a' s B IH Hc Hv E
                              | a v a' l B IH Hv E].
  - destruct (Reset_ok words Hw) as (a0 & strs & E0 & Q & F).
    exists a0, strs. rewrite E0 in E. inversion E; subst.
    split; [exact E0|]. split; [exact F|]. split; [exact Q|].
    split; [exact Q|apply extends_refl].
  - destruct IH as (a0 & strs & E0 & F & Q0 & Q & X).
    apply valid_char_range in Hc.
    destruct (SwitchState_ok words a strs v c Q Hv Hc)
      as (a1 & s1 & E1 & Q1 & X1 & _).
    rewrite E1 in E. inversion E; subst.
    exists a0, strs. split; [exact E0|]. split; [exact F|].
    split; [exact Q0|]. split; [exact Q1|now apply (extends_trans _ a)].
  - destruct IH as (a0 & strs & E0 & F & Q0 & Q & X).
    destruct (GetLink_ok words a strs v Q Hv) as (a1 & l1 & E1 & Q1 & X1 & _).
    rewrite E1 in E. inversion E; subst.
    exists a0, strs. split; [exact E0|]. split; [exact F|].
    split; [exact Q0|]. split; [exact Q1|now apply (extends_trans _ a)].
Qed.

(** ** The code map *)

Lemma position_range c l :
  position c l = -1 \/ 0 <= position c l < vsize l.
Proof.
  induction l as [|x l IH]; [now left|]. cbn [position].
  rewrite vsize_cons. pose proof (vsize_nonneg l).
  destruct (x =? c); [right; lia|].
  destruct (Z.eqb_spec (position c l) (-1)); [now left|right; lia].
Qed.

Lemma position_absent c l :
  position c l = -1 <-> existsb (Z.eqb c) l = false.
Proof.
  induction l as [|x l IH]; [simpl; tauto|]. cbn [position existsb].
  rewrite (Z.eqb_sym c x). destruct (x =? c); simpl.
  - split; intros H; [lia|discriminate].
  - destruct (position_range c l) as [E|E].
    + rewrite E. simpl. rewrite <- IH. tauto.
    + destruct (Z.eqb_spec (position c l) (-1)); [lia|].
      rewrite <- IH. split; intros H; lia.
Qed.

Lemma position_snoc c x l :
  position c (l ++ [x]) =
  if position c l =? -1 then (if x =? c then vsize l else -1)
  else position c l.
Proof.
  induction l as [|y l IH].
  - simpl. destruct (x =? c); reflexivity.
  - simpl app. cbn [position]. rewrite IH, vsize_cons.
    pose proof (vsize_nonneg l).
    destruct (y =? c); [reflexivity|].
    destruct (position_range c l) as [E|E].
    + rewrite E. change (-1 =? -1) with true. cbv iota.
      destruct (x =? c); [|reflexivity].
      destruct (Z.eqb_spec (vsize l) (-1)); [lia|reflexivity].
    + assert (Eb : (position c l =? -1) = false) by (apply Z.eqb_neq; lia).
      rewrite !Eb.
      destruct (Z.eqb_spec (position c l + 1) (-1)); [lia|reflexivity].
Qed.

Lemma assign_code_position seen cs cm c :
  vsize cm = 256 -> cs = vsize seen ->
  (forall x, 0 <= x < 256 -> vget (-1) cm x = position x seen) ->
  0 <= c < 256 ->
  exists cs' cm',
    assign_code (cs, cm) c = Some (cs', cm') /\
    vsize cm' = 256 /\ cs' = vsize (see seen c) /\
    (forall x, 0 <= x < 256 -> vget (-1) cm' x = position x (see seen c)).
Proof.
  intros Hs Hcs Hpos Hc. unfold assign_code, see.
  rewrite CodeMap_at_valid by auto. cbn [bind].
  rewrite index_of_valid_char by auto. rewrite (Hpos c Hc).
  destruct (Z.eqb_spec (position c seen) (-1)) as [E|E].
  - rewrite (proj1 (position_absent c seen) E).
    exists (cs + 1), (vset cm c cs). split; [reflexivity|].
    split; [now rewrite vsize_vset|].
    split; [rewrite vsize_app, vsize_cons, vsize_nil; lia|].
    intros x Hx. rewrite position_snoc.
    destruct (Z.eq_dec x c) as [->|N].
    + rewrite vget_vset_same by lia. rewrite E. change (-1 =? -1) with true.
      cbv iota. rewrite Z.eqb_refl. exact Hcs.
    + rewrite vget_vset_other by congruence. rewrite (Hpos x Hx).
      destruct (Z.eqb_spec (position x seen) (-1)) as [Ex|Ex]; auto.
      destruct (Z.eqb_spec c x); [congruence|exact Ex].
  - destruct (existsb (Z.eqb c) seen) eqn:Ee.
    + exists cs, cm. auto.
    + apply position_absent in Ee. contradiction.
Qed.

Lemma assign_word_position w : forall seen cs cm,
  vsize cm = 256 -> cs = vsize seen ->
  (forall x, 0 <= x < 256 -> vget (-1) cm x = position x seen) ->
  valid_chars w = true ->
  exists cs' cm',
    foldM assign_code (cs, cm) w = Some (cs', cm') /\
    vsize cm' = 256 /\ cs' = vsize (fold_left see w seen) /\
    (forall x, 0 <= x < 256 ->
       vget (-1) cm' x = position x (fold_left see w seen)).
Proof.
  induction w as [|c w IH]; intros seen cs cm Hs Hcs Hpos Hv.
  - exists cs, cm. simpl. auto.
  - apply valid_chars_Forall in Hv. inversion Hv as [|? ? Hc Hw]; subst.
    apply valid_chars_Forall in Hw.
    destruct (assign_code_position seen _ cm c Hs eq_refl Hpos Hc)
      as (cs1 & cm1 & E1 & Hs1 & Hcs1 & Hpos1).
    destruct (IH _ _ _ Hs1 Hcs1 Hpos1 Hw) as (cs2 & cm2 & E2 & H2).
    exists cs2, cm2. rewrite foldM_cons, E1. cbn [bind]. split; [exact E2|].
    exact H2.
Qed.

Lemma assign_codes_position words : forall seen cs cm,
  vsize cm = 256 -> cs = vsize seen ->
  (forall x, 0 <= x < 256 -> vget (-1) cm x = position x seen) ->
  Forall (fun w => valid_chars w = true) words ->
  exists cs' cm',
    assign_codes (cs, cm) words = Some (cs', cm') /\
    cs' = vsize (fold_left see_word words seen) /\
    (forall x, 0 <= x < 256 ->
       vget (-1) cm' x = position x (fold_left see_word words seen)).
Proof.
  unfold assign_codes.
  induction words as [|w words IH]; intros seen cs cm Hs Hcs Hpos Hv.
  - exists cs, cm. simpl. auto.
  - inversion Hv as [|? ? Hw Hws]; subst.
    destruct (assign_word_position w seen _ cm Hs eq_refl Hpos Hw)
      as (cs1 & cm1 & E1 & Hs1 & Hcs1 & Hpos1).
    destruct (IH _ _ _ Hs1 Hcs1 Hpos1 Hws) as (cs2 & cm2 & E2 & H2).
    exists cs2, cm2. rewrite foldM_cons, E1. cbn [bind]. split; [exact E2|].
    cbn [fold_left]. exact H2.
Qed.

Lemma insert_char_codes st c st' :
  insert_char st c = Some st' ->
  CodeSize (fst (fst st')) = CodeSize (fst (fst st)) /\
  CodeMap (fst (fst st')) = CodeMap (fst (fst st)).
Proof.
  destruct st as [[a cur] ch]. unfold insert_char.
  destruct (CodeMap_at (CodeMap a) c) as [code|]; [|discriminate].
  cbn [bind].
  set (a1 := if TNode.Next (node a cur) =? -1 then alloc_Next a cur else a).
  assert (H1 : CodeSize a1 = CodeSize a /\ CodeMap a1 = CodeMap a)
    by (unfold a1; destruct (TNode.Next (node a cur) =? -1); auto).
  destruct (way a1 (TNode.Next (node a1 cur) + code) =? -1);
    intros E; inversion E; subst; simpl; exact H1.
Qed.

Lemma insert_chars_codes w : forall st st',
  foldM insert_char st w = Some st' ->
  CodeSize (fst (fst st')) = CodeSize (fst (fst st)) /\
  CodeMap (fst (fst st')) = CodeMap (fst (fst st)).
Proof.
  induction w as [|c w IH]; intros st st' E.
  - inversion E; subst. auto.
  - rewrite foldM_cons in E.
    destruct (insert_char st c) as [st1|] eqn:E1; [|discriminate].
    cbn [bind] in E. destruct (insert_char_codes _ _ _ E1) as [H1 H2].
    destruct (IH _ _ E) as [H3 H4]. split; congruence.
Qed.

Lemma insert_words_codes words : forall st st',
  foldM insert_word st words = Some st' ->
  CodeSize (fst st') = CodeSize (fst st) /\
  CodeMap (fst st') = CodeMap (fst st).
Proof.
  induction words as [|w words IH]; intros st st' E.
  - inversion E; subst. auto.
  - rewrite foldM_cons in E.
    destruct (insert_word st w) as [st1|] eqn:E1; [|discriminate].
    cbn [bind] in E. destruct (IH _ _ E) as [H3 H4].
    assert (H1 : CodeSize (fst st1) = CodeSize (fst st) /\
                 CodeMap (fst st1) = CodeMap (fst st)).
    { destruct st as [a idx]. unfold insert_word in E1.
      destruct (foldM insert_char (a, 0, 0) w) as [[[a1 cur] ch]|] eqn:E2;
        [|discriminate].
      cbn [bind] in E1. inversion E1; subst. simpl.
      apply (insert_chars_codes _ _ _ E2). }
    destruct H1. split; congruence.
Qed.

Lemma see_In seen c x : In x (see seen c) <-> In x seen \/ x = c.
Proof.
  unfold see. destruct (existsb (Z.eqb c) seen) eqn:E.
  - split; [now left|]. intros [H| ->]; auto.
    apply existsb_exists in E as (y & Hy & E). apply Z.eqb_eq in E. now subst.
  - rewrite in_app_iff. simpl. intuition.
Qed.

Lemma see_NoDup seen c : NoDup seen -> NoDup (see seen c).
Proof.
  intros H. unfold see. destruct (existsb (Z.eqb c) seen) eqn:E; auto.
  apply NoDup_app; auto.
  - constructor; [intros []|constructor].
  - intros x Hx [Hc|[]]. subst x.
    assert (existsb (Z.eqb c) seen = true); [|congruence].
    apply existsb_exists. exists c. split; auto. apply Z.eqb_refl.
Qed.

Lemma see_prefix seen c : exists r, see seen c = seen ++ r.
Proof.
  unfold see. destruct (existsb (Z.eqb c) seen).
  - exists []. now rewrite app_nil_r.
  - now exists [c].
Qed.

Lemma see_word_facts w : forall seen,
  (forall x, In x (see_word seen w) <-> In x seen \/ In x w) /\
  (NoDup seen -> NoDup (see_word seen w)) /\
  (exists r, see_word seen w = seen ++ r).
Proof.
  unfold see_word. induction w as [|c w IH]; intros seen.
  - simpl. split; [tauto|]. split; auto. exists []. now rewrite app_nil_r.
  - cbn [fold_left]. destruct (IH (see seen c)) as (H1 & H2 & r & H3).
    split; [|split].
    + intros x. rewrite H1, see_In. simpl. intuition.
    + intros H. apply H2. now apply see_NoDup.
    + destruct (see_prefix seen c) as [r0 Hr0].
      exists (r0 ++ r). now rewrite H3, Hr0, app_assoc.
Qed.

Lemma alphabet_facts words : forall seen,
  (forall x, In x (fold_left see_word words seen) <->
             In x seen \/ exists w, In w words /\ In x w) /\
  (NoDup seen -> NoDup (fold_left see_word words seen)) /\
  (exists r, fold_left see_word words seen = seen ++ r).
Proof.
  induction words as [|w words IH]; intros seen.
  - simpl. split; [|split; auto].
    + intros x. split; [now left|]. intros [H|(w & [] & _)]; auto.
    + exists []. now rewrite app_nil_r.
  - cbn [fold_left]. destruct (IH (see_word seen w)) as (H1 & H2 & r & H3).
    destruct (see_word_facts w seen) as (W1 & W2 & r0 & W3).
    split; [|split].
    + intros x. rewrite H1, W1. split.
      * intros [[H|H]|(w' & Hw' & Hx)]; auto.
        -- right. exists w. split; [now left|auto].
        -- right. exists w'. split; [now right|auto].
      * intros [H|(w' & [<-|Hw'] & Hx)]; auto.
        right. exists w'. auto.
    + intros H. now apply H2, W2.
    + exists (r0 ++ r). now rewrite H3, W3, app_assoc.
Qed.

Lemma alphabet_app ws1 ws2 :
  exists r, alphabet (ws1 ++ ws2) = alphabet ws1 ++ r.
Proof.
  unfold alphabet. rewrite fold_left_app.
  destruct (alphabet_facts ws2 (fold_left see_word ws1 [])) as (_ & _ & H).
  exact H.
Qed.

Lemma position_app_l c l r :
  position c l <> -1 -> position c (l ++ r) = position c l.
Proof.
  induction l as [|x l IH]; [simpl; congruence|]. simpl app. cbn [position].
  destruct (x =? c); [reflexivity|].
  destruct (Z.eqb_spec (position c l) (-1)) as [E|E]; [congruence|].
  intros _. rewrite (IH E).
  destruct (Z.eqb_spec (position c l) (-1)); [contradiction|reflexivity].
Qed.

Lemma Reset_codes words a :
  valid_words words = true -> Reset words = Some a ->
  CodeSize a = vsize (alphabet words) /\
  forall c, 0 <= c < 256 -> code_of a c = position c (alphabet words).
Proof.
  intros Hw E. apply valid_words_inv in Hw as [Hws _].
  assert (Hchars : Forall (fun w => valid_chars w = true) words).
  { rewrite Forall_forall in *. intros w Hin. apply Hws in Hin.
    now apply valid_text_inv in Hin as [? _]. }
  destruct (assign_codes_position words [] 0 (repeat (-1) 256%nat))
    as (cs & cm & E1 & Hcs & Hpos); auto.
  { intros x _. apply vget_repeat. }
  unfold Reset in E. rewrite E1 in E. cbn [bind] in E.
  destruct (foldM insert_word (mkAC cs cm [TNode.default] [], 0) words)
    as [[a1 idx]|] eqn:E2; [|discriminate].
  cbn [bind] in E. inversion E; subst a1.
  destruct (insert_words_codes _ _ _ E2) as [H1 H2]. simpl in H1, H2.
  unfold code_of. rewrite H1, H2. split; auto.
Qed.

(** X1.  The code map of every automaton reached from [Reset]: [CodeSize] is
    the number of distinct symbols of the patterns, and a symbol has the code
    equal to its place in the list of those symbols in order of first
    appearance, [-1] when it occurs in no pattern.  That list holds each symbol
    of the patterns once, and the code of a symbol is already fixed by the
    patterns up to the one that brings it in. *)
Theorem code_map_first_appearance words a :
  valid_words words = true -> built words a ->
  CodeSize a = vsize (alphabet words) /\
  (forall c, valid_char c = true ->
     code_of a c = position c (alphabet words)) /\
  NoDup (alphabet words) /\
  (forall c, In c (alphabet words) <-> exists w, In w words /\ In c w) /\
  (forall c, valid_char c = true ->
     (code_of a c = -1 <-> forall w, In w words -> ~ In c w)) /\
  (forall ws1 ws2 c, words = ws1 ++ ws2 -> valid_char c = true ->
     position c (alphabet ws1) <> -1 ->
     code_of a c = position c (alphabet ws1)).
Proof.
  intros Hw B.
  destruct (built_from_Reset words a Hw B) as (a0 & strs & E0 & _ & _ & _ & X).
  destruct (Reset_codes words a0 Hw E0) as [Hcs Hpos].
  destruct (alphabet_facts words []) as (HIn & Hnd & _). fold (alphabet words) in *.
  assert (Hcode : forall c, valid_char c = true ->
            code_of a c = position c (alphabet words)).
  { intros c Hc. rewrite (extends_code_of _ _ c X).
    apply Hpos. now apply valid_char_range. }
  split; [rewrite (ex_cs _ _ X); exact Hcs|]. split; [exact Hcode|].
  split; [apply Hnd; constructor|]. split; [|split].
  - intros c. rewrite HIn. simpl. tauto.
  - intros c Hc. rewrite (Hcode c Hc), position_absent. split.
    + intros H w Hin Hcw.
      assert (Hex : existsb (Z.eqb c) (alphabet words) = true); [|congruence].
      apply existsb_exists. exists c. split; [|apply Z.eqb_refl].
      apply HIn. right. eauto.
    + intros H. destruct (existsb (Z.eqb c) (alphabet words)) eqn:Ex; auto.
      apply existsb_exists in Ex as (y & Hy & Ey). apply Z.eqb_eq in Ey.
      subst y. apply HIn in Hy as [[]|(w & Hin & Hcw)].
      destruct (H w Hin Hcw).
  - intros ws1 ws2 c -> Hc Hp. rewrite (Hcode c Hc).
    destruct (alphabet_app ws1 ws2) as [r ->]. now apply position_app_l.
Qed.

Lemma code_map_first_appearance_witness :
  valid_words ex_words = true /\
  CodeSize ex_automaton = 6 /\
  code_of ex_automaton 101 = 4 /\ code_of ex_automaton 90 = -1.
Proof.
  destruct (code_map_first_appearance ex_words ex_automaton eq_refl ex_built)
    as (H1 & H2 & _).
  split; [reflexivity|]. split; [rewrite H1; reflexivity|].
  split; rewrite H2 by reflexivity; reflexivity.
Defined.

(** X2.  The trie of every automaton reached from [Reset] holds one node for
    each distinct prefix of the patterns and nothing else: the root spells
    the empty string, two nodes never spell the same string, every node
    spells the empty string or a prefix of a pattern, every such string has
    its node, and the leaf mark of a node is the largest index of a pattern
    equal to its string, [-1] when there is none. *)
Theorem trie_holds_the_prefixes words a :
  valid_words words = true -> built words a ->
  spell a 0 = [] /\
  (forall i j, in_tree a i -> in_tree a j -> spell a i = spell a j -> i = j) /\
  (forall i, in_tree a i ->
     spell a i = [] \/ exists w r, In w words /\ w = spell a i ++ r) /\
  (forall w u r, In w words -> w = u ++ r ->
     exists i, in_tree a i /\ spell a i = u) /\
  (forall i, in_tree a i ->
     TNode.IsLeaf (node a i) = leaf_index words (spell a i)) /\
  (forall k, 0 <= k < vsize words ->
     exists i, in_tree a i /\ spell a i = pattern words k /\
               k <= TNode.IsLeaf (node a i) < vsize words).
Proof.
  intros Hw B. destruct (built_QInv words a Hw B) as [strs Q].
  pose proof (qi_shape _ _ _ Q) as S. pose proof (qi_content _ _ _ Q) as C.
  assert (H0 : in_tree a 0)
    by (pose proof (sh_pos _ _ S); unfold in_tree; lia).
  assert (Hsp : forall i, in_tree a i -> spell a i = str strs i)
    by (intros; now apply (spell_str words)).
  split; [rewrite Hsp by auto; apply (sh_root _ _ S)|].
  split; [|split; [|split; [|split]]].
  - intros i j Hi Hj. rewrite !Hsp by auto. now apply (sh_inj _ _ S).
  - intros i Hi. rewrite Hsp by auto. apply in_trie_spec.
    now apply (ct_sound _ _ _ C).
  - intros w u r Hin E.
    destruct (ct_complete _ _ _ C u) as (i & Hi & Hs).
    { apply in_trie_spec. right. eauto. }
    exists i. split; auto. now rewrite Hsp.
  - intros i Hi. rewrite Hsp by auto. now apply (ct_leaf _ _ _ C).
  - intros k Hk.
    assert (Hin : In (pattern words k) words) by (now apply vget_In).
    destruct (ct_complete _ _ _ C _ (in_trie_word _ _ Hin)) as (i & Hi & Hs).
    exists i. split; auto. split; [now rewrite Hsp|].
    rewrite (ct_leaf _ _ _ C i Hi), Hs.
    pose proof (leaf_from_ge words (pattern words k) 0 k ltac:(lia) Hk eq_refl).
    destruct (leaf_index_range words (pattern words k));
      unfold leaf_index in *; lia.
Qed.

Lemma trie_holds_the_prefixes_witness :
  valid_words ex_words = true /\
  exists i, in_tree ex_automaton i /\
            spell ex_automaton i = chars_of_string "bcd".
Proof.
  split; [reflexivity|].
  destruct (trie_holds_the_prefixes ex_words ex_automaton eq_refl ex_built)
    as (_ & _ & _ & H & _).
  apply (H (chars_of_string "bcde") (chars_of_string "bcd")
           (chars_of_string "e")); [right; now left|reflexivity].
Defined.

(** ** The shape of the trie *)

(** X3.  The nodes of every automaton reached from [Reset] form a tree in
    creation order: a node other than the root has its parent before it, lies
    one level below it, is the target of the literal edge of its parent for
    its own code, and spells the string of its parent followed by the symbol
    of that code; the depth of a node is the length of its string; and a
    literal edge that is present leads from a node to a later node that names
    it as parent under that code. *)
Theorem trie_parent_links words a :
  valid_words words = true -> built words a ->
  (forall j, 0 < j < vsize (Tree a) ->
     0 <= TNode.Parent (node a j) < j /\
     0 <= TNode.ParentCode (node a j) < CodeSize a /\
     TNode.Depth (node a j) = TNode.Depth (node a (TNode.Parent (node a j))) + 1 /\
     edge a (TNode.Parent (node a j)) (TNode.ParentCode (node a j)) = j /\
     spell a j = spell a (TNode.Parent (node a j))
                   ++ [symbol_of a (TNode.ParentCode (node a j))]) /\
  (forall i, in_tree a i -> TNode.Depth (node a i) = vsize (spell a i)) /\
  (forall p k, in_tree a p -> 0 <= k < CodeSize a -> edge a p k <> -1 ->
     p < edge a p k < vsize (Tree a) /\
     TNode.Parent (node a (edge a p k)) = p /\
     TNode.ParentCode (node a (edge a p k)) = k).
Proof.
  intros Hw B. destruct (built_QInv words a Hw B) as [strs Q].
  pose proof (qi_shape _ _ _ Q) as S. pose proof (qi_codes _ _ _ Q) as C.
  split; [|split].
  - intros j Hj.
    destruct (sh_parent _ _ S j Hj) as (Hp & c & Hc & Hk & Hn & Hs & He).
    assert (Hjt : in_tree a j) by (unfold in_tree; lia).
    assert (Hpt : in_tree a (TNode.Parent (node a j)))
      by (unfold in_tree; lia).
    split; [exact Hp|]. split; [|split; [|split; [exact He|]]].
    + destruct (co_range _ _ C c Hc) as [E|E]; unfold code_of in Hk;
        rewrite Hk in E; [contradiction|exact E].
    + rewrite (sh_depth _ _ S j Hjt), (sh_depth _ _ S _ Hpt), Hs.
      now rewrite vsize_app, vsize_cons, vsize_nil.
    + rewrite (spell_str words a strs j Q Hjt),
              (spell_str words a strs _ Q Hpt), Hs, <- Hk.
      rewrite symbol_of_code; auto. congruence.
  - intros i Hi. rewrite (spell_str words a strs i Q Hi).
    now apply (sh_depth _ _ S).
  - intros p k Hp Hk He.
    destruct (sh_edge _ _ S p k Hp Hk) as [E|(Hr & Hpar & Hcode)];
      [contradiction|].
    split; [|split; auto].
    destruct (sh_parent _ _ S (edge a p k) Hr) as (Hlt & _). lia.
Qed.

Lemma trie_parent_links_witness :
  valid_words ex_words = true /\
  TNode.Depth (node ex_automaton 3) = vsize (spell ex_automaton 3).
Proof.
  split; [reflexivity|].
  destruct (trie_parent_links ex_words ex_automaton eq_refl ex_built)
    as (_ & H & _).
  apply H. unfold in_tree. vm_compute. intuition congruence.
Defined.

(** X4.  [Reset] returns on every admissible pattern set and resolves
    nothing: in the automaton it builds no node has a row of resolved
    transitions and no node has its suffix link. *)
Theorem Reset_resolves_nothing words :
  valid_words words = true ->
  exists a, Reset words = Some a /\
    forall i, TNode.Go (node a i) = -1 /\ TNode.SuffLink (node a i) = -1.
Proof.
  intros Hw. destruct (Reset_ok words Hw) as (a & strs & E & _ & F).
  exists a. split; [exact E|exact F].
Qed.

Lemma Reset_resolves_nothing_witness :
  valid_words nested_words = true /\
  exists a, Reset nested_words = Some a /\
    forall i, TNode.Go (node a i) = -1 /\ TNode.SuffLink (node a i) = -1.
Proof.
  split; [reflexivity|]. apply (Reset_resolves_nothing nested_words).
  reflexivity.
Defined.

(** ** The transition function *)

Lemma occurs_in_spec words c :
  occurs_in words c = true <-> exists w, In w words /\ In c w.
Proof.
  unfold occurs_in. rewrite existsb_exists. split.
  - intros (w & Hw & H). apply existsb_exists in H as (x & Hx & E).
    apply Z.eqb_eq in E. subst x. eauto.
  - intros (w & Hw & Hc). exists w. split; auto.
    apply existsb_exists. exists c. split; auto. apply Z.eqb_refl.
Qed.

Lemma code_of_occurs words a strs c :
  QInv words a strs ->
  (code_of a c =? -1) = negb (occurs_in words c).
Proof.
  intros Q. pose proof (qi_content _ _ _ Q) as C.
  destruct (Z.eqb_spec (code_of a c) (-1)) as [E|E];
    destruct (occurs_in words c) eqn:O; auto.
  - apply occurs_in_spec in O as (w & Hw & Hc).
    destruct (ct_codes _ _ _ C w c Hw Hc E).
  - destruct (ct_mapped _ _ _ C c E) as (w & Hw & Hc).
    assert (occurs_in words c = true) by (apply occurs_in_spec; eauto).
    congruence.
Qed.

Lemma SwitchState_exact words a strs v c :
  QInv words a strs -> in_tree a (TState.Idx v) -> 0 <= c < 256 ->
  exists a' s',
    SwitchState a c v = Some (a', s') /\
    QInv words a' strs /\ extends a a' /\ in_tree a' (TState.Idx s') /\
    str strs (TState.Idx s') = lsp words (str strs (TState.Idx v) ++ [c]) /\
    TState.Depth s' = vsize (lsp words (str strs (TState.Idx v) ++ [c])) /\
    TState.Leaf s' =
      (if occurs_in words c
       then leaf_index words (lsp words (str strs (TState.Idx v) ++ [c]))
       else -1) /\
    (occurs_in words c = false -> a' = a /\ s' = TState.default).
Proof.
  intros Q Hv Hc. unfold SwitchState.
  rewrite (CodeMap_at_valid _ c (co_size _ _ (qi_codes _ _ _ Q)) Hc).
  cbn [bind]. fold (code_of a c).
  pose proof (code_of_occurs words a strs c Q) as Ho.
  destruct (Z.eqb_spec (code_of a c) (-1)) as [E|E];
    destruct (occurs_in words c) eqn:O; try discriminate Ho.
  - exists a, TState.default. split; [reflexivity|]. split; [exact Q|].
    split; [apply extends_refl|].
    rewrite lsp_unmapped.
    + destruct (at_string_default words strs a (qi_shape _ _ _ Q))
        as (H1 & H2 & H3 & _).
      split; [exact H1|]. split; [exact H2|]. split; [exact H3|].
      split; [reflexivity|]. intros _. split; reflexivity.
    + intros w Hw Hin. apply (ct_codes _ _ _ (qi_content _ _ _ Q) w c Hw Hin E).
  - destruct (resolvers_ok words strs (resolver_fuel a) a Q) as [HS _].
    destruct (HS v c Hv Hc E) as (a' & s' & ES & Q' & X & Hin & Hs & Hd & Hl).
    { apply resolver_fuel_enough; auto. apply (qi_shape _ _ _ Q). }
    exists a', s'. split; [exact ES|]. split; [exact Q'|]. split; [exact X|].
    split; [exact Hin|]. split; [exact Hs|]. split; [|split].
    + rewrite Hd, <- Hs. apply (sh_depth _ _ (qi_shape _ _ _ Q')); auto.
    + rewrite Hl, <- Hs. apply (ct_leaf _ _ _ (qi_content _ _ _ Q')); auto.
    + discriminate.
Qed.

Lemma spell_extends a a' v : extends a a' -> spell a' v = spell a v.
Proof.
  intros X. unfold spell.
  assert (Hlen : length (Tree a') = length (Tree a)).
  { pose proof (ex_n _ _ X) as H. unfold vsize in H. lia. }
  rewrite Hlen. generalize (length (Tree a)) as f. intros f. revert v.
  induction f as [|f IH]; intros v; [reflexivity|].
  cbn [spell_fuel]. rewrite IH, (ex_parent _ _ X), (ex_pcode _ _ X).
  unfold symbol_of. now rewrite (ex_cm _ _ X).
Qed.

(** X5.  The transition function of the automaton.  From the state of a node
    and a symbol, [SwitchState] returns the state of the node that spells the
    longest suffix of (the string of the node followed by the symbol) that is
    empty or a prefix of a pattern; the state carries the length of that
    string as its depth and, as its leaf mark, the largest index of a pattern
    equal to it -- except that a symbol that occurs in no pattern gives the
    leaf mark [-1] whatever the root is marked with. *)
Theorem SwitchState_longest_suffix words a v c :
  valid_words words = true -> built words a ->
  in_tree a (TState.Idx v) -> valid_char c = true ->
  exists a' s',
    SwitchState a c v = Some (a', s') /\
    in_tree a' (TState.Idx s') /\
    spell a' (TState.Idx s') = lsp words (spell a (TState.Idx v) ++ [c]) /\
    TState.Depth s' = vsize (spell a' (TState.Idx s')) /\
    TState.Leaf s' =
      (if occurs_in words c
       then leaf_index words (spell a' (TState.Idx s')) else -1).
Proof.
  intros Hw B Hv Hc. apply valid_char_range in Hc.
  destruct (built_QInv words a Hw B) as [strs Q].
  destruct (SwitchState_exact words a strs v c Q Hv Hc)
    as (a' & s' & E & Q' & X & Hin & Hs & Hd & Hl & _).
  exists a', s'. split; [exact E|]. split; [exact Hin|].
  rewrite (spell_str words a' strs _ Q' Hin), (spell_str words a strs _ Q Hv).
  rewrite Hs. auto.
Qed.

Lemma SwitchState_longest_suffix_witness :
  valid_words ex_words = true /\
  exists a' s',
    SwitchState ex_automaton 101 (TState.mk 4 4 0) = Some (a', s') /\
    spell a' (TState.Idx s') = chars_of_string "bcde" /\
    TState.Depth s' = 4 /\ TState.Leaf s' = 1.
Proof.
  split; [reflexivity|].
  assert (H4 : in_tree ex_automaton (TState.Idx (TState.mk 4 4 0))).
  { unfold in_tree. vm_compute. intuition congruence. }
  destruct (SwitchState_longest_suffix ex_words ex_automaton (TState.mk 4 4 0)
              101 eq_refl ex_built H4 eq_refl)
    as (a' & s' & E & _ & Hs & Hd & Hl).
  exists a', s'. split; [exact E|].
  rewrite Hl, Hd, Hs. vm_compute. auto.
Defined.

(** X6.  The leaf flag of the state returned by [SwitchState] is set exactly
    when the symbol occurs in some pattern and the string of the new node is
    itself a pattern; [GetWordIdx] is then a valid index into the pattern
    set, the pattern at that index is the string of the node, and no pattern
    with a larger index equals it. *)
Theorem leaf_state_names_pattern words a v c :
  valid_words words = true -> built words a ->
  in_tree a (TState.Idx v) -> valid_char c = true ->
  exists a' s',
    SwitchState a c v = Some (a', s') /\
    (TState.IsLeaf s' = true <->
       occurs_in words c = true /\ In (spell a' (TState.Idx s')) words) /\
    (TState.IsLeaf s' = true ->
       0 <= TState.GetWordIdx s' < vsize words /\
       pattern words (TState.GetWordIdx s') = spell a' (TState.Idx s') /\
       forall j, TState.GetWordIdx s' < j < vsize words ->
         pattern words j <> spell a' (TState.Idx s')).
Proof.
  intros Hw B Hv Hc. apply valid_char_range in Hc.
  destruct (built_QInv words a Hw B) as [strs Q].
  destruct (SwitchState_exact words a strs v c Q Hv Hc)
    as (a' & s' & E & Q' & X & Hin & Hs & Hd & Hl & _).
  exists a', s'. split; [exact E|].
  rewrite (spell_str words a' strs _ Q' Hin), Hs.
  set (u := lsp words (str strs (TState.Idx v) ++ [c])) in *.
  unfold TState.IsLeaf, TState.GetWordIdx. rewrite Hl, Z.leb_le.
  destruct (occurs_in words c).
  - split.
    + rewrite <- leaf_index_In. intuition.
    + intros H0. destruct (leaf_index_range words u) as [R|R]; [lia|].
      split; [exact R|]. split; [now apply leaf_index_pattern|].
      intros j Hj Hp.
      pose proof (leaf_from_ge words u 0 j ltac:(lia) ltac:(lia) Hp) as G.
      unfold leaf_index in Hj. lia.
  - split; [split; [lia|intros [H _]; discriminate]|lia].
Qed.

Lemma leaf_state_names_pattern_witness :
  valid_words ex_words = true /\
  exists a' s',
    SwitchState ex_automaton 101 (TState.mk 4 4 0) = Some (a', s') /\
    TState.IsLeaf s' = true /\
    pattern ex_words (TState.GetWordIdx s') = spell a' (TState.Idx s').
Proof.
  split; [reflexivity|].
  assert (H4 : in_tree ex_automaton (TState.Idx (TState.mk 4 4 0))).
  { unfold in_tree. vm_compute. intuition congruence. }
  destruct (leaf_state_names_pattern ex_words ex_automaton (TState.mk 4 4 0)
              101 eq_refl ex_built H4 eq_refl)
    as (a' & s' & E & Hiff & Hleaf).
  exists a', s'. split; [exact E|].
  assert (L : TState.IsLeaf s' = true).
  { vm_compute in E. injection E as _ <-. reflexivity. }
  split; [exact L|]. apply (Hleaf L).
Defined.

Lemma in_trie_single words c :
  in_trie words [c] = true <-> exists w r, In w words /\ w = c :: r.
Proof.
  rewrite in_trie_spec. split.
  - intros [H|(w & r & Hw & E)]; [discriminate|]. exists w, r. auto.
  - intros (w & r & Hw & E). right. exists w, r. auto.
Qed.

(** X7.  [GetState] is the transition out of the root: it returns a state
    other than the root exactly when some pattern begins with the symbol; that
    state has depth 1 and its node spells the symbol alone.  Every other
    symbol gives the root, with depth 0. *)
Theorem GetState_first_symbol words a c :
  valid_words words = true -> built words a -> valid_char c = true ->
  exists a' s',
    GetState a c = Some (a', s') /\
    (TState.IsRoot s' = false <-> exists w r, In w words /\ w = c :: r) /\
    (TState.IsRoot s' = false ->
       spell a' (TState.Idx s') = [c] /\ TState.Depth s' = 1) /\
    (TState.IsRoot s' = true -> TState.Depth s' = 0).
Proof.
  intros Hw B Hc. apply valid_char_range in Hc.
  destruct (built_QInv words a Hw B) as [strs Q].
  pose proof (qi_shape _ _ _ Q) as S.
  assert (H0 : in_tree a (TState.Idx TState.default))
    by (pose proof (sh_pos _ _ S); unfold in_tree; simpl; lia).
  destruct (SwitchState_exact words a strs TState.default c Q H0 Hc)
    as (a' & s' & E & Q' & X & Hin & Hs & Hd & _).
  change (TState.Idx TState.default) with 0 in Hs, Hd.
  rewrite (sh_root _ _ S) in Hs, Hd. simpl app in Hs, Hd.
  exists a', s'. split; [exact E|].
  rewrite (spell_str words a' strs _ Q' Hin), Hs, Hd.
  rewrite <- in_trie_single. unfold TState.IsRoot.
  pose proof (qi_shape _ _ _ Q') as S'.
  destruct (in_trie words [c]) eqn:T.
  - rewrite lsp_fixed in * by auto.
    assert (N : TState.Idx s' <> 0).
    { intros Z0. rewrite Z0, (sh_root _ _ S') in Hs. discriminate. }
    apply Z.eqb_neq in N. rewrite N.
    split; [tauto|]. split; [auto|discriminate].
  - rewrite lsp_root_fail in * by auto.
    rewrite (root_of_nil a' strs _ S' Hin Hs). simpl.
    split; [split; discriminate|]. split; [discriminate|reflexivity].
Qed.

Lemma GetState_first_symbol_witness :
  valid_words ex_words = true /\
  exists a' s',
    GetState ex_automaton 99 = Some (a', s') /\
    spell a' (TState.Idx s') = [99] /\ TState.Depth s' = 1.
Proof.
  split; [reflexivity|].
  destruct (GetState_first_symbol ex_words ex_automaton 99 eq_refl ex_built
              eq_refl) as (a' & s' & E & Hiff & Hnon & _).
  exists a', s'. split; [exact E|]. apply Hnon, Hiff.
  exists (chars_of_string "cdef"), (chars_of_string "def").
  split; [right; right; now left|reflexivity].
Defined.

(** ** Queries keep the trie *)

Lemma walk_built words strs t : forall a s a' r,
  built words a -> QInv words a strs -> in_tree a (TState.Idx s) ->
  valid_chars t = true -> walk a s t = Some (a', r) -> built words a'.
Proof.
  induction t as [|c t IH]; intros a s a' r B Q Hs Hv E.
  - simpl in E. inversion E; subst. exact B.
  - apply valid_chars_Forall in Hv. inversion Hv as [|? ? Hc Ht]; subst.
    apply valid_chars_Forall in Ht.
    destruct (SwitchState_ok words a strs s c Q Hs Hc)
      as (a1 & s1 & E1 & Q1 & _ & Hs1 & _).
    assert (B1 : built words a1).
    { apply (built_SwitchState words a c s a1 s1); auto.
      now apply valid_char_range. }
    cbn [walk] in E. rewrite E1 in E. cbn [bind] in E.
    destruct (negb (TState.IsNextTo s1 s)).
    + inversion E; subst. exact B1.
    + apply (IH a1 s1 a' r B1 Q1 Hs1 Ht E).
Qed.

Lemma SearchIn_loop_built words strs t : forall a s i res a' out,
  built words a -> QInv words a strs -> in_tree a (TState.Idx s) ->
  valid_chars t = true ->
  SearchIn_loop a s i t res = Some (a', out) -> built words a'.
Proof.
  induction t as [|c t IH]; intros a s i res a' out B Q Hs Hv E.
  - simpl in E. inversion E; subst. exact B.
  - apply valid_chars_Forall in Hv. inversion Hv as [|? ? Hc Ht]; subst.
    apply valid_chars_Forall in Ht.
    destruct (SwitchState_ok words a strs s c Q Hs Hc)
      as (a1 & s1 & E1 & Q1 & _ & Hs1 & _).
    assert (B1 : built words a1).
    { apply (built_SwitchState words a c s a1 s1); auto.
      now apply valid_char_range. }
    rewrite SearchIn_loop_cons, E1 in E. cbn [bind] in E.
    apply (IH a1 s1 _ _ a' out B1 Q1 Hs1 Ht E).
Qed.

(** X8.  Every query returns, and leaves the trie as [Reset] built it: after
    [SwitchState], [GetLink], [HasString], [HasPrefix] and [SearchIn] the code
    map, the number of nodes, the parents, depths, leaf marks and literal
    edges are unchanged, rows of resolved transitions that were allocated
    keep their place, every node spells the string it spelled before, and the
    automaton is again one reached from [Reset]. *)
Theorem queries_keep_the_trie words a :
  valid_words words = true -> built words a ->
  (forall c v, valid_char c = true -> in_tree a (TState.Idx v) ->
     exists a' s', SwitchState a c v = Some (a', s') /\
       extends a a' /\ built words a' /\ forall i, spell a' i = spell a i) /\
  (forall v, in_tree a (TState.Idx v) ->
     exists a' l, GetLink a v = Some (a', l) /\
       extends a a' /\ built words a' /\ forall i, spell a' i = spell a i) /\
  (forall s, valid_chars s = true ->
     exists a' b, HasString a s = Some (a', b) /\
       extends a a' /\ built words a' /\ forall i, spell a' i = spell a i) /\
  (forall s, valid_chars s = true ->
     exists a' b, HasPrefix a s = Some (a', b) /\
       extends a a' /\ built words a' /\ forall i, spell a' i = spell a i) /\
  (forall t res, valid_text t = true ->
     exists a' out, SearchIn a t res = Some (a', out) /\
       extends a a' /\ built words a' /\ forall i, spell a' i = spell a i).
Proof.
  intros Hw B. destruct (built_QInv words a Hw B) as [strs Q].
  assert (H0 : in_tree a (TState.Idx TState.default)).
  { pose proof (sh_pos _ _ (qi_shape _ _ _ Q)). unfold in_tree. simpl. lia. }
  split; [|split; [|split; [|split]]].
  - intros c v Hc Hv.
    destruct (SwitchState_ok words a strs v c Q Hv (proj1 (valid_char_range c) Hc))
      as (a' & s' & E & _ & X & _).
    exists a', s'. split; [exact E|]. split; [exact X|].
    split; [now apply (built_SwitchState words a c v a' s')|].
    intros i. now apply spell_extends.
  - intros v Hv.
    destruct (GetLink_ok words a strs v Q Hv) as (a' & l & E & _ & X & _).
    exists a', l. split; [exact E|]. split; [exact X|].
    split; [now apply (built_GetLink words a v a' l)|].
    intros i. now apply spell_extends.
  - intros s Hs.
    destruct (HasString_ok words a strs s Q Hs) as (a' & b & E & _ & X & _).
    exists a', b. split; [exact E|]. split; [exact X|].
    split; [|intros i; now apply spell_extends].
    unfold HasString in E.
    destruct (walk a TState.default s) as [[a1 r]|] eqn:W; [|discriminate].
    cbn [bind] in E.
    assert (a1 = a') by (destruct r; inversion E; auto). subst a1.
    apply (walk_built words strs s a TState.default a' r B Q H0 Hs W).
  - intros s Hs.
    destruct (HasPrefix_ok words a strs s Q Hs) as (a' & E & _ & X).
    exists a', (in_trie words s). split; [exact E|]. split; [exact X|].
    split; [|intros i; now apply spell_extends].
    unfold HasPrefix in E.
    destruct (walk a TState.default s) as [[a1 r]|] eqn:W; [|discriminate].
    cbn [bind] in E.
    assert (a1 = a') by (destruct r; inversion E; auto). subst a1.
    apply (walk_built words strs s a TState.default a' r B Q H0 Hs W).
  - intros t res Ht.
    destruct (SearchIn_ok words a strs t res Q Ht) as (a' & out & E & _ & X & _).
    exists a', (res ++ out). split; [exact E|]. split; [exact X|].
    split; [|intros i; now apply spell_extends].
    apply valid_text_inv in Ht as [Ht _].
    apply (SearchIn_loop_built words strs t a TState.default 0 res a'
             (res ++ out) B Q H0 Ht E).
Qed.

Lemma queries_keep_the_trie_witness :
  valid_words ex_words = true /\
  exists a' out,
    SearchIn ex_automaton (chars_of_string "abcdef") [] = Some (a', out) /\
    extends ex_automaton a' /\ built ex_words a'.
Proof.
  split; [reflexivity|].
  destruct (queries_keep_the_trie ex_words ex_automaton eq_refl ex_built)
    as (_ & _ & _ & _ & H).
  destruct (H (chars_of_string "abcdef") [] eq_refl)
    as (a' & out & E & X & B & _).
  exists a', out. auto.
Defined.

(** ** What has been resolved is answered from the tables *)

Lemma resolver_fuel_S a : resolver_fuel a = S (2 * length (Tree a) + 1).
Proof. unfold resolver_fuel. lia. Qed.

Lemma SwitchStateCode_fuel_shape f a k v a' s' :
  SwitchStateCode_fuel (S f) a k v = Some (a', s') ->
  let i := TState.Idx v in
  let a1 := if TNode.Go (node a i) =? -1 then alloc_Go a i else a in
  let n := way a' (TNode.Go (node a1 i) + k) in
  s' = TState.mk n (TNode.Depth (node a' n)) (TNode.IsLeaf (node a' n)).
Proof.
  rewrite SwitchStateCode_fuel_S. cbv zeta. intros E.
  match type of E with
  | bind ?X _ = _ => destruct X as [a2|]
  end; cbn [bind] in E; [|discriminate].
  inversion E; subst. reflexivity.
Qed.

Lemma SwitchStateCode_fuel_row f a k v :
  let i := TState.Idx v in
  let a1 := if TNode.Go (node a i) =? -1 then alloc_Go a i else a in
  TNode.Go (node a1 i) <> -1 ->
  SwitchStateCode_fuel (S f) a k v = SwitchStateCode_fuel (S f) a1 k v.
Proof.
  intros i a1 Hg. rewrite !SwitchStateCode_fuel_S. cbv zeta.
  fold i. fold a1.
  assert (Hid : (if TNode.Go (node a1 i) =? -1 then alloc_Go a1 i else a1) = a1).
  { destruct (Z.eqb_spec (TNode.Go (node a1 i)) (-1)); congruence. }
  rewrite Hid. reflexivity.
Qed.

Lemma SwitchStateCode_cell words strs a c v a' s' :
  QInv words a strs -> in_tree a (TState.Idx v) -> 0 <= c < 256 ->
  code_of a c <> -1 ->
  SwitchStateCode a (code_of a c) v = Some (a', s') ->
  TNode.Go (node a' (TState.Idx v)) <> -1 /\
  way a' (TNode.Go (node a' (TState.Idx v)) + code_of a c) <> -1 /\
  s' = TState.mk
         (way a' (TNode.Go (node a' (TState.Idx v)) + code_of a c))
         (TNode.Depth
            (node a' (way a' (TNode.Go (node a' (TState.Idx v)) + code_of a c))))
         (TNode.IsLeaf
            (node a' (way a' (TNode.Go (node a' (TState.Idx v)) + code_of a c)))).
Proof.
  intros Q Hv Hc Hk E. unfold SwitchStateCode in E.
  rewrite resolver_fuel_S in E.
  set (f := (2 * length (Tree a) + 1)%nat) in E.
  set (i := TState.Idx v) in *. set (k := code_of a c) in *.
  destruct (go_row words a strs i Q Hv) as (Q1 & X1 & Hg1).
  pose proof (SwitchStateCode_fuel_shape f a k v a' s' E) as Hshape.
  pose proof (SwitchStateCode_fuel_row f a k v) as Hrow.
  cbv zeta in Hshape, Hrow. fold i in Hshape, Hrow.
  set (a1 := if TNode.Go (node a i) =? -1 then alloc_Go a i else a) in *.
  rewrite (Hrow Hg1) in E.
  assert (Hv1 : in_tree a1 i) by (now apply (extends_in_tree _ _ _ X1)).
  assert (Hk1 : code_of a1 c = k) by (now apply extends_code_of).
  destruct (resolvers_ok words strs (S f) a1 Q1) as [HS _].
  destruct (HS v c Hv1 Hc) as (a2 & s2 & E2 & Q2 & X2 & Hin2 & _).
  { congruence. }
  { pose proof (resolver_fuel_enough a strs i (qi_shape _ _ _ Q) Hv) as H.
    rewrite resolver_fuel_S in H. exact H. }
  rewrite Hk1 in E2. rewrite E in E2. inversion E2; subst a2 s2.
  assert (Hg' : TNode.Go (node a' i) = TNode.Go (node a1 i))
    by (apply (ex_go _ _ X2); exact Hg1).
  rewrite Hg'. split; [exact Hg1|]. split; [|exact Hshape].
  rewrite Hshape in Hin2. cbn [TState.Idx] in Hin2.
  unfold in_tree in Hin2. lia.
Qed.

(** X9.  A transition or a suffix link that has been resolved is answered
    from the tables: asking [SwitchState] again for the same node and symbol,
    or [GetLink] again for the same node, on the automaton the first call
    returned, gives the same state and leaves that automaton exactly as it
    is. *)
Theorem resolved_answers_are_kept words a v c :
  valid_words words = true -> built words a ->
  in_tree a (TState.Idx v) -> valid_char c = true ->
  (exists a' s', SwitchState a c v = Some (a', s') /\
                 SwitchState a' c v = Some (a', s')) /\
  (exists a' l, GetLink a v = Some (a', l) /\
                GetLink a' v = Some (a', l)).
Proof.
  intros Hw B Hv Hc. apply valid_char_range in Hc.
  destruct (built_QInv words a Hw B) as [strs Q]. split.
  - destruct (SwitchState_exact words a strs v c Q Hv Hc)
      as (a' & s' & E & Q' & X & _ & _ & _ & _ & Hno).
    exists a', s'. split; [exact E|].
    pose proof (code_of_occurs words a strs c Q) as Ho.
    unfold SwitchState in *.
    rewrite (CodeMap_at_valid _ c (co_size _ _ (qi_codes _ _ _ Q')) Hc).
    rewrite (CodeMap_at_valid _ c (co_size _ _ (qi_codes _ _ _ Q)) Hc) in E.
    cbn [bind] in *. fold (code_of a' c). fold (code_of a c) in E.
    rewrite (extends_code_of _ _ c X).
    destruct (Z.eqb_spec (code_of a c) (-1)) as [Ek|Ek].
    + inversion E; subst. reflexivity.
    + destruct (SwitchStateCode_cell words strs a c v a' s' Q Hv Hc Ek E)
        as (Hg & Hcell & Hs).
      unfold SwitchStateCode. rewrite resolver_fuel_S, SwitchStateCode_fuel_S.
      cbv zeta.
      destruct (Z.eqb_spec (TNode.Go (node a' (TState.Idx v))) (-1));
        [contradiction|].
      destruct (Z.eqb_spec
                  (way a' (TNode.Go (node a' (TState.Idx v)) + code_of a c))
                  (-1)); [contradiction|].
      cbn [bind]. rewrite <- Hs. reflexivity.
  - destruct (GetLink_ok words a strs v Q Hv)
      as (a' & l & E & Q' & X & Hin & _ & Hi & Hd & Hl).
    exists a', l. split; [exact E|].
    unfold GetLink. rewrite resolver_fuel_S, GetLink_fuel_S. cbv zeta.
    assert (Hn : TNode.SuffLink (node a' (TState.Idx v)) <> -1).
    { rewrite <- Hi. unfold in_tree in Hin. lia. }
    destruct (Z.eqb_spec (TNode.SuffLink (node a' (TState.Idx v))) (-1));
      [contradiction|].
    cbn [bind]. rewrite <- Hi, <- Hd, <- Hl. now destruct l.
Qed.

Lemma resolved_answers_are_kept_witness :
  valid_words ex_words = true /\
  exists a' s',
    SwitchState ex_automaton 101 (TState.mk 4 4 0) = Some (a', s') /\
    SwitchState a' 101 (TState.mk 4 4 0) = Some (a', s').
Proof.
  split; [reflexivity|].
  assert (H4 : in_tree ex_automaton (TState.Idx (TState.mk 4 4 0))).
  { unfold in_tree. vm_compute. intuition congruence. }
  apply (resolved_answers_are_kept ex_words ex_automaton (TState.mk 4 4 0)
           101 eq_refl ex_built H4 eq_refl).
Defined.

(** ** The exact output of [SearchIn] *)

Lemma search_exact_cons words done c rest :
  search_exact words done (c :: rest) =
  (if occurs_in words c && (0 <=? leaf_index words (lsp words (done ++ [c])))
   then [(vsize (done ++ [c]), leaf_index words (lsp words (done ++ [c])))]
   else []) ++ search_exact words (done ++ [c]) rest.
Proof. reflexivity. Qed.

Lemma search_exact_In words rest : forall done e k,
  In (e, k) (search_exact words done rest) <->
  exists m : nat, (1 <= m <= length rest)%nat /\
    e = vsize done + Z.of_nat m /\
    occurs_in words (nth (m - 1) rest 0) = true /\
    k = leaf_index words (lsp words (done ++ firstn m rest)) /\ 0 <= k.
Proof.
  induction rest as [|c rest IH]; intros done e k.
  - simpl. split; [tauto|]. intros (m & Hm & _). lia.
  - rewrite search_exact_cons, in_app_iff, IH. split.
    + intros [H|(m & Hm & He & Ho & Hk & Hk0)].
      * destruct (occurs_in words c) eqn:O; [|destruct H].
        destruct (Z.leb_spec 0 (leaf_index words (lsp words (done ++ [c]))));
          [|destruct H].
        destruct H as [H|[]]. inversion H; subst.
        exists 1%nat. simpl. rewrite vsize_app, vsize_cons, vsize_nil.
        repeat split; auto; lia.
      * exists (S m). simpl length. simpl firstn.
        rewrite vsize_app, vsize_cons, vsize_nil in He.
        rewrite <- app_assoc in Hk. simpl app in Hk.
        replace (S m - 1)%nat with (S (m - 1)) by lia. simpl nth.
        repeat split; auto; lia.
    + intros (m & Hm & He & Ho & Hk & Hk0). destruct m as [|m]; [lia|].
      simpl in Hm. simpl firstn in Hk.
      destruct m as [|m].
      * left. simpl firstn in Hk. simpl in Ho. rewrite <- Hk, Ho.
        destruct (Z.leb_spec 0 k); [|lia]. left.
        rewrite vsize_app, vsize_cons, vsize_nil. f_equal. lia.
      * right. exists (S m). rewrite vsize_app, vsize_cons, vsize_nil.
        rewrite <- app_assoc. simpl app.
        replace (S (S m) - 1)%nat with (S (S m - 1)) in Ho by lia.
        simpl nth in Ho.
        repeat split; auto; lia.
Qed.

Lemma search_exact_model words rest : forall done x,
  In x (search_exact words done rest) -> In x (search_model words done rest).
Proof.
  intros done [e k] H. apply search_exact_In in H as (m & Hm & He & _ & Hk).
  apply search_model_In. exists m. auto.
Qed.

Lemma search_exact_increasing words rest : forall done,
  increasing_ends (search_exact words done rest).
Proof.
  unfold increasing_ends.
  induction rest as [|c rest IH]; intros done; [constructor|].
  rewrite search_exact_cons.
  destruct (occurs_in words c &&
            (0 <=? leaf_index words (lsp words (done ++ [c])))); [|apply IH].
  simpl app. constructor; [apply IH|].
  apply Forall_forall. intros [e k] Hin.
  apply search_exact_In in Hin as (m & Hm & -> & _). simpl. lia.
Qed.

Lemma search_exact_app words r1 : forall done r2,
  search_exact words done (r1 ++ r2) =
  search_exact words done r1 ++ search_exact words (done ++ r1) r2.
Proof.
  induction r1 as [|c r1 IH]; intros done r2.
  - simpl. now rewrite app_nil_r.
  - simpl app. rewrite !search_exact_cons, IH, <- !app_assoc. reflexivity.
Qed.

Lemma SearchIn_loop_exact words strs rest : forall a s done res,
  QInv words a strs -> in_tree a (TState.Idx s) ->
  str strs (TState.Idx s) = lsp words done ->
  valid_chars rest = true -> vsize done + vsize rest < 2 ^ 32 ->
  exists a',
    SearchIn_loop a s (vsize done) rest res =
      Some (a', res ++ search_exact words done rest) /\
    QInv words a' strs /\ extends a a'.
Proof.
  induction rest as [|c rest IH]; intros a s done res Q Hin Hs Hv Hlen.
  - exists a. simpl. rewrite app_nil_r. split; [reflexivity|].
    split; [exact Q|apply extends_refl].
  - apply valid_chars_Forall in Hv. inversion Hv as [|? ? Hc Hrest]; subst.
    apply valid_chars_Forall in Hrest. rewrite vsize_cons in Hlen.
    pose proof (vsize_nonneg rest) as Hr0. pose proof (vsize_nonneg done) as Hd0.
    destruct (SwitchState_exact words a strs s c Q Hin Hc)
      as (a1 & s1 & E1 & Q1 & X1 & Hin1 & Hs1 & _ & Hl1 & _).
    rewrite Hs, <- lsp_snoc in Hs1, Hl1.
    assert (Hpos : wrap32 (vsize done + 1) = vsize (done ++ [c]))
      by (rewrite wrap32_small, vsize_app, vsize_cons, vsize_nil; lia).
    rewrite SearchIn_loop_cons, E1. cbn [bind]. rewrite Hpos.
    rewrite search_exact_cons.
    set (k := leaf_index words (lsp words (done ++ [c]))) in *.
    set (emit := if occurs_in words c && (0 <=? k)
                 then [(vsize (done ++ [c]), k)] else []).
    assert (Hres : (if TState.IsLeaf s1
                    then res ++ [(vsize (done ++ [c]), TState.GetWordIdx s1)]
                    else res) = res ++ emit).
    { unfold emit, TState.IsLeaf, TState.GetWordIdx. rewrite Hl1.
      destruct (occurs_in words c); cbn [andb].
      - destruct (0 <=? k); [reflexivity|now rewrite app_nil_r].
      - change (0 <=? -1) with false. cbv iota. now rewrite app_nil_r. }
    rewrite Hres.
    destruct (IH a1 s1 (done ++ [c]) (res ++ emit) Q1 Hin1 Hs1 Hrest)
      as (a2 & E2 & Q2 & X2).
    { rewrite vsize_app, vsize_cons, vsize_nil. lia. }
    exists a2. rewrite E2, <- app_assoc.
    split; [reflexivity|]. split; [exact Q2|now apply (extends_trans _ a1)].
Qed.

Lemma SearchIn_exact words a strs t res :
  QInv words a strs -> valid_text t = true ->
  exists a',
    SearchIn a t res = Some (a', res ++ search_exact words [] t) /\
    QInv words a' strs /\ extends a a'.
Proof.
  intros Q Hv. apply valid_text_inv in Hv as [Hv Hlen].
  pose proof (qi_shape _ _ _ Q) as S.
  unfold SearchIn. change 0 with (vsize (@nil Z)) at 1.
  apply (SearchIn_loop_exact words strs); auto.
  - pose proof (sh_pos _ _ S). unfold in_tree. simpl. lia.
  - apply (sh_root _ _ S).
Qed.

(** X10.  What [SearchIn] appends, for every pattern set (an empty pattern
    among them or not): once each and in strictly increasing order of end
    position, exactly the pairs [(e, k)] such that the symbol at position [e]
    occurs in some pattern, the longest suffix of the first [e] symbols that
    is empty or a prefix of a pattern is itself a pattern, and [k] is the
    largest index of that pattern.  Each pair is an occurrence of pattern
    [k] that ends at [e]. *)
Theorem SearchIn_exact_output words a t res :
  valid_words words = true -> built words a -> valid_text t = true ->
  exists a' out,
    SearchIn a t res = Some (a', res ++ out) /\
    out = search_exact words [] t /\
    (forall e k, In (e, k) out <->
       1 <= e <= vsize t /\
       occurs_in words (nth (Z.to_nat (e - 1)) t 0) = true /\
       0 <= k /\
       k = leaf_index words (lsp words (firstn (Z.to_nat e) t))) /\
    increasing_ends out /\
    (forall e k, In (e, k) out -> occurs_at words t e k).
Proof.
  intros Hw B Ht. destruct (built_QInv words a Hw B) as [strs Q].
  destruct (SearchIn_exact words a strs t res Q Ht) as (a' & E & _).
  exists a', (search_exact words [] t). split; [exact E|].
  split; [reflexivity|]. split; [|split].
  - intros e k. rewrite search_exact_In. change (vsize (@nil Z)) with 0.
    simpl app. unfold vsize. split.
    + intros (m & Hm & -> & Ho & Hk & Hk0). rewrite Z.add_0_l, Nat2Z.id.
      replace (Z.to_nat (Z.of_nat m - 1)) with (m - 1)%nat by lia.
      repeat split; auto; lia.
    + intros (He & Ho & Hk0 & Hk). exists (Z.to_nat e).
      replace (Z.to_nat e - 1)%nat with (Z.to_nat (e - 1)) by lia.
      repeat split; auto; lia.
  - apply search_exact_increasing.
  - intros e k H. apply search_model_sound. now apply search_exact_model.
Qed.

Lemma SearchIn_exact_output_witness :
  valid_words nested_words = true /\
  exists a' out,
    SearchIn nested_automaton (chars_of_string "abcd") [] = Some (a', out) /\
    out = search_exact nested_words [] (chars_of_string "abcd").
Proof.
  split; [reflexivity|].
  destruct (SearchIn_exact_output nested_words nested_automaton
              (chars_of_string "abcd") [] eq_refl
              (built_Reset nested_words nested_automaton nested_Reset) eq_refl)
    as (a' & out & E & Ho & _).
  exists a', out. split; [exact E|exact Ho].
Defined.

Lemma valid_text_app_l t1 t2 :
  valid_text (t1 ++ t2) = true -> valid_text t1 = true.
Proof.
  intros H. apply valid_text_inv in H as [Hc Hl].
  unfold valid_text. apply andb_true_iff. split.
  - unfold valid_chars in *. rewrite forallb_app in Hc.
    now apply andb_true_iff in Hc as [? _].
  - apply Z.ltb_lt. rewrite vsize_app in Hl. pose proof (vsize_nonneg t2). lia.
Qed.

(** X11.  [SearchIn] reads the text from left to right and never goes back:
    what it reports for a text is what it reports for any beginning [t1] of
    it, followed by pairs that end after [t1]. *)
Theorem SearchIn_prefix_stable words a t1 t2 :
  valid_words words = true -> built words a ->
  valid_text (t1 ++ t2) = true ->
  exists a1 a2 out1 out2,
    SearchIn a t1 [] = Some (a1, out1) /\
    SearchIn a (t1 ++ t2) [] = Some (a2, out1 ++ out2) /\
    forall e k, In (e, k) out2 -> vsize t1 < e <= vsize (t1 ++ t2).
Proof.
  intros Hw B Ht. destruct (built_QInv words a Hw B) as [strs Q].
  destruct (SearchIn_exact words a strs t1 [] Q (valid_text_app_l _ _ Ht))
    as (a1 & E1 & _).
  destruct (SearchIn_exact words a strs (t1 ++ t2) [] Q Ht) as (a2 & E2 & _).
  rewrite search_exact_app in E2. simpl app in E1, E2.
  exists a1, a2, (search_exact words [] t1), (search_exact words t1 t2).
  split; [exact E1|]. split; [exact E2|].
  intros e k H. apply search_exact_In in H as (m & Hm & -> & _).
  rewrite vsize_app. unfold vsize. lia.
Qed.

Lemma SearchIn_prefix_stable_witness :
  valid_words ex_words = true /\
  exists a1 a2 out1 out2,
    SearchIn ex_automaton (chars_of_string "abcd") [] = Some (a1, out1) /\
    SearchIn ex_automaton (chars_of_string "abcd" ++ chars_of_string "ef") []
      = Some (a2, out1 ++ out2).
Proof.
  split; [reflexivity|].
  destruct (SearchIn_prefix_stable ex_words ex_automaton
              (chars_of_string "abcd") (chars_of_string "ef")
              eq_refl ex_built eq_refl)
    as (a1 & a2 & out1 & out2 & E1 & E2 & _).
  exists a1, a2, out1, out2. split; [exact E1|exact E2].
Defined.

(** ** The answers do not depend on what has been resolved *)

Lemma built_QInv_from words a0 strs a :
  Reset words = Some a0 -> QInv words a0 strs -> built words a ->
  QInv words a strs.
Proof.
  intros E0 Q0 B. induction B as [a E | a c v a' s B IH Hc Hv E
                                 | a v a' l B IH Hv E].
  - congruence.
  - apply valid_char_range in Hc.
    destruct (SwitchState_ok words a strs v c IH Hv Hc)
      as (a1 & s1 & E1 & Q1 & _). congruence.
  - destruct (GetLink_ok words a strs v IH Hv) as (a1 & l1 & E1 & Q1 & _).
    congruence.
Qed.

Lemma built_common words a1 a2 :
  valid_words words = true -> built words a1 -> built words a2 ->
  exists strs, QInv words a1 strs /\ QInv words a2 strs.
Proof.
  intros Hw B1 B2. destruct (Reset_ok words Hw) as (a0 & strs & E0 & Q0 & _).
  exists strs. split; apply (built_QInv_from words a0 strs); auto.
Qed.

Lemma same_node words strs a1 a2 i j :
  QInv words a1 strs -> QInv words a2 strs ->
  in_tree a1 i -> in_tree a2 j -> str strs i = str strs j -> i = j.
Proof.
  intros Q1 Q2 Hi Hj E. pose proof (qi_shape _ _ _ Q1) as S1.
  apply (sh_inj _ _ S1); auto.
  unfold in_tree in *.
  rewrite <- (sh_size _ _ S1), (sh_size _ _ (qi_shape _ _ _ Q2)). exact Hj.
Qed.

(** X12.  The tables of resolved transitions and links are a cache and
    nothing more: two automata reached from [Reset] on the same patterns,
    whatever each has resolved so far, give the same state for [SwitchState]
    and for [GetLink], the same answer for [HasString] and for [HasPrefix],
    and the same result vector for [SearchIn]. *)
Theorem answers_independent_of_cache words a1 a2 :
  valid_words words = true -> built words a1 -> built words a2 ->
  (forall c v, valid_char c = true -> in_tree a1 (TState.Idx v) ->
     exists a1' a2' s,
       SwitchState a1 c v = Some (a1', s) /\
       SwitchState a2 c v = Some (a2', s)) /\
  (forall v, in_tree a1 (TState.Idx v) ->
     exists a1' a2' l,
       GetLink a1 v = Some (a1', l) /\ GetLink a2 v = Some (a2', l)) /\
  (forall s, valid_chars s = true ->
     exists a1' a2' b,
       HasString a1 s = Some (a1', b) /\ HasString a2 s = Some (a2', b)) /\
  (forall s, valid_chars s = true ->
     exists a1' a2' b,
       HasPrefix a1 s = Some (a1', b) /\ HasPrefix a2 s = Some (a2', b)) /\
  (forall t res, valid_text t = true ->
     exists a1' a2' out,
       SearchIn a1 t res = Some (a1', out) /\
       SearchIn a2 t res = Some (a2', out)).
Proof.
  intros Hw B1 B2.
  destruct (built_common words a1 a2 Hw B1 B2) as (strs & Q1 & Q2).
  assert (Hsame : forall i, in_tree a1 i -> in_tree a2 i).
  { intros i Hi. unfold in_tree in *.
    rewrite <- (sh_size _ _ (qi_shape _ _ _ Q2)),
            (sh_size _ _ (qi_shape _ _ _ Q1)). exact Hi. }
  split; [|split; [|split; [|split]]].
  - intros c v Hc Hv. apply valid_char_range in Hc.
    destruct (SwitchState_exact words a1 strs v c Q1 Hv Hc)
      as (b1 & s1 & E1 & Q1' & _ & Hin1 & Hs1 & Hd1 & Hl1 & _).
    destruct (SwitchState_exact words a2 strs v c Q2 (Hsame _ Hv) Hc)
      as (b2 & s2 & E2 & Q2' & _ & Hin2 & Hs2 & Hd2 & Hl2 & _).
    exists b1, b2, s1. split; [exact E1|]. rewrite E2. do 2 f_equal.
    assert (Hi : TState.Idx s1 = TState.Idx s2).
    { apply (same_node words strs b1 b2); auto. congruence. }
    destruct s1, s2. simpl in *. congruence.
  - intros v Hv.
    destruct (GetLink_ok words a1 strs v Q1 Hv)
      as (b1 & l1 & E1 & Q1' & X1 & Hin1 & Hs1 & _ & Hd1 & Hl1).
    destruct (GetLink_ok words a2 strs v Q2 (Hsame _ Hv))
      as (b2 & l2 & E2 & Q2' & X2 & Hin2 & Hs2 & _ & Hd2 & Hl2).
    exists b1, b2, l1. split; [exact E1|]. rewrite E2. do 2 f_equal.
    assert (Hi : TState.Idx l1 = TState.Idx l2).
    { apply (same_node words strs b1 b2); auto. congruence. }
    assert (Hv1 : in_tree b1 (TState.Idx v))
      by (now apply (extends_in_tree _ _ _ X1)).
    assert (Hv2 : in_tree b2 (TState.Idx v))
      by (apply (extends_in_tree _ _ _ X2); auto).
    rewrite (sh_depth _ _ (qi_shape _ _ _ Q1') _ Hv1) in Hd1.
    rewrite (sh_depth _ _ (qi_shape _ _ _ Q2') _ Hv2) in Hd2.
    rewrite (ct_leaf _ _ _ (qi_content _ _ _ Q1') _ Hin1) in Hl1.
    rewrite (ct_leaf _ _ _ (qi_content _ _ _ Q2') _ Hin2) in Hl2.
    destruct l1, l2. simpl in *. congruence.
  - intros s Hs.
    destruct (HasString_ok words a1 strs s Q1 Hs) as (b1 & r1 & E1 & _ & _ & H1).
    destruct (HasString_ok words a2 strs s Q2 Hs) as (b2 & r2 & E2 & _ & _ & H2).
    exists b1, b2, r1. split; [exact E1|]. rewrite E2. do 2 f_equal.
    destruct r1, r2; auto.
    + apply (proj2 H2), (proj1 H1). reflexivity.
    + symmetry. apply (proj2 H1), (proj1 H2). reflexivity.
  - intros s Hs.
    destruct (HasPrefix_ok words a1 strs s Q1 Hs) as (b1 & E1 & _).
    destruct (HasPrefix_ok words a2 strs s Q2 Hs) as (b2 & E2 & _).
    exists b1, b2, (in_trie words s). auto.
  - intros t res Ht.
    destruct (SearchIn_exact words a1 strs t res Q1 Ht) as (b1 & E1 & _).
    destruct (SearchIn_exact words a2 strs t res Q2 Ht) as (b2 & E2 & _).
    exists b1, b2, (res ++ search_exact words [] t). auto.
Qed.

Lemma answers_independent_of_cache_witness :
  valid_words ex_words = true /\
  exists a1 a2 a1' a2' out,
    built ex_words a1 /\ built ex_words a2 /\ a1 <> a2 /\
    SearchIn a1 (chars_of_string "bcdef") [] = Some (a1', out) /\
    SearchIn a2 (chars_of_string "bcdef") [] = Some (a2', out).
Proof.
  split; [reflexivity|].
  assert (H0 : in_tree ex_automaton (TState.Idx TState.default)).
  { unfold in_tree. vm_compute. intuition congruence. }
  destruct (SwitchState ex_automaton 97 TState.default) as [[b s]|] eqn:E;
    [|vm_compute in E; discriminate E].
  assert (B : built ex_words b).
  { apply (built_SwitchState ex_words ex_automaton 97 TState.default b s);
      auto. apply ex_built. }
  destruct (answers_independent_of_cache ex_words ex_automaton b eq_refl
              ex_built B) as (_ & _ & _ & _ & H).
  destruct (H (chars_of_string "bcdef") [] eq_refl) as (a1' & a2' & out & E1 & E2).
  exists ex_automaton, b, a1', a2', out.
  split; [apply ex_built|]. split; [exact B|]. split; [|split; assumption].
  vm_compute in E. injection E as <- _. intros Hne.
  apply (f_equal (fun x => vsize (Ways x))) in Hne. vm_compute in Hne.
  discriminate Hne.
Defined.

(** ** The two membership queries *)

(** X13.  [HasString] answers [true] exactly on the non-empty patterns and
    [HasPrefix] exactly on the empty string and the prefixes of the patterns;
    so whatever [HasString] accepts, [HasPrefix] accepts. *)
Theorem membership_queries words a s :
  valid_words words = true -> built words a -> valid_chars s = true ->
  exists a1 a2 b1 b2,
    HasString a s = Some (a1, b1) /\
    HasPrefix a s = Some (a2, b2) /\
    (b1 = true <-> s <> [] /\ In s words) /\
    (b2 = true <-> s = [] \/ exists w r, In w words /\ w = s ++ r) /\
    (b1 = true -> b2 = true).
Proof.
  intros Hw B Hs. destruct (built_QInv words a Hw B) as [strs Q].
  destruct (HasString_ok words a strs s Q Hs) as (a1 & b1 & E1 & _ & _ & H1).
  destruct (HasPrefix_ok words a strs s Q Hs) as (a2 & E2 & _).
  exists a1, a2, b1, (in_trie words s).
  split; [exact E1|]. split; [exact E2|]. split; [exact H1|].
  split; [apply in_trie_spec|].
  intros Hb. apply H1 in Hb as [_ Hin]. now apply in_trie_word.
Qed.

Lemma membership_queries_witness :
  valid_words ex_words = true /\
  exists a1 a2 b1 b2,
    HasString ex_automaton (chars_of_string "cde") = Some (a1, b1) /\
    HasPrefix ex_automaton (chars_of_string "cde") = Some (a2, b2) /\
    (b2 = true <->
       chars_of_string "cde" = [] \/
       exists w r, In w ex_words /\ w = chars_of_string "cde" ++ r).
Proof.
  split; [reflexivity|].
  destruct (membership_queries ex_words ex_automaton (chars_of_string "cde")
              eq_refl ex_built eq_refl)
    as (a1 & a2 & b1 & b2 & E1 & E2 & _ & H2 & _).
  exists a1, a2, b1, b2. split; [exact E1|]. split; [exact E2|exact H2].
Defined.

(** ** Symbols of no pattern *)

Lemma SwitchState_foreign words a strs c v :
  QInv words a strs -> 0 <= c < 256 -> occurs_in words c = false ->
  SwitchState a c v = Some (a, TState.default).
Proof.
  intros Q Hc Ho. unfold SwitchState.
  rewrite (CodeMap_at_valid _ c (co_size _ _ (qi_codes _ _ _ Q)) Hc).
  cbn [bind]. fold (code_of a c).
  now rewrite (code_of_occurs words a strs c Q), Ho.
Qed.

Lemma SearchIn_loop_foreign words a strs t : forall s i res,
  QInv words a strs -> valid_chars t = true ->
  (forall c, In c t -> occurs_in words c = false) ->
  SearchIn_loop a s i t res = Some (a, res).
Proof.
  induction t as [|c t IH]; intros s i res Q Hv Hf; [reflexivity|].
  apply valid_chars_Forall in Hv. inversion Hv as [|? ? Hc Ht]; subst.
  apply valid_chars_Forall in Ht.
  rewrite SearchIn_loop_cons.
  rewrite (SwitchState_foreign words a strs c s Q Hc (Hf c (or_introl eq_refl))).
  cbn [bind]. change (TState.IsLeaf TState.default) with false. cbv iota.
  apply IH; auto. intros x Hx. apply Hf. now right.
Qed.

(** X14.  Symbols that occur in no pattern never touch the tables: on such a
    symbol [SwitchState] returns the root state [TState()] from every state
    and the automaton as it was; [SearchIn] on a text made of such symbols
    (of fewer than 2^32 of them, so that the 32-bit counter of the loop
    reaches the end) returns the automaton and the result vector unchanged;
    and [HasString] and [HasPrefix] reject, without any change, a string that
    begins with one. *)
Theorem foreign_symbols_touch_nothing words a :
  valid_words words = true -> built words a ->
  (forall c v, valid_char c = true -> occurs_in words c = false ->
     SwitchState a c v = Some (a, TState.default)) /\
  (forall t res, valid_text t = true ->
     (forall c, In c t -> occurs_in words c = false) ->
     SearchIn a t res = Some (a, res)) /\
  (forall c t, valid_char c = true -> occurs_in words c = false ->
     HasString a (c :: t) = Some (a, false) /\
     HasPrefix a (c :: t) = Some (a, false)).
Proof.
  intros Hw B. destruct (built_QInv words a Hw B) as [strs Q].
  split; [|split].
  - intros c v Hc Ho. apply valid_char_range in Hc.
    now apply (SwitchState_foreign words a strs).
  - intros t res Hv Hf. apply valid_text_inv in Hv as [Hv _].
    unfold SearchIn. now apply (SearchIn_loop_foreign words a strs).
  - intros c t Hc Ho. apply valid_char_range in Hc.
    unfold HasString, HasPrefix. cbn [walk].
    rewrite (SwitchState_foreign words a strs c _ Q Hc Ho). cbn [bind].
    change (TState.IsNextTo TState.default TState.default) with false.
    cbn [negb bind]. split; reflexivity.
Qed.

Lemma foreign_symbols_touch_nothing_witness :
  valid_words ex_words = true /\
  SearchIn ex_automaton (chars_of_string "xyz") [(7, 7)]
    = Some (ex_automaton, [(7, 7)]).
Proof.
  split; [reflexivity|].
  destruct (foreign_symbols_touch_nothing ex_words ex_automaton eq_refl
              ex_built) as (_ & H & _).
  apply H; [reflexivity|].
  intros c [<-|[<-|[<-|[]]]]; reflexivity.
Defined.

(** ** The tables *)

(** X15.  Every access to [Ways] made through a row of a node stays inside
    the vector, and no cell belongs to two rows: in every automaton reached
    from [Reset], a row of literal edges or of resolved transitions that has
    been allocated lies inside [Ways] for every code, two different
    (node, code) pairs never name the same cell, and a row of literal edges
    never shares a cell with a row of resolved transitions.  What the cells
    and the suffix links hold is [-1] or the index of a node. *)
Theorem table_accesses_in_bounds words a :
  valid_words words = true -> built words a ->
  (forall i k, 0 <= k < CodeSize a ->
     (TNode.Next (node a i) <> -1 ->
        0 <= TNode.Next (node a i) + k < vsize (Ways a)) /\
     (TNode.Go (node a i) <> -1 ->
        0 <= TNode.Go (node a i) + k < vsize (Ways a))) /\
  (forall i j k1 k2, 0 <= k1 < CodeSize a -> 0 <= k2 < CodeSize a ->
     (TNode.Next (node a i) <> -1 -> TNode.Next (node a j) <> -1 ->
      TNode.Next (node a i) + k1 = TNode.Next (node a j) + k2 ->
      i = j /\ k1 = k2) /\
     (TNode.Go (node a i) <> -1 -> TNode.Go (node a j) <> -1 ->
      TNode.Go (node a i) + k1 = TNode.Go (node a j) + k2 ->
      i = j /\ k1 = k2) /\
     (TNode.Next (node a i) <> -1 -> TNode.Go (node a j) <> -1 ->
      TNode.Next (node a i) + k1 <> TNode.Go (node a j) + k2)) /\
  (forall i k, in_tree a i -> 0 <= k < CodeSize a ->
     (edge a i k = -1 \/ in_tree a (edge a i k)) /\
     (gocell a i k = -1 \/ in_tree a (gocell a i k))) /\
  (forall i, in_tree a i ->
     TNode.SuffLink (node a i) = -1 \/ in_tree a (TNode.SuffLink (node a i))).
Proof.
  intros Hw B. destruct (built_QInv words a Hw B) as [strs Q].
  pose proof (qi_rows _ _ _ Q) as R. pose proof (qi_shape _ _ _ Q) as S.
  pose proof (qi_memo _ _ _ Q) as M. pose proof (qi_codes _ _ _ Q) as C.
  split; [|split; [|split]].
  - intros i k Hk. split; intros Hn.
    + generalize (ri_next _ R i). unfold row_ok. lia.
    + generalize (ri_go _ R i). unfold row_ok. lia.
  - intros i j k1 k2 Hk1 Hk2. split; [|split].
    + intros Hi Hj E. destruct (Z.eq_dec i j) as [->|N]; [split; [auto|lia]|].
      exfalso. generalize (ri_nn _ R i j N). unfold rows_apart. lia.
    + intros Hi Hj E. destruct (Z.eq_dec i j) as [->|N]; [split; [auto|lia]|].
      exfalso. generalize (ri_gg _ R i j N). unfold rows_apart. lia.
    + intros Hi Hj. generalize (ri_ng _ R i j). unfold rows_apart. lia.
  - intros i k Hi Hk. split.
    + destruct (sh_edge _ _ S i k Hi Hk) as [E|(E & _)]; [now left|].
      right. unfold in_tree. lia.
    + destruct (co_surj _ _ C k Hk) as (c & Hc & Hck).
      destruct (me_go _ _ _ M i k c Hi Hc Hck ltac:(lia)) as [E|[E _]];
        [now left|now right].
  - intros i Hi. destruct (me_link _ _ _ M i Hi) as [E|[E _]];
      [now left|now right].
Qed.

Lemma table_accesses_in_bounds_witness :
  valid_words ex_words = true /\
  0 <= TNode.Next (node ex_automaton 2) + 3 < vsize (Ways ex_automaton).
Proof.
  split; [reflexivity|].
  destruct (table_accesses_in_bounds ex_words ex_automaton eq_refl ex_built)
    as (H & _).
  destruct (H 2 3) as [Hn _]; [vm_compute; intuition congruence|].
  apply Hn. vm_compute. discriminate.
Defined.

(** X16.  Whatever the tables hold is right, at every moment: in every
    automaton reached from [Reset], a literal edge that is present leads to
    the node of the string of its source followed by the symbol, and it is
    absent only when that string is no prefix of a pattern; a resolved
    transition leads to the node of the longest suffix of that string that
    is empty or a prefix of a pattern; and a suffix link that has been set
    leads to the node of the longest such suffix of the string of its source
    without its first symbol. *)
Theorem tables_are_right words a i :
  valid_words words = true -> built words a -> in_tree a i ->
  (forall c, valid_char c = true -> code_of a c <> -1 ->
     (edge a i (code_of a c) <> -1 ->
        spell a (edge a i (code_of a c)) = spell a i ++ [c]) /\
     (edge a i (code_of a c) = -1 ->
        in_trie words (spell a i ++ [c]) = false) /\
     (gocell a i (code_of a c) <> -1 ->
        spell a (gocell a i (code_of a c)) = lsp words (spell a i ++ [c]))) /\
  (TNode.SuffLink (node a i) <> -1 ->
     spell a (TNode.SuffLink (node a i)) = lsp words (tl (spell a i))).
Proof.
  intros Hw B Hi. destruct (built_QInv words a Hw B) as [strs Q].
  pose proof (qi_shape _ _ _ Q) as S. pose proof (qi_memo _ _ _ Q) as M.
  rewrite (spell_str words a strs i Q Hi). split.
  - intros c Hc Hk. apply valid_char_range in Hc. split; [|split].
    + intros He.
      destruct (edge_target a strs i c (qi_codes _ _ _ Q) S Hi Hc Hk He)
        as (Hin & Hs).
      now rewrite (spell_str words a strs _ Q Hin).
    + intros He. now apply (no_edge_not_in_trie words a strs i c).
    + intros Hg.
      destruct (me_go _ _ _ M i (code_of a c) c Hi Hc eq_refl Hk)
        as [E|[Hin Hs]]; [contradiction|].
      now rewrite (spell_str words a strs _ Q Hin).
  - intros Hl. destruct (me_link _ _ _ M i Hi) as [E|[Hin Hs]];
      [contradiction|].
    now rewrite (spell_str words a strs _ Q Hin).
Qed.

Lemma tables_are_right_witness :
  valid_words ex_words = true /\
  spell ex_automaton (edge ex_automaton 2 (code_of ex_automaton 99))
    = spell ex_automaton 2 ++ [99].
Proof.
  split; [reflexivity|].
  assert (H2 : in_tree ex_automaton 2).
  { unfold in_tree. vm_compute. intuition congruence. }
  destruct (tables_are_right ex_words ex_automaton 2 eq_refl ex_built H2)
    as (H & _).
  destruct (H 99 eq_refl) as (He & _); [vm_compute; discriminate|].
  apply He. vm_compute. discriminate.
Defined.

(** ** The assertions of the code *)

(** X17.  The assertions of the resolvers hold in every automaton reached
    from [Reset].  The code that [SwitchState] passes to [SwitchStateCode]
    and the code that [GetLink] passes for the parent edge of a node are below
    [CodeSize] (the codes are [0 .. CodeSize - 1], one for each symbol of the
    patterns); and when [GetLink] returns, the suffix link of the node it was
    asked about is set to the index of a node, which is the index carried by
    the state returned. *)
Theorem assertions_hold words a :
  valid_words words = true -> built words a ->
  (forall c, valid_char c = true -> code_of a c <> -1 ->
     0 <= code_of a c < CodeSize a) /\
  (forall c1 c2, valid_char c1 = true -> valid_char c2 = true ->
     code_of a c1 <> -1 -> code_of a c1 = code_of a c2 -> c1 = c2) /\
  (forall k, 0 <= k < CodeSize a ->
     exists c, valid_char c = true /\ code_of a c = k /\ symbol_of a k = c) /\
  (forall j, 0 < j < vsize (Tree a) ->
     0 <= TNode.ParentCode (node a j) < CodeSize a) /\
  (forall v, in_tree a (TState.Idx v) ->
     exists a' l, GetLink a v = Some (a', l) /\
       0 <= TNode.SuffLink (node a' (TState.Idx v)) < vsize (Tree a') /\
       TState.Idx l = TNode.SuffLink (node a' (TState.Idx v))).
Proof.
  intros Hw B. destruct (built_QInv words a Hw B) as [strs Q].
  pose proof (qi_codes _ _ _ Q) as C. pose proof (qi_shape _ _ _ Q) as S.
  split; [|split; [|split; [|split]]].
  - intros c Hc Hk. apply valid_char_range in Hc.
    destruct (co_range _ _ C c Hc) as [E|E]; [contradiction|exact E].
  - intros c1 c2 H1 H2 Hk E. apply valid_char_range in H1, H2.
    now apply (co_inj _ _ C c1 c2).
  - intros k Hk. destruct (co_surj _ _ C k Hk) as (c & Hc & E).
    exists c. split; [now apply valid_char_range|]. split; [exact E|].
    fold (code_of a c) in E. rewrite <- E. apply symbol_of_code; auto. lia.
  - intros j Hj.
    destruct (sh_parent _ _ S j Hj) as (_ & c & Hc & Hk & Hn & _).
    destruct (co_range _ _ C c Hc) as [E|E]; unfold code_of in Hk;
      rewrite Hk in E; [contradiction|exact E].
  - intros v Hv.
    destruct (GetLink_ok words a strs v Q Hv)
      as (a' & l & E & _ & _ & Hin & _ & Hi & _).
    exists a', l. split; [exact E|]. rewrite <- Hi. split; [exact Hin|auto].
Qed.

Lemma assertions_hold_witness :
  valid_words ex_words = true /\
  0 <= code_of ex_automaton 102 < CodeSize ex_automaton.
Proof.
  split; [reflexivity|].
  destruct (assertions_hold ex_words ex_automaton eq_refl ex_built) as (H & _).
  apply H; [reflexivity|]. vm_compute. discriminate.
Defined.
